(** * Torre de Hanoi 3D: the puzzle state machine of [js/Game.js]

    A shallow embedding of the tower/disk model ([class Disk],
    [class Tower]) and of the part of [class Game] that creates, moves
    and checks disks, followed by the properties proved about it.

    Conventions of the embedding.
    - A JavaScript array is a [list] whose head is index 0, so a tower's
      [disks] lists its disks from the bottom (index 0) to the top;
      [push] is [++ [x]], [pop] is [removelast], [a[i]] is [a !! i].
    - Disk sizes, [numDisks] and the timer are integers ([Z]); array
      indices and the move counter are naturals.  All of them stay far
      below 2^53, where JavaScript numbers are exact.
    - A [Disk] value holds the fields fixed by the constructor ([size],
      [index]); the one mutable field the game logic reads,
      [currentTower], lives in the game's [currentTower] store, keyed by
      the disk's [index].  [createDisks] is only ever called right after
      [clearDisks], which drops every reference to the previous disks, so
      the constructor fields identify a disk object within a session.
    - A reference to a [Tower] object is its index in [this.towers]:
      [createTowers] fills that array once and nothing replaces it.
    - Meshes, materials, themes, camera and positions are left out; what
      the user can observe of a call (UI refresh, sounds, status text,
      disk animations) is appended to the game's [log].
    - [Math.random()] is an oracle [rnd : nat -> Q]: [rnd k] is the value
      of the k-th call from the point where the oracle is handed over. *)

From Stdlib Require Import ZArith QArith Qround Lia List.
From Stdlib Require String Ascii DecimalString DecimalZ DecimalPos.
From stdpp Require Import base option list gmap.

Open Scope Z_scope.

(** ** Outcomes of JavaScript calls *)

Inductive JsError : Set :=
| TypeError    (* property access on [undefined] or [null] *)
| RangeError.  (* call stack exhausted *)

(** [Ok a]: the call returned; [Throw e]: it threw [e] and nobody caught
    it; [StillRunning]: the loop bound given to the model ran out while the
    loop was still running. *)
Inductive Result (A : Type) : Type :=
| Ok (a : A)
| Throw (e : JsError)
| StillRunning.

Arguments Ok {A} a.
Arguments Throw {A} e.
Arguments StillRunning {A}.

(** Sequencing: [x ← m; k] runs [k] only if [m] returned. *)
#[global] Instance Result_ret : MRet Result := fun A a => Ok a.

#[global] Instance Result_bind : MBind Result := fun A B f m =>
  match m with
  | Ok a => f a
  | Throw e => Throw e
  | StillRunning => StillRunning
  end.

(** [o] must be an object; reading a property of [undefined] throws. *)
Definition deref {A : Type} (o : option A) : Result A :=
  match o with
  | Some a => Ok a
  | None => Throw TypeError
  end.

(** [a[z]] for an integer-valued number [z]. *)
Definition nthZ {A : Type} (a : list A) (z : Z) : option A :=
  if z <? 0 then None else a !! Z.to_nat z.

(** ** class Disk *)

Record Disk : Set := mkDisk {
  size : Z;       (* 1 is the smallest *)
  index : nat     (* creation order, 0 is the largest *)
}.

Definition Disk_eqb (a b : Disk) : bool :=
  (size a =? size b) && (index a =? index b)%nat.

(** ** class Tower *)

Module Tower.

Record t : Set := mk {
  id : nat;
  disks : list Disk
}.

(** [constructor(id, position, scene, theme)] *)
Definition new (i : nat) : t := {| id := i; disks := [] |}.

(** [addDisk(disk)]: the effect on the tower.  The position update and
    [disk.setTower(this)] touch the disk only; the game applies them
    (see [Game.towerAddDisk]). *)
Definition addDisk (tw : t) (disk : Disk) : t :=
  {| id := id tw; disks := disks tw ++ [disk] |}.

(** [removeDisk()]: the removed disk ([None] for [null]) and the tower
    afterwards. *)
Definition removeDisk (tw : t) : option Disk * t :=
  if (length (disks tw) =? 0)%nat then (None, tw)
  else (last (disks tw), {| id := id tw; disks := removelast (disks tw) |}).

(** [getTopDisk()] *)
Definition getTopDisk (tw : t) : option Disk :=
  if (length (disks tw) =? 0)%nat then None
  else disks tw !! (length (disks tw) - 1)%nat.

(** [canAddDisk(disk)]; past the length test the tower is not empty and
    [getTopDisk()] returns a disk, so the [None] branch is never taken. *)
Definition canAddDisk (tw : t) (disk : Disk) : bool :=
  if (length (disks tw) =? 0)%nat then true
  else
    match getTopDisk tw with
    | Some topDisk => size disk <? size topDisk
    | None => false
    end.

(** [isComplete(totalDisks)]: the [for] loop runs [i] over
    [0 .. totalDisks - 1] and returns [false] at the first mismatch.
    After the length test every [this.disks[i]] it reads exists, so the
    [None] branch below is never taken. *)
Definition isComplete (tw : t) (totalDisks : Z) : bool :=
  if negb (Z.of_nat (length (disks tw)) =? totalDisks) then false
  else
    forallb
      (fun i : nat =>
         match disks tw !! i with
         | Some d => size d =? totalDisks - Z.of_nat i
         | None => false
         end)
      (seq 0 (Z.to_nat totalDisks)).

End Tower.

(** Sizes of a stack of disks, bottom first. *)
Definition sizes (ds : list Disk) : list Z := map size ds.

(** The tower invariant: [disks[i].size > disks[i+1].size] for every
    valid [i]. *)
Definition strictlyDescending (ds : list Disk) : Prop :=
  forall (i : nat) (a b : Disk),
    ds !! i = Some a -> ds !! S i = Some b -> size a > size b.

(** The same, as a test that runs. *)
Fixpoint strictlyDescendingb (ds : list Disk) : bool :=
  match ds with
  | a :: (b :: _) as rest => (size b <? size a) && strictlyDescendingb rest
  | _ => true
  end.

(** ** utils.js *)

(** [calculateMinMoves(numDisks)]: [Math.pow(2, numDisks) - 1], exact
    for [0 <= numDisks <= 53]. *)
Definition calculateMinMoves (numDisks : Z) : Z := 2 ^ numDisks - 1.

(** ** class Game *)

Inductive GameMode : Set := normal | contrarreloj | desafio | puzzle.

(** The interval behind [this.timerInterval]. *)
Inductive TimerKind : Set :=
| Elapsed     (* [startTimer]: counts up *)
| Countdown.  (* [startCountdown]: counts down *)

(** [{ fromTower, toTower }], a step of the automatic solution. *)
Record Move : Set := mkMove {
  fromTower : nat;
  toTower : nat
}.

(** Texts written to [this.gameStatus]. *)
Inductive Status : Set :=
| MsgMoveDisks                      (* "¡Mueve los discos a la torre derecha!" *)
| MsgVictory (moves : nat)          (* "¡Victoria! Movimientos: ..." *)
| MsgTimeUp                         (* "¡Tiempo agotado!" *)
| MsgShowingSolution (steps : nat)  (* "Mostrando solución automática (...)" *)
| MsgSolutionDone.                  (* "¡Solución completada!" *)

(** What a call lets the player see or hear. *)
Inductive Effect : Set :=
| UpdateUI (moves : nat) (timer : Z)
| PlayMoveSound
| PlayErrorSound
| PlayVictorySound
| PlayTick
| ShowStatus (s : Status)
| AnimateDisk (disk : Disk) (tower level : nat)  (* [addDisk]: fly to the top of [tower] *)
| ReturnDisk (disk : Disk) (tower : nat).        (* [dropDisk]: fly back over [tower] *)

(** [{ disks, moves, time }] kept in [this.bestScore]. *)
Record Score : Set := mkScore {
  scoreDisks : Z;
  scoreMoves : nat;
  scoreTime : Z
}.

Module Game.

Record t : Type := mk {
  numDisks : Z;
  moves : nat;
  timer : Z;
  timerInterval : option TimerKind;
  solutionInterval : option (list Move);  (* the steps not yet played *)
  draggingDisk : option Disk;
  towers : list Tower.t;
  disks : list Disk;
  isGameOver : bool;
  gameMode : GameMode;
  timeLimit : Z;
  bestScore : option Score;
  currentTower : gmap nat nat;  (* disk index -> tower index; absent for [null] *)
  log : list Effect             (* oldest first *)
}.

(** Field assignments. *)
Definition set_numDisks (v : Z) (g : t) : t :=
  mk v (moves g) (timer g) (timerInterval g) (solutionInterval g) (draggingDisk g) (towers g) (disks g) (isGameOver g) (gameMode g) (timeLimit g) (bestScore g) (currentTower g) (log g).
Definition set_moves (v : nat) (g : t) : t :=
  mk (numDisks g) v (timer g) (timerInterval g) (solutionInterval g) (draggingDisk g) (towers g) (disks g) (isGameOver g) (gameMode g) (timeLimit g) (bestScore g) (currentTower g) (log g).
Definition set_timer (v : Z) (g : t) : t :=
  mk (numDisks g) (moves g) v (timerInterval g) (solutionInterval g) (draggingDisk g) (towers g) (disks g) (isGameOver g) (gameMode g) (timeLimit g) (bestScore g) (currentTower g) (log g).
Definition set_timerInterval (v : option TimerKind) (g : t) : t :=
  mk (numDisks g) (moves g) (timer g) v (solutionInterval g) (draggingDisk g) (towers g) (disks g) (isGameOver g) (gameMode g) (timeLimit g) (bestScore g) (currentTower g) (log g).
Definition set_solutionInterval (v : option (list Move)) (g : t) : t :=
  mk (numDisks g) (moves g) (timer g) (timerInterval g) v (draggingDisk g) (towers g) (disks g) (isGameOver g) (gameMode g) (timeLimit g) (bestScore g) (currentTower g) (log g).
Definition set_draggingDisk (v : option Disk) (g : t) : t :=
  mk (numDisks g) (moves g) (timer g) (timerInterval g) (solutionInterval g) v (towers g) (disks g) (isGameOver g) (gameMode g) (timeLimit g) (bestScore g) (currentTower g) (log g).
Definition set_towers (v : list Tower.t) (g : t) : t :=
  mk (numDisks g) (moves g) (timer g) (timerInterval g) (solutionInterval g) (draggingDisk g) v (disks g) (isGameOver g) (gameMode g) (timeLimit g) (bestScore g) (currentTower g) (log g).
Definition set_disks (v : list Disk) (g : t) : t :=
  mk (numDisks g) (moves g) (timer g) (timerInterval g) (solutionInterval g) (draggingDisk g) (towers g) v (isGameOver g) (gameMode g) (timeLimit g) (bestScore g) (currentTower g) (log g).
Definition set_isGameOver (v : bool) (g : t) : t :=
  mk (numDisks g) (moves g) (timer g) (timerInterval g) (solutionInterval g) (draggingDisk g) (towers g) (disks g) v (gameMode g) (timeLimit g) (bestScore g) (currentTower g) (log g).
Definition set_gameMode (v : GameMode) (g : t) : t :=
  mk (numDisks g) (moves g) (timer g) (timerInterval g) (solutionInterval g) (draggingDisk g) (towers g) (disks g) (isGameOver g) v (timeLimit g) (bestScore g) (currentTower g) (log g).
Definition set_timeLimit (v : Z) (g : t) : t :=
  mk (numDisks g) (moves g) (timer g) (timerInterval g) (solutionInterval g) (draggingDisk g) (towers g) (disks g) (isGameOver g) (gameMode g) v (bestScore g) (currentTower g) (log g).
Definition set_bestScore (v : option Score) (g : t) : t :=
  mk (numDisks g) (moves g) (timer g) (timerInterval g) (solutionInterval g) (draggingDisk g) (towers g) (disks g) (isGameOver g) (gameMode g) (timeLimit g) v (currentTower g) (log g).
Definition set_currentTower (v : gmap nat nat) (g : t) : t :=
  mk (numDisks g) (moves g) (timer g) (timerInterval g) (solutionInterval g) (draggingDisk g) (towers g) (disks g) (isGameOver g) (gameMode g) (timeLimit g) (bestScore g) v (log g).
Definition emit (e : Effect) (g : t) : t :=
  mk (numDisks g) (moves g) (timer g) (timerInterval g) (solutionInterval g) (draggingDisk g) (towers g) (disks g) (isGameOver g) (gameMode g) (timeLimit g) (bestScore g) (currentTower g) (log g ++ [e]).

(** [createTowers()] *)
Definition createTowers (g : t) : t :=
  set_towers (towers g ++ [Tower.new 0; Tower.new 1; Tower.new 2]) g.

(** [constructor(container)], before [init()]; [bestScore] is what
    [loadBestScore()] found in the local storage. *)
Definition new (bestScore : option Score) : t :=
  mk 4 0 0 None None None [] [] false normal 0 bestScore ∅ [].

(** [updateUI()] *)
Definition updateUI (g : t) : t := emit (UpdateUI (moves g) (timer g)) g.

(** [tower.addDisk(disk)] for [tower = this.towers[ti]]: fly the disk to
    the top of the tower, [disk.setTower(tower)], [tower.disks.push(disk)]. *)
Definition towerAddDisk (ti : nat) (disk : Disk) (g : t) : Result t :=
  tw ← deref (towers g !! ti);
  Ok (set_towers (<[ti := Tower.addDisk tw disk]> (towers g))
        (set_currentTower (<[index disk := ti]> (currentTower g))
           (emit (AnimateDisk disk ti (length (Tower.disks tw))) g))).

(** [tower.removeDisk()] for [tower = this.towers[ti]]: pop the top disk
    and [disk.setTower(null)]. *)
Definition towerRemoveDisk (ti : nat) (g : t) : Result (option Disk * t) :=
  tw ← deref (towers g !! ti);
  match Tower.removeDisk tw with
  | (Some disk, tw') =>
      Ok (Some disk,
          set_towers (<[ti := tw']> (towers g))
            (set_currentTower (delete (index disk) (currentTower g)) g))
  | (None, _) => Ok (None, g)
  end.

(** [saveBestScore()] *)
Definition saveBestScore (g : t) : t :=
  match gameMode g with
  | normal =>
      let currentScore := mkScore (numDisks g) (moves g) (timer g) in
      match bestScore g with
      | None => set_bestScore (Some currentScore) g
      | Some best =>
          if (scoreDisks best <? numDisks g)
             || ((scoreDisks best =? numDisks g)
                 && ((moves g <? scoreMoves best)%nat
                     || ((scoreMoves best =? moves g)%nat
                         && (timer g <? scoreTime best))))
          then set_bestScore (Some currentScore) g
          else g
      end
  | _ => g
  end.

(** [gameOver(victory)] *)
Definition gameOver (victory : bool) (g : t) : t :=
  let g := set_timerInterval None (set_isGameOver true g) in
  if victory then
    saveBestScore (emit PlayVictorySound (emit (ShowStatus (MsgVictory (moves g))) g))
  else emit (ShowStatus MsgTimeUp) g.

(** [checkWinCondition()] *)
Definition checkWinCondition (g : t) : Result t :=
  goal ← deref (towers g !! 2%nat);
  if Tower.isComplete goal (numDisks g) then Ok (gameOver true g) else Ok g.

(** [startTimer()] and its interval callback. *)
Definition startTimer (g : t) : t := set_timerInterval (Some Elapsed) g.

Definition timerTick (g : t) : t := updateUI (set_timer (timer g + 1) g).

(** [startCountdown()] and its interval callback. *)
Definition startCountdown (g : t) : t := set_timerInterval (Some Countdown) g.

Definition countdownTick (g : t) : t :=
  let g := updateUI (set_timer (timer g - 1) g) in
  let g := if (timer g <=? 10) && (0 <? timer g) then emit PlayTick g else g in
  if timer g <=? 0 then gameOver false (set_timerInterval None (set_timer 0 g))
  else g.

(** The callback of whichever interval [this.timerInterval] holds. *)
Definition tick (g : t) : t :=
  match timerInterval g with
  | Some Elapsed => timerTick g
  | Some Countdown => countdownTick g
  | None => g
  end.

(** [clearDisks()] *)
Definition clearDisks (g : t) : t :=
  set_draggingDisk None
    (set_disks []
       (set_towers (map (fun tw => Tower.mk (Tower.id tw) []) (towers g)) g)).

(** [setupGameMode()].  [rearrangeTowers] (mode desafio) permutes the
    towers' positions in space and nothing else. *)
Definition setupGameMode (g : t) : t :=
  match gameMode g with
  | contrarreloj =>
      let g := set_timeLimit (numDisks g * 20) g in
      startCountdown (set_timer (timeLimit g) g)
  | desafio => g
  | puzzle => g
  | normal => g
  end.

(** [availableDisks.sort((a, b) => b.size - a.size)]: the sort is stable. *)
Fixpoint insertBySize (d : Disk) (l : list Disk) : list Disk :=
  match l with
  | [] => [d]
  | x :: l' => if size d <? size x then x :: insertBySize d l' else d :: x :: l'
  end.

Definition sortBySizeDesc (l : list Disk) : list Disk := foldr insertBySize [] l.

(** [Math.floor(u * n)] *)
Definition randomIndex (u : Q) (n : Z) : Z := Qfloor (u * inject_Z n).

(** The [while] loop of [createPuzzleConfiguration], run for at most
    [fuel] iterations; [k] counts the calls of [Math.random] so far.  In
    the filter, [tower.getTopDisk()] is only evaluated for a tower that
    is not empty. *)
Fixpoint puzzleLoop (fuel : nat) (rnd : nat -> Q) (k : nat)
    (availableDisks : list Disk) (g : t) : Result t :=
  if (length availableDisks =? 0)%nat then Ok g
  else
    match fuel with
    | O => StillRunning
    | S fuel' =>
        let towerIndex := randomIndex (rnd k) 3 in
        tower ← deref (nthZ (towers g) towerIndex);
        let validDisks :=
          List.filter
            (fun disk =>
               (length (Tower.disks tower) =? 0)%nat
               || match Tower.getTopDisk tower with
                  | Some topDisk => size disk <? size topDisk
                  | None => false
                  end)
            availableDisks in
        if (0 <? length validDisks)%nat then
          let diskIndex :=
            randomIndex (rnd (S k)) (Z.of_nat (length validDisks)) in
          selectedDisk ← deref (nthZ validDisks diskIndex);
          let availableDisks' :=
            List.filter (fun disk => negb (Disk_eqb disk selectedDisk))
              availableDisks in
          g' ← towerAddDisk (Z.to_nat towerIndex) selectedDisk g;
          puzzleLoop fuel' rnd (S (S k)) availableDisks' g'
        else puzzleLoop fuel' rnd (S k) availableDisks g
    end.

(** [createPuzzleConfiguration()] *)
Definition createPuzzleConfiguration (fuel : nat) (rnd : nat -> Q) (g : t)
    : Result t :=
  puzzleLoop fuel rnd 0 (sortBySizeDesc (disks g)) g.

(** [new Disk(size, ...)] pushed on [this.disks]; a new disk has no tower. *)
Definition newDisk (g : t) (i : nat) : t :=
  let disk := mkDisk (numDisks g - Z.of_nat i) i in
  set_disks (disks g ++ [disk])
    (set_currentTower (delete i (currentTower g)) g).

(** The second [for] loop of [createDisks]:
    [this.towers[0].addDisk(disk)] for each [disk] of [l] in turn. *)
Definition stackOnFirst (l : list Disk) (r : Result t) : Result t :=
  foldl (fun (r : Result t) disk => g' ← r; towerAddDisk 0 disk g') r l.

(** [createDisks()] *)
Definition createDisks (fuel : nat) (rnd : nat -> Q) (g : t) : Result t :=
  let g := foldl newDisk g (seq 0 (Z.to_nat (numDisks g))) in
  match gameMode g with
  | puzzle => createPuzzleConfiguration fuel rnd g
  | _ => stackOnFirst (disks g) (Ok g)
  end.

(** [resetGame()] *)
Definition resetGame (fuel : nat) (rnd : nat -> Q) (g : t) : Result t :=
  let g := updateUI (set_isGameOver false (set_timer 0 (set_moves 0 g))) in
  let g := set_timerInterval None g in
  let g := clearDisks g in
  let g := setupGameMode g in
  g ← createDisks fuel rnd g;
  Ok (emit (ShowStatus MsgMoveDisks) g).

(** The [change] listeners of the difficulty and game-mode selectors. *)
Definition onDifficultyChange (n : Z) (fuel : nat) (rnd : nat -> Q) (g : t)
    : Result t :=
  resetGame fuel rnd (set_numDisks n g).

Definition onGameModeChange (m : GameMode) (fuel : nat) (rnd : nat -> Q) (g : t)
    : Result t :=
  resetGame fuel rnd (set_gameMode m g).

(** [trySelectDisk()].  The ray cast is the caller's: [hit] is the tower
    whose top disk the ray meets first, if it meets any of the top disks
    (only those are offered to the ray caster). *)
Definition trySelectDisk (hit : option nat) (g : t) : t :=
  match draggingDisk g with
  | Some _ => g
  | None =>
      let g :=
        match timerInterval g, gameMode g with
        | Some _, _ => g
        | None, contrarreloj => g
        | None, _ => startTimer g
        end in
      match hit with
      | Some ti =>
          match towers g !! ti ≫= Tower.getTopDisk with
          | Some disk => set_draggingDisk (Some disk) g
          | None => g
          end
      | None => g
      end
  end.

Definition Qltb (a b : Q) : bool := negb (Qle_bool b a).

(** The [forEach] of [findClosestTower] over the towers with indices
    [l]: the values of [closestTower] and [minDistance] afterwards.
    [dist i] is [position.distanceTo(this.towers[i].position)], and
    [None] stands for the initial [Infinity] of [minDistance]. *)
Definition closestScan (dist : nat -> Q) (l : list nat) : option nat * option Q :=
  foldl
    (fun (acc : option nat * option Q) (i : nat) =>
       let distance := dist i in
       match snd acc with
       | None => (Some i, Some distance)
       | Some m => if Qltb distance m then (Some i, Some distance) else acc
       end)
    (None, None) l.

(** [findClosestTower(position)] *)
Definition findClosestTower (dist : nat -> Q) (g : t) : option nat :=
  let '(closestTower, minDistance) :=
    closestScan dist (seq 0 (length (towers g))) in
  match minDistance with
  | Some m => if Qltb m 8 then closestTower else None
  | None => None
  end.

(** [dropDisk()]; [dist] gives the distances from where the dragged disk
    is released to the towers. *)
Definition dropDisk (dist : nat -> Q) (g : t) : Result t :=
  match draggingDisk g with
  | None => Ok g
  | Some disk =>
      g' ←
        match findClosestTower dist g with
        | Some ci =>
            closestTower ← deref (towers g !! ci);
            if negb (bool_decide (currentTower g !! index disk = Some ci))
               && Tower.canAddDisk closestTower disk
            then
              sourceTower ← deref (currentTower g !! index disk);
              r ← towerRemoveDisk sourceTower g;
              g1 ← towerAddDisk ci disk (snd r);
              let g2 := set_moves (S (moves g1)) g1 in
              checkWinCondition (emit PlayMoveSound (updateUI g2))
            else
              sourceTower ← deref (currentTower g !! index disk);
              Ok (emit PlayErrorSound (emit (ReturnDisk disk sourceTower) g))
        | None =>
            sourceTower ← deref (currentTower g !! index disk);
            Ok (emit (ReturnDisk disk sourceTower) g)
        end;
      Ok (set_draggingDisk None g')
  end.

(** [generateHanoiSolution(n, fromTower, toTower, auxTower, steps)]; the
    result is [steps] after the call.  [stack] is the depth the call
    stack still has room for: the recursion has no base case below 1. *)
Fixpoint generateHanoiSolution (stack : nat) (n : Z)
    (fromTower toTower auxTower : nat) (steps : list Move)
    : Result (list Move) :=
  match stack with
  | O => Throw RangeError
  | S stack' =>
      if n =? 1 then Ok (steps ++ [mkMove fromTower toTower])
      else
        steps ← generateHanoiSolution stack' (n - 1) fromTower auxTower toTower steps;
        generateHanoiSolution stack' (n - 1) auxTower toTower fromTower
          (steps ++ [mkMove fromTower toTower])
  end.

(** [executeAutoMove(fromTowerIndex, toTowerIndex)] *)
Definition executeAutoMove (fromTowerIndex toTowerIndex : nat) (g : t)
    : Result t :=
  fromTower ← deref (towers g !! fromTowerIndex);
  match Tower.getTopDisk fromTower with
  | Some disk =>
      toTower ← deref (towers g !! toTowerIndex);
      if Tower.canAddDisk toTower disk then
        r ← towerRemoveDisk fromTowerIndex g;
        g1 ← towerAddDisk toTowerIndex disk (snd r);
        let g2 := set_moves (S (moves g1)) g1 in
        Ok (emit PlayMoveSound (updateUI g2))
      else Ok g
  | None => Ok g
  end.

(** [resetForSolution()] *)
Definition resetForSolution (fuel : nat) (rnd : nat -> Q) (g : t) : Result t :=
  let g := set_timerInterval None g in
  let g := clearDisks g in
  let g := updateUI (set_isGameOver false (set_timer 0 (set_moves 0 g))) in
  createDisks fuel rnd g.

(** [showSolution()], up to the point where the interval is armed. *)
Definition showSolution (stack fuel : nat) (rnd : nat -> Q) (g : t) : Result t :=
  if isGameOver g then Ok g
  else
    let g := set_solutionInterval None g in
    g ← resetForSolution fuel rnd g;
    solutionSteps ← generateHanoiSolution stack (numDisks g) 0 2 1 [];
    let g := emit (ShowStatus (MsgShowingSolution (length solutionSteps))) g in
    Ok (set_solutionInterval (Some solutionSteps) g).

(** The callback of the interval armed by [showSolution]: one step per
    second; the steps from [stepIndex] on are those still in
    [solutionInterval]. *)
Definition solutionTick (g : t) : Result t :=
  match solutionInterval g with
  | None => Ok g
  | Some [] => Ok (emit (ShowStatus MsgSolutionDone) (set_solutionInterval None g))
  | Some (step :: rest) =>
      g ← executeAutoMove (fromTower step) (toTower step) g;
      Ok (set_solutionInterval (Some rest) g)
  end.

(** [n] firings of that interval in a row. *)
Fixpoint solutionTicks (n : nat) (g : t) : Result t :=
  match n with
  | O => Ok g
  | S n' => g' ← solutionTick g; solutionTicks n' g'
  end.

(** Applying a list of steps in order, as the interval does. *)
Definition playback (steps : list Move) (g : t) : Result t :=
  foldl (fun (r : Result t) step =>
           g' ← r; executeAutoMove (fromTower step) (toTower step) g')
    (Ok g) steps.

(** The pointer listeners: [onMouseDown]/[onTouchStart] and
    [onMouseUp]/[onTouchEnd]. *)
Definition onMouseDown (hit : option nat) (g : t) : t :=
  if isGameOver g then g else trySelectDisk hit g.

Definition onMouseUp (dist : nat -> Q) (g : t) : Result t :=
  if isGameOver g then Ok g else dropDisk dist g.

End Game.

(** ** Reachable games *)

(** One call of an entry point of the game that returns.  A call that
    throws leaves the game as it was, except [showSolution], which can
    throw after [resetForSolution] has run: hence the constructor for
    [resetForSolution] alone.  [dropDisk] and [executeAutoMove] are also
    taken with arbitrary arguments, not just those their callers pass. *)
Inductive step : Game.t -> Game.t -> Prop :=
| step_resetGame fuel rnd g g' :
    Game.resetGame fuel rnd g = Ok g' -> step g g'
| step_onDifficultyChange n fuel rnd g g' :
    Game.onDifficultyChange n fuel rnd g = Ok g' -> step g g'
| step_onGameModeChange m fuel rnd g g' :
    Game.onGameModeChange m fuel rnd g = Ok g' -> step g g'
| step_onMouseDown hit g :
    step g (Game.onMouseDown hit g)
| step_onMouseUp dist g g' :
    Game.onMouseUp dist g = Ok g' -> step g g'
| step_dropDisk dist g g' :
    Game.dropDisk dist g = Ok g' -> step g g'
| step_resetForSolution fuel rnd g g' :
    Game.resetForSolution fuel rnd g = Ok g' -> step g g'
| step_showSolution stack fuel rnd g g' :
    Game.showSolution stack fuel rnd g = Ok g' -> step g g'
| step_solutionTick g g' :
    Game.solutionTick g = Ok g' -> step g g'
| step_executeAutoMove i j g g' :
    Game.executeAutoMove i j g = Ok g' -> step g g'
| step_tick g :
    step g (Game.tick g).

Inductive reachable : Game.t -> Prop :=
| reachable_new bestScore :
    reachable (Game.createTowers (Game.new bestScore))
| reachable_step g g' :
    reachable g -> step g g' -> reachable g'.

(** Every tower of a list satisfies the tower invariant. *)
Definition allDescending (ts : list Tower.t) : Prop :=
  forall (i : nat) (tw : Tower.t),
    ts !! i = Some tw -> strictlyDescending (Tower.disks tw).

(** Every disk of [l] may go on the stack [base]. *)
Definition fitsOn (base l : list Disk) : Prop :=
  forall top x, last base = Some top -> x ∈ l -> size x < size top.

(** The canonical start: sizes [n, n-1, ..., 1] from the bottom up, the
    disk of size [n - i] being the [i]-th created. *)
Definition canonicalStack (n : Z) : list Disk :=
  map (fun i : nat => mkDisk (n - Z.of_nat i) i) (seq 0 (Z.to_nat n)).

(** All disks on tower 0, the other towers empty. *)
Definition canonicalLayout (n : Z) (g : Game.t) : Prop :=
  map Tower.disks (Game.towers g) = [canonicalStack n; []; []].

(** An oracle that returns the values of [l] first and goes on with
    [rest]. *)
Definition prefixed (l : list Q) (rest : nat -> Q) : nat -> Q :=
  fun k =>
    match l !! k with
    | Some u => u
    | None => rest (k - length l)%nat
    end.

(** The game after [createTowers], with a difficulty and a mode chosen. *)
Definition initialGame (n : Z) (m : GameMode) : Game.t :=
  Game.set_gameMode m (Game.set_numDisks n (Game.createTowers (Game.new None))).

(** The value a call returned, [d] if it did not return. *)
Definition returned {A : Type} (d : A) (r : Result A) : A :=
  match r with
  | Ok a => a
  | _ => d
  end.

(** A 3-disk game in mode normal right after its first [resetGame]. *)
Definition game3 : Game.t :=
  returned (initialGame 3 normal)
    (Game.resetGame 0 (fun _ => 0%Q) (initialGame 3 normal)).

(** Distances of a release right over tower [ti], far from the others. *)
Definition releasedOver (ti : nat) : nat -> Q :=
  fun i => if (i =? ti)%nat then 0%Q else 100%Q.

(** [game3] after its smallest disk was dragged from tower 0 to tower 2. *)
Definition game3_dragged : Game.t :=
  returned game3
    (Game.onMouseUp (releasedOver 2) (Game.onMouseDown (Some 0%nat) game3)).

(** ** More of [Game.js] *)

(** [highlightValidTowersForDragging()]: what [tower.highlight] is called
    with, tower by tower; [None] when no disk is dragged and the call
    returns at once. *)
Definition highlightValidTowersForDragging (g : Game.t) : option (list bool) :=
  match Game.draggingDisk g with
  | None => None
  | Some disk =>
      Some (imap
              (fun (i : nat) (tower : Tower.t) =>
                 negb (bool_decide (Game.currentTower g !! index disk = Some i))
                 && Tower.canAddDisk tower disk)
              (Game.towers g))
  end.

(** [THREE.Vector3], with the integer coordinates the game uses. *)
Record Vector3 : Set := mkVector3 { vx : Z; vy : Z; vz : Z }.

(** [[positions[i], positions[j]] = [positions[j], positions[i]]].
    [Math.random() < 1] keeps [j] within [0 .. i], so both elements
    exist; the last branch is not reached. *)
Definition swapPositions {A : Type} (positions : list A) (i : nat) (j : Z) : list A :=
  match positions !! i, nthZ positions j with
  | Some a, Some b => <[Z.to_nat j := a]> (<[i := b]> positions)
  | _, _ => positions
  end.

(** The shuffle of [rearrangeTowers]:
    [for (let i = positions.length - 1; i > 0; i--)], from [i] down, [k]
    counting the calls of [Math.random]. *)
Fixpoint shufflePositions {A : Type} (i : nat) (rnd : nat -> Q) (k : nat)
    (positions : list A) : list A :=
  match i with
  | O => positions
  | S i' =>
      let j := Game.randomIndex (rnd k) (Z.of_nat i + 1) in
      shufflePositions i' rnd (S k) (swapPositions positions i j)
  end.

(** [rearrangeTowers()]: the positions the towers are given, tower [i]
    the [i]-th of the list. *)
Definition rearrangeTowers (rnd : nat -> Q) : list Vector3 :=
  let positions :=
    [mkVector3 (-10) 0 0; mkVector3 0 0 0; mkVector3 10 0 0] in
  shufflePositions (length positions - 1) rnd 0 positions.

(** [n] firings of the interval behind [this.timerInterval]. *)
Definition ticks (n : nat) (g : Game.t) : Game.t := Nat.iter n Game.tick g.

(** The order of [saveBestScore]: [a] is at least as good as [b] when it
    has more disks, or as many and fewer moves, or as many of both and
    no more time. *)
Definition scoreNoWorse (a b : Score) : Prop :=
  scoreDisks b < scoreDisks a \/
  (scoreDisks a = scoreDisks b /\
   ((scoreMoves a < scoreMoves b)%nat \/
    (scoreMoves a = scoreMoves b /\ scoreTime a <= scoreTime b))).

(** Two games that differ at most in their towers, in where their disks
    are and in what was shown to the player. *)
Definition sameSettings (g g' : Game.t) : Prop :=
  Game.numDisks g' = Game.numDisks g /\
  Game.moves g' = Game.moves g /\
  Game.timer g' = Game.timer g /\
  Game.timerInterval g' = Game.timerInterval g /\
  Game.solutionInterval g' = Game.solutionInterval g /\
  Game.draggingDisk g' = Game.draggingDisk g /\
  Game.disks g' = Game.disks g /\
  Game.isGameOver g' = Game.isGameOver g /\
  Game.gameMode g' = Game.gameMode g /\
  Game.timeLimit g' = Game.timeLimit g /\
  Game.bestScore g' = Game.bestScore g.

(** All the disks that lie on the towers, tower after tower. *)
Definition disksOnTowers (g : Game.t) : list Disk :=
  concat (map Tower.disks (Game.towers g)).

(** Every disk in play has a size within [1 .. numDisks]. *)
Definition sizesInRange (g : Game.t) : Prop :=
  (forall d, d ∈ disksOnTowers g -> 1 <= size d <= Game.numDisks g) /\
  (forall d, Game.draggingDisk g = Some d -> 1 <= size d <= Game.numDisks g).

(** ** utils.js: [formatTime]

    The timer and the times of the best score are integers, so the
    argument is an integer: [Math.floor (seconds / 60)] is the floored
    quotient and [%] the remainder with the sign of the dividend, both
    exact for the integers below 2^53.  [toString] is the decimal
    printing of an integer, [padStart] pads on the left up to the target
    length. *)

Module Utils.
Import Ascii String.

Definition toString (n : Z) : string :=
  DecimalString.NilZero.string_of_int (Z.to_int n).

Fixpoint fillString (n : nat) (fill : ascii) : string :=
  match n with
  | O => EmptyString
  | S n' => String fill (fillString n' fill)
  end.

Definition padStart (targetLength : nat) (fill : ascii)
    (s : string) : string :=
  append (fillString (targetLength - String.length s) fill) s.

Definition formatTime (seconds : Z) : string :=
  let minutes := seconds / 60 in
  let remainingSeconds := Z.rem seconds 60 in
  append (padStart 2 "0" (toString minutes))
    (String ":" (padStart 2 "0" (toString remainingSeconds))).

(** Reading a displayed time back: the text before the first colon and
    the text after it as decimal numbers, in seconds. *)
Fixpoint splitAtColon (s : string)
    : option (string * string) :=
  match s with
  | EmptyString => None
  | String c rest =>
      if Ascii.eqb c ":" then Some (EmptyString, rest)
      else match splitAtColon rest with
           | Some (a, b) => Some (String c a, b)
           | None => None
           end
  end.

Definition readNumber (s : string) : option Z :=
  option_map Z.of_int (DecimalString.NilZero.int_of_string s).

Definition readTime (s : string) : option Z :=
  match splitAtColon s with
  | Some (a, b) =>
      match readNumber a, readNumber b with
      | Some m, Some r => Some (m * 60 + r)
      | _, _ => None
      end
  | None => None
  end.

End Utils.

(** ** A solution played while the player drags *)

(** [game3] once the solution button was pressed. *)
Definition game3_solving : Game.t :=
  returned game3 (Game.showSolution 3 0 (fun _ => 0%Q) game3).

(** One firing of the solution interval, a pick on tower [ti] and a
    release with distances [dist], each taken as returning. *)
Definition played (g : Game.t) : Game.t := returned g (Game.solutionTick g).

Definition picked (ti : nat) (g : Game.t) : Game.t :=
  Game.onMouseDown (Some ti) g.

Definition released (dist : nat -> Q) (g : Game.t) : Game.t :=
  returned g (Game.onMouseUp dist g).


(** Ten events after the solution button: two steps played; disk 2
    picked on tower 1, a step played, the disk released over tower 0;
    a step played; disk 3 picked on tower 0, a step played, the disk
    released over tower 1; disk 2 picked on tower 2. *)
Definition game3_disk_without_tower : Game.t :=
  picked 2
    (released (releasedOver 1)
       (played
          (picked 0
             (played
                (released (releasedOver 0)
                   (played (picked 1 (played (played game3_solving))))))))).

(** * Properties *)

(** ** Towers *)

Lemma getTopDisk_last (tw : Tower.t) :
  Tower.getTopDisk tw = last (Tower.disks tw).
Proof.
  unfold Tower.getTopDisk. rewrite last_lookup.
  destruct (Tower.disks tw) as [|d ds]; simpl; [reflexivity|].
  f_equal. lia.
Qed.

Lemma getTopDisk_snoc (i : nat) (ds : list Disk) (d : Disk) :
  Tower.getTopDisk (Tower.mk i (ds ++ [d])) = Some d.
Proof. rewrite getTopDisk_last. simpl. apply last_snoc. Qed.

Lemma canAddDisk_spec (tw : Tower.t) (d : Disk) :
  Tower.canAddDisk tw d = true <->
  match last (Tower.disks tw) with
  | Some top => size d < size top
  | None => True
  end.
Proof.
  unfold Tower.canAddDisk. rewrite getTopDisk_last.
  destruct (Tower.disks tw) as [|x ds] eqn:E; simpl; [tauto|].
  destruct (last (x :: ds)) as [top|] eqn:L.
  - apply Z.ltb_lt.
  - apply last_None in L. discriminate.
Qed.

Lemma strictlyDescending_nil : strictlyDescending [].
Proof. intros i a b H. rewrite lookup_nil in H. discriminate. Qed.

Lemma strictlyDescendingb_spec (ds : list Disk) :
  strictlyDescendingb ds = true <-> strictlyDescending ds.
Proof.
  induction ds as [|a [|b ds] IH].
  - split; [intros _; apply strictlyDescending_nil | reflexivity].
  - split; [|reflexivity]. intros _ i x y Hx Hy.
    destruct i; discriminate.
  - change (strictlyDescendingb (a :: b :: ds))
      with ((size b <? size a) && strictlyDescendingb (b :: ds)).
    rewrite andb_true_iff, IH, Z.ltb_lt. split.
    + intros [Hab Hds] [|i] x y Hx Hy.
      * simpl in Hx, Hy. injection Hx as <-. injection Hy as <-. lia.
      * exact (Hds i x y Hx Hy).
    + intros H. split.
      * specialize (H 0%nat a b eq_refl eq_refl). lia.
      * intros i x y Hx Hy. exact (H (S i) x y Hx Hy).
Qed.

Lemma strictlyDescending_snoc (ds : list Disk) (d : Disk) :
  strictlyDescending ds ->
  match last ds with Some top => size d < size top | None => True end ->
  strictlyDescending (ds ++ [d]).
Proof.
  intros Hds Htop i a b Ha Hb.
  destruct (decide (S i < length ds)%nat) as [Hlt|Hge].
  - rewrite lookup_app_l in Ha by lia. rewrite lookup_app_l in Hb by lia.
    eauto.
  - assert (Hi : S i = length ds).
    { apply lookup_lt_Some in Hb. rewrite length_app in Hb. simpl in Hb. lia. }
    rewrite lookup_app_l in Ha by lia.
    rewrite lookup_app_r in Hb by lia.
    rewrite Hi, Nat.sub_diag in Hb. simpl in Hb. injection Hb as <-.
    rewrite last_lookup in Htop.
    replace (pred (length ds)) with i in Htop by lia.
    rewrite Ha in Htop. lia.
Qed.

Lemma lookup_removelast (ds : list Disk) (i : nat) (a : Disk) :
  removelast ds !! i = Some a -> ds !! i = Some a.
Proof.
  destruct (decide (ds = [])) as [->|Hne]; [auto|].
  destruct (exists_last Hne) as (ds' & x & ->).
  rewrite removelast_last. intros H.
  rewrite lookup_app_l; [assumption|]. eapply lookup_lt_Some; eauto.
Qed.

Lemma strictlyDescending_removelast (ds : list Disk) :
  strictlyDescending ds -> strictlyDescending (removelast ds).
Proof.
  intros Hds i a b Ha Hb.
  apply lookup_removelast in Ha. apply lookup_removelast in Hb. eauto.
Qed.

(** *** [Tower.isComplete] *)

Lemma isComplete_exact (tw : Tower.t) (totalDisks : Z) :
  Tower.isComplete tw totalDisks = true <->
  Z.of_nat (length (Tower.disks tw)) = totalDisks /\
  forall (i : nat) (d : Disk),
    Tower.disks tw !! i = Some d -> size d = totalDisks - Z.of_nat i.
Proof.
  unfold Tower.isComplete.
  destruct (Z.eqb_spec (Z.of_nat (length (Tower.disks tw))) totalDisks)
    as [Hlen|Hlen]; simpl.
  - rewrite forallb_forall. split.
    + intros H. split; [assumption|]. intros i d Hd.
      assert (Hi : (i < Z.to_nat totalDisks)%nat).
      { apply lookup_lt_Some in Hd. lia. }
      specialize (H i). rewrite Hd in H. apply Z.eqb_eq, H.
      apply in_seq. lia.
    + intros [_ H] i Hi. apply in_seq in Hi.
      destruct (Tower.disks tw !! i) as [d|] eqn:Hd.
      * apply Z.eqb_eq. eauto.
      * apply lookup_ge_None in Hd. lia.
  - split; [discriminate|]. intros [H _]. contradiction.
Qed.

(** In a strictly descending stack the disk at index [i] is at least
    [i] smaller than the bottom disk. *)
Lemma strictlyDescending_upper (ds : list Disk) (i : nat) (a b : Disk) :
  strictlyDescending ds ->
  ds !! 0%nat = Some a -> ds !! i = Some b -> size b <= size a - Z.of_nat i.
Proof.
  intros Hds Ha. revert b. induction i as [|i IH]; intros b Hb.
  - rewrite Ha in Hb. injection Hb as <-. lia.
  - destruct (ds !! i) as [c|] eqn:Hc.
    + specialize (IH c eq_refl). specialize (Hds i c b Hc Hb). lia.
    + apply lookup_ge_None in Hc. apply lookup_lt_Some in Hb. lia.
Qed.

(** ... and at least [length ds - 1 - i] larger than the top disk. *)
Lemma strictlyDescending_lower (ds : list Disk) (i : nat) (b : Disk) :
  strictlyDescending ds ->
  (forall d, d ∈ ds -> 1 <= size d) ->
  ds !! i = Some b -> Z.of_nat (length ds) - Z.of_nat i <= size b.
Proof.
  revert i b. induction ds as [|x ds IH]; intros i b Hds Hpos Hb.
  - rewrite lookup_nil in Hb. discriminate.
  - assert (Hds' : strictlyDescending ds).
    { intros j a c Ha Hc. exact (Hds (S j) a c Ha Hc). }
    assert (Hpos' : forall d, d ∈ ds -> 1 <= size d).
    { intros d Hd. apply Hpos. now apply list_elem_of_further. }
    destruct i as [|i]; simpl in *.
    + injection Hb as <-.
      destruct ds as [|y ds].
      * specialize (Hpos x (list_elem_of_here _ _)). simpl. lia.
      * specialize (IH 0%nat y Hds' Hpos' eq_refl).
        specialize (Hds 0%nat x y eq_refl eq_refl).
        simpl length in *. lia.
    + specialize (IH i b Hds' Hpos' Hb). lia.
Qed.

(** C8, as the code has it: a tower whose disks have sizes within
    [1 .. expectedCount] is complete exactly when it holds
    [expectedCount] disks in strictly descending order. *)
Theorem isComplete_iff_full_descending (tw : Tower.t) (expectedCount : Z) :
  (forall d, d ∈ Tower.disks tw -> 1 <= size d <= expectedCount) ->
  Tower.isComplete tw expectedCount = true <->
  Z.of_nat (length (Tower.disks tw)) = expectedCount /\
  strictlyDescending (Tower.disks tw).
Proof.
  intros Hrange. rewrite isComplete_exact. split.
  - intros [Hlen Hsz]. split; [assumption|].
    intros i a b Ha Hb. apply Hsz in Ha. apply Hsz in Hb. lia.
  - intros [Hlen Hds]. split; [assumption|]. intros i d Hd.
    assert (Hlow : Z.of_nat (length (Tower.disks tw)) - Z.of_nat i <= size d).
    { eapply strictlyDescending_lower; eauto.
      intros x Hx. apply Hrange in Hx. lia. }
    destruct (Tower.disks tw !! 0%nat) as [a|] eqn:Ha.
    + pose proof (strictlyDescending_upper _ _ _ _ Hds Ha Hd) as Hup.
      assert (size a <= expectedCount).
      { apply Hrange. eapply list_elem_of_lookup_2; eauto. }
      lia.
    + apply lookup_ge_None in Ha. apply lookup_lt_Some in Hd. lia.
Qed.

(** The three disks of a 3-disk game on one tower are complete. *)
Lemma isComplete_iff_full_descending_witness :
  Tower.isComplete (Tower.mk 2 (canonicalStack 3)) 3 = true <->
  Z.of_nat (length (canonicalStack 3)) = 3 /\
  strictlyDescending (canonicalStack 3).
Proof.
  apply (isComplete_iff_full_descending (Tower.mk 2 (canonicalStack 3)) 3).
  intros d Hd. simpl in Hd. unfold canonicalStack in Hd. simpl in Hd.
  repeat (apply elem_of_cons in Hd; destruct Hd as [->|Hd]; [simpl; lia|]).
  apply elem_of_nil in Hd. contradiction.
Defined.

(** C8 as stated fails: three disks of sizes 5, 3, 1 are strictly
    descending, yet [isComplete(3)] is false. *)
Lemma isComplete_not_iff_descending :
  let tw := Tower.mk 2 [mkDisk 5 0; mkDisk 3 1; mkDisk 1 2] in
  ~ (Tower.isComplete tw 3 = true <->
     Z.of_nat (length (Tower.disks tw)) = 3 /\
     strictlyDescending (Tower.disks tw)).
Proof.
  intros tw [_ H].
  assert (Hc : Tower.isComplete tw 3 = true).
  { apply H. split; [reflexivity|].
    intros i a b Ha Hb.
    destruct i as [|[|[|i]]]; simpl in Ha, Hb;
      try discriminate; injection Ha as <-; injection Hb as <-; simpl; lia. }
  vm_compute in Hc. discriminate.
Qed.

(** *** [Tower.addDisk] *)

(** C7, as the code has it: [addDisk] compares no sizes and cannot fail.
    Whatever the sizes, the call returns, the disk becomes the top of the
    tower above the disks already there, the disk's [currentTower] is
    that tower, and the other towers and the move counter are as
    before. *)
Theorem addDisk_always_appends (g : Game.t) (ti : nat) (tw : Tower.t) (disk : Disk) :
  Game.towers g !! ti = Some tw ->
  exists g',
    Game.towerAddDisk ti disk g = Ok g' /\
    Game.towers g' !! ti = Some (Tower.addDisk tw disk) /\
    Tower.disks (Tower.addDisk tw disk) = Tower.disks tw ++ [disk] /\
    Tower.getTopDisk (Tower.addDisk tw disk) = Some disk /\
    Game.currentTower g' !! index disk = Some ti /\
    (forall j, j <> ti -> Game.towers g' !! j = Game.towers g !! j) /\
    Game.moves g' = Game.moves g.
Proof.
  intros Htw. unfold Game.towerAddDisk. rewrite Htw. simpl.
  eexists. split; [reflexivity|]. simpl.
  repeat split.
  - apply list_lookup_insert_eq. eapply lookup_lt_Some; eauto.
  - apply getTopDisk_snoc.
  - apply lookup_insert_eq.
  - intros j Hj. apply list_lookup_insert_ne. congruence.
Qed.

(** A disk of size 3 put on a tower whose top disk has size 1. *)
Lemma addDisk_always_appends_witness :
  exists g',
    Game.towerAddDisk 0 (mkDisk 3 0)
      (Game.set_towers [Tower.mk 0 [mkDisk 1 2]] (Game.new None)) = Ok g' /\
    Game.towers g' !! 0%nat = Some (Tower.addDisk (Tower.mk 0 [mkDisk 1 2]) (mkDisk 3 0)) /\
    Tower.disks (Tower.addDisk (Tower.mk 0 [mkDisk 1 2]) (mkDisk 3 0))
      = [mkDisk 1 2] ++ [mkDisk 3 0] /\
    Tower.getTopDisk (Tower.addDisk (Tower.mk 0 [mkDisk 1 2]) (mkDisk 3 0))
      = Some (mkDisk 3 0) /\
    Game.currentTower g' !! 0%nat = Some 0%nat /\
    (forall j, j <> 0%nat ->
       Game.towers g' !! j
       = Game.towers (Game.set_towers [Tower.mk 0 [mkDisk 1 2]] (Game.new None)) !! j) /\
    Game.moves g'
      = Game.moves (Game.set_towers [Tower.mk 0 [mkDisk 1 2]] (Game.new None)).
Proof.
  apply (addDisk_always_appends
           (Game.set_towers [Tower.mk 0 [mkDisk 1 2]] (Game.new None))
           0 (Tower.mk 0 [mkDisk 1 2]) (mkDisk 3 0)).
  reflexivity.
Defined.

(** C7 as stated fails: the tower is not empty and the pushed disk is
    larger than its top disk, yet [addDisk] returns and the larger disk
    lies on the smaller one. *)
Lemma addDisk_accepts_larger_disk :
  let tw := Tower.mk 0 [mkDisk 1 2] in
  let g := Game.set_towers [tw] (Game.new None) in
  Tower.getTopDisk tw = Some (mkDisk 1 2) /\
  size (mkDisk 3 0) >= size (mkDisk 1 2) /\
  exists g',
    Game.towerAddDisk 0 (mkDisk 3 0) g = Ok g' /\
    map sizes (map Tower.disks (Game.towers g')) = [[1; 3]].
Proof.
  simpl. split; [reflexivity|]. split; [simpl; lia|].
  eexists. split; reflexivity.
Qed.

(** ** The solution generator *)

Lemma generateHanoiSolution_appends (stack : nat) :
  forall (n : Z) (a b c : nat) (steps : list Move),
    1 <= n -> n <= Z.of_nat stack ->
    exists sol,
      Game.generateHanoiSolution stack n a b c steps = Ok (steps ++ sol) /\
      Z.of_nat (length sol) = 2 ^ n - 1.
Proof.
  induction stack as [|stack IH]; intros n a b c steps Hn Hstack; [lia|].
  simpl. destruct (Z.eqb_spec n 1) as [->|Hne].
  - exists [mkMove a b]. split; reflexivity.
  - destruct (IH (n - 1) a c b steps) as (s1 & E1 & L1); [lia..|].
    rewrite E1. simpl.
    destruct (IH (n - 1) c b a ((steps ++ s1) ++ [mkMove a b]))
      as (s2 & E2 & L2); [lia..|].
    rewrite E2. exists (s1 ++ [mkMove a b] ++ s2). split.
    + f_equal. now rewrite <- !app_assoc.
    + rewrite !length_app. simpl length.
      assert (Hpow : 2 ^ n = 2 * 2 ^ (n - 1)).
      { rewrite <- Z.pow_succ_r by lia. f_equal. lia. }
      lia.
Qed.

(** C2: for [n] from 1 to 7 and distinct towers, [generateHanoiSolution]
    called with an empty [steps] (and room on the stack for [n] nested
    calls) returns with exactly [2^n - 1] moves in [steps], which is
    [calculateMinMoves(n)]. *)
Theorem generateHanoiSolution_count (n : Z) (a b c stack : nat) :
  1 <= n <= 7 -> a <> b -> a <> c -> b <> c -> n <= Z.of_nat stack ->
  exists steps,
    Game.generateHanoiSolution stack n a b c [] = Ok steps /\
    Z.of_nat (length steps) = 2 ^ n - 1 /\
    Z.of_nat (length steps) = calculateMinMoves n.
Proof.
  intros [Hn _] _ _ _ Hstack.
  destruct (generateHanoiSolution_appends stack n a b c [] Hn Hstack)
    as (sol & E & L).
  exists sol. unfold calculateMinMoves. auto.
Qed.

(** Five disks from tower 0 to tower 2: 31 moves. *)
Lemma generateHanoiSolution_count_witness :
  exists steps,
    Game.generateHanoiSolution 5 5 0 2 1 [] = Ok steps /\
    Z.of_nat (length steps) = 2 ^ 5 - 1 /\
    Z.of_nat (length steps) = calculateMinMoves 5.
Proof.
  apply (generateHanoiSolution_count 5 0 2 1 5); lia.
Defined.

(** ** [executeAutoMove] *)

Lemma getTopDisk_Some_inv (tw : Tower.t) (d : Disk) :
  Tower.getTopDisk tw = Some d ->
  Tower.disks tw = removelast (Tower.disks tw) ++ [d] /\
  Tower.removeDisk tw
  = (Some d, Tower.mk (Tower.id tw) (removelast (Tower.disks tw))).
Proof.
  intros H. pose proof H as Hl. rewrite getTopDisk_last in Hl.
  unfold Tower.removeDisk.
  destruct (Tower.disks tw) as [|x ds] eqn:E; [discriminate|].
  rewrite <- E in *. split.
  - assert (Hne : Tower.disks tw <> []) by (rewrite E; discriminate).
    destruct (exists_last Hne) as (ds' & y & Hy).
    rewrite Hy in *. rewrite last_snoc in Hl. injection Hl as ->.
    now rewrite removelast_last.
  - rewrite E at 1. simpl. now rewrite Hl.
Qed.

Lemma canAddDisk_own_top (tw : Tower.t) (d : Disk) :
  Tower.getTopDisk tw = Some d -> Tower.canAddDisk tw d = false.
Proof.
  intros H. destruct (Tower.canAddDisk tw d) eqn:C; [|reflexivity].
  apply canAddDisk_spec in C. rewrite <- getTopDisk_last, H in C. lia.
Qed.

(** A move the guard of [executeAutoMove] turns down changes nothing. *)
Lemma executeAutoMove_rejected (g : Game.t) (i j : nat) (tf tt : Tower.t) :
  Game.towers g !! i = Some tf ->
  Game.towers g !! j = Some tt ->
  Tower.getTopDisk tf = None \/
  (exists d, Tower.getTopDisk tf = Some d /\ Tower.canAddDisk tt d = false) ->
  Game.executeAutoMove i j g = Ok g.
Proof.
  intros Hf Ht H. unfold Game.executeAutoMove. rewrite Hf. simpl.
  destruct H as [->|(d & -> & Hc)]; [reflexivity|].
  rewrite Ht. simpl. now rewrite Hc.
Qed.

(** A move it lets through: what the game is afterwards. *)
Lemma executeAutoMove_accepted (g : Game.t) (i j : nat) (tf tt : Tower.t) (d : Disk) :
  Game.towers g !! i = Some tf ->
  Game.towers g !! j = Some tt ->
  Tower.getTopDisk tf = Some d ->
  Tower.canAddDisk tt d = true ->
  i <> j /\
  exists g',
    Game.executeAutoMove i j g = Ok g' /\
    Game.towers g'
    = <[j := Tower.addDisk tt d]>
        (<[i := Tower.mk (Tower.id tf) (removelast (Tower.disks tf))]>
           (Game.towers g)) /\
    Game.moves g' = S (Game.moves g) /\
    Game.currentTower g'
    = <[index d := j]> (delete (index d) (Game.currentTower g)) /\
    Game.log g'
    = Game.log g ++ [AnimateDisk d j (length (Tower.disks tt));
                     UpdateUI (S (Game.moves g)) (Game.timer g);
                     PlayMoveSound].
Proof.
  intros Hf Ht Htop Hc.
  assert (Hij : i <> j).
  { intros ->. rewrite Hf in Ht. injection Ht as ->.
    rewrite (canAddDisk_own_top _ _ Htop) in Hc. discriminate. }
  split; [assumption|].
  destruct (getTopDisk_Some_inv _ _ Htop) as [_ Hrm].
  unfold Game.executeAutoMove. rewrite Hf. simpl. rewrite Htop, Ht. simpl.
  rewrite Hc. unfold Game.towerRemoveDisk. rewrite Hf. simpl. rewrite Hrm.
  simpl. unfold Game.towerAddDisk. simpl.
  rewrite list_lookup_insert_ne by assumption. rewrite Ht. simpl.
  eexists. split; [reflexivity|]. simpl.
  repeat split. now rewrite <- !app_assoc.
Qed.

(** C10: [executeAutoMove(fromTowerIndex, toTowerIndex)] between two
    towers of the game either changes nothing at all (the source tower is
    empty, or the target cannot take the source's top disk: the game
    afterwards is the game before, move counter included), or it moves
    exactly the top disk of the source onto the target, leaves every
    other tower alone and adds exactly 1 to the move counter. *)
Theorem executeAutoMove_atomic (g : Game.t) (i j : nat) (tf tt : Tower.t) :
  Game.towers g !! i = Some tf ->
  Game.towers g !! j = Some tt ->
  (Tower.getTopDisk tf = None \/
   (exists d, Tower.getTopDisk tf = Some d /\ Tower.canAddDisk tt d = false) ->
   Game.executeAutoMove i j g = Ok g) /\
  (forall d,
     Tower.getTopDisk tf = Some d -> Tower.canAddDisk tt d = true ->
     exists g',
       Game.executeAutoMove i j g = Ok g' /\
       Tower.disks tf = removelast (Tower.disks tf) ++ [d] /\
       Game.towers g' !! i
       = Some (Tower.mk (Tower.id tf) (removelast (Tower.disks tf))) /\
       Game.towers g' !! j
       = Some (Tower.mk (Tower.id tt) (Tower.disks tt ++ [d])) /\
       (forall k, k <> i -> k <> j -> Game.towers g' !! k = Game.towers g !! k) /\
       length (Game.towers g') = length (Game.towers g) /\
       Game.moves g' = S (Game.moves g)).
Proof.
  intros Hf Ht. split.
  - intros H. eapply executeAutoMove_rejected; eauto.
  - intros d Htop Hc.
    destruct (executeAutoMove_accepted g i j tf tt d Hf Ht Htop Hc)
      as (Hij & g' & E & Htw & Hm & _).
    exists g'. rewrite Htw.
    pose proof (lookup_lt_Some _ _ _ Hf) as Hi.
    pose proof (lookup_lt_Some _ _ _ Ht) as Hj.
    repeat split.
    + assumption.
    + exact (proj1 (getTopDisk_Some_inv _ _ Htop)).
    + rewrite list_lookup_insert_ne by congruence.
      now apply list_lookup_insert_eq.
    + apply list_lookup_insert_eq. now rewrite length_insert.
    + intros k Hki Hkj. now rewrite !list_lookup_insert_ne by congruence.
    + now rewrite !length_insert.
    + assumption.
Qed.

(** From the start of a 3-disk game: tower 0 to tower 2 is played,
    tower 1 (empty) to tower 2 is not. *)
Lemma executeAutoMove_atomic_witness :
  (exists g',
     Game.executeAutoMove 0 2 game3 = Ok g' /\
     map (fun tw => sizes (Tower.disks tw)) (Game.towers g') = [[3; 2]; []; [1]] /\
     Game.moves g' = S (Game.moves game3)) /\
  Game.executeAutoMove 1 2 game3 = Ok game3.
Proof.
  pose proof (executeAutoMove_atomic game3 0 2
                (Tower.mk 0 (canonicalStack 3)) (Tower.mk 2 [])
                eq_refl eq_refl) as [_ Hacc].
  pose proof (executeAutoMove_atomic game3 1 2
                (Tower.mk 1 []) (Tower.mk 2 [])
                eq_refl eq_refl) as [Hrej _].
  split.
  - destruct (Hacc (mkDisk 1 2) eq_refl eq_refl)
      as (g' & E & _ & H0 & H2 & Hk & Hlen & Hm).
    exists g'. split; [exact E|]. split; [|exact Hm].
    destruct (Game.towers g') as [|t0 [|t1 [|t2 [|t3 ts]]]];
      simpl in Hlen; try discriminate.
    specialize (Hk 1%nat ltac:(lia) ltac:(lia)).
    simpl in H0, H2, Hk.
    injection H0 as ->. injection H2 as ->. injection Hk as ->.
    reflexivity.
  - apply Hrej. left. reflexivity.
Defined.

(** ** Dropping a dragged disk *)

Lemma Qltb_lt (a b : Q) : Game.Qltb a b = true <-> (a < b)%Q.
Proof.
  unfold Game.Qltb. rewrite negb_true_iff, <- not_true_iff_false, Qle_bool_iff.
  split; [apply Qnot_le_lt | apply Qlt_not_le].
Qed.

Lemma closestScan_spec (dist : nat -> Q) (l : list nat) :
  match Game.closestScan dist l with
  | (Some c, Some m) =>
      c ∈ l /\ m = dist c /\ forall i, i ∈ l -> (dist c <= dist i)%Q
  | (None, None) => l = []
  | _ => False
  end.
Proof.
  induction l as [|x l IH] using rev_ind; [reflexivity|].
  unfold Game.closestScan in *. rewrite foldl_app. simpl.
  destruct (foldl _ _ l) as [[c|] [m|]]; simpl; try contradiction.
  - destruct IH as (Hc & -> & Hmin).
    destruct (Game.Qltb (dist x) (dist c)) eqn:E.
    + apply Qltb_lt in E. split; [set_solver|]. split; [reflexivity|].
      intros i Hi. apply elem_of_app in Hi as [Hi|Hi].
      * apply Qle_trans with (dist c); [now apply Qlt_le_weak | auto].
      * apply list_elem_of_singleton in Hi as ->. apply Qle_refl.
    + split; [set_solver|]. split; [reflexivity|].
      intros i Hi. apply elem_of_app in Hi as [Hi|Hi]; [auto|].
      apply list_elem_of_singleton in Hi as ->.
      destruct (Qlt_le_dec (dist x) (dist c)) as [Hlt|Hle]; [|assumption].
      apply Qltb_lt in Hlt. congruence.
  - split; [set_solver|]. split; [reflexivity|].
    intros i Hi. subst l. apply list_elem_of_singleton in Hi as ->.
    apply Qle_refl.
Qed.

(** [findClosestTower] returns a tower of the game that is nearer than 8
    and no farther than any other tower; it returns [null] only if no
    tower is nearer than 8. *)
Lemma findClosestTower_spec (dist : nat -> Q) (g : Game.t) :
  match Game.findClosestTower dist g with
  | Some c =>
      (c < length (Game.towers g))%nat /\ (dist c < 8)%Q /\
      forall i, (i < length (Game.towers g))%nat -> (dist c <= dist i)%Q
  | None => forall i, (i < length (Game.towers g))%nat -> (8 <= dist i)%Q
  end.
Proof.
  unfold Game.findClosestTower.
  pose proof (closestScan_spec dist (seq 0 (length (Game.towers g)))) as H.
  destruct (Game.closestScan dist (seq 0 (length (Game.towers g))))
    as [[c|] [m|]];
    try contradiction.
  - destruct H as (Hc & -> & Hmin).
    assert (Hin : forall i, (i < length (Game.towers g))%nat ->
                            i ∈ seq 0 (length (Game.towers g))).
    { intros i Hi. apply list_elem_of_In, in_seq. lia. }
    destruct (Game.Qltb (dist c) 8) eqn:E.
    + apply Qltb_lt in E. apply list_elem_of_In, in_seq in Hc.
      split; [lia|]. split; [assumption|]. auto.
    + intros i Hi. apply Qle_trans with (dist c); [|auto].
      destruct (Qlt_le_dec (dist c) 8) as [Hlt|Hle]; [|assumption].
      apply Qltb_lt in Hlt. congruence.
  - intros i Hi. apply (f_equal (@length nat)) in H.
    rewrite length_seq in H. simpl in H. lia.
Qed.





(** ** Moves that are turned down *)

(** C5, as the code has it: a move that is turned down is not made an
    error.  For a dragged disk that has a tower, a manual drop on a
    tower in range that is the disk's own or cannot take it returns and
    is reported to the player (the disk flies back and the error sound
    plays), and a drop with no tower in range returns and only sends the
    disk back.  A step of the automatic solution that the guard of
    [executeAutoMove] turns down is skipped in silence: the tick
    returns, the log, the towers and the move counter are as before, and
    the playback goes on with the next step. *)
Theorem rejected_move_reports
    (g : Game.t) (step : Move) (rest : list Move) (tf tt : Tower.t)
    (dist : nat -> Q) (disk : Disk) (origin : nat) :
  (Game.solutionInterval g = Some (step :: rest) ->
   Game.towers g !! fromTower step = Some tf ->
   Game.towers g !! toTower step = Some tt ->
   Tower.getTopDisk tf = None \/
   (exists d, Tower.getTopDisk tf = Some d /\ Tower.canAddDisk tt d = false) ->
   Game.solutionTick g = Ok (Game.set_solutionInterval (Some rest) g)) /\
  (Game.draggingDisk g = Some disk ->
   Game.currentTower g !! index disk = Some origin ->
   (Game.findClosestTower dist g = None ->
    exists g',
      Game.dropDisk dist g = Ok g' /\
      Game.log g' = Game.log g ++ [ReturnDisk disk origin]) /\
   (Game.findClosestTower dist g = Some origin \/
    (exists c tw,
       Game.findClosestTower dist g = Some c /\
       Game.towers g !! c = Some tw /\
       Tower.canAddDisk tw disk = false) ->
    exists g',
      Game.dropDisk dist g = Ok g' /\
      Game.log g' = Game.log g ++ [ReturnDisk disk origin; PlayErrorSound])).
Proof.
  split.
  - intros Hsol Hf Ht Hrej. unfold Game.solutionTick. rewrite Hsol.
    now rewrite (executeAutoMove_rejected g _ _ tf tt Hf Ht Hrej).
  - intros Hdrag Hcur. unfold Game.dropDisk. rewrite Hdrag. split.
    + intros ->. rewrite Hcur. simpl. eexists. split; reflexivity.
    + intros [Hown|(c & tw & Hc & Htw & Hcan)].
      * rewrite Hown.
        pose proof (findClosestTower_spec dist g) as Hspec.
        rewrite Hown in Hspec. destruct Hspec as (Hlt & _).
        destruct (lookup_lt_is_Some_2 _ _ Hlt) as [tw Htw].
        rewrite Htw, Hcur. simpl. rewrite bool_decide_eq_true_2 by reflexivity.
        simpl. eexists. split; [reflexivity|]. simpl.
        now rewrite <- app_assoc.
      * rewrite Hc, Htw, Hcur. simpl. rewrite Hcan, andb_false_r. simpl.
        eexists. split; [reflexivity|]. simpl. now rewrite <- app_assoc.
Qed.

(** A fresh 3-disk game whose top disk is being dragged while a
    playback is about to move a disk away from the empty tower 1. *)
Lemma rejected_move_reports_witness :
  let g :=
    Game.set_solutionInterval (Some [mkMove 1 2])
      (Game.onMouseDown (Some 0%nat) game3) in
  Game.solutionTick g = Ok (Game.set_solutionInterval (Some []) g) /\
  (exists g',
     Game.dropDisk (fun _ => 100%Q) g = Ok g' /\
     Game.log g' = Game.log g ++ [ReturnDisk (mkDisk 1 2) 0]) /\
  (exists g',
     Game.dropDisk (fun _ => 0%Q) g = Ok g' /\
     Game.log g' = Game.log g ++ [ReturnDisk (mkDisk 1 2) 0; PlayErrorSound]).
Proof.
  intros g.
  pose proof (rejected_move_reports g (mkMove 1 2) [] (Tower.mk 1 [])
                (Tower.mk 2 []) (fun _ => 100%Q) (mkDisk 1 2) 0%nat)
    as [Hplay Hfar].
  pose proof (rejected_move_reports g (mkMove 1 2) [] (Tower.mk 1 [])
                (Tower.mk 2 []) (fun _ => 0%Q) (mkDisk 1 2) 0%nat)
    as [_ Hnear].
  split; [|split].
  - apply Hplay; try reflexivity. left. reflexivity.
  - apply Hfar; reflexivity.
  - apply Hnear; try reflexivity. left. reflexivity.
Defined.

(** C5 as stated fails: with disks 3 and 2 on tower 0 and disk 1 on
    tower 2, the scheduled move from tower 0 to tower 2 is one that
    [canAddDisk] turns down; the tick returns without an error and adds
    nothing to the log. *)
Lemma playback_skips_rejected_move_silently :
  let g1 := returned game3 (Game.executeAutoMove 0 2 game3) in
  let g := Game.set_solutionInterval (Some [mkMove 0 2]) g1 in
  map (fun tw => sizes (Tower.disks tw)) (Game.towers g) = [[3; 2]; []; [1]] /\
  Tower.canAddDisk (Tower.mk 2 [mkDisk 1 2]) (mkDisk 2 1) = false /\
  exists g',
    Game.solutionTick g = Ok g' /\
    Game.log g' = Game.log g /\
    Game.towers g' = Game.towers g /\
    Game.moves g' = Game.moves g /\
    Game.solutionInterval g' = Some [].
Proof.
  split; [vm_compute; reflexivity|]. split; [reflexivity|].
  eexists. split; [vm_compute; reflexivity|].
  repeat split; vm_compute; reflexivity.
Qed.

(** ** The tower invariant *)

Lemma allDescending_insert (ts : list Tower.t) (i : nat) (tw : Tower.t) :
  allDescending ts -> strictlyDescending (Tower.disks tw) ->
  allDescending (<[i := tw]> ts).
Proof.
  intros Hts Htw j tw' Hj.
  destruct (decide (i = j)) as [->|Hne].
  - destruct (decide (j < length ts)%nat) as [Hlt|Hge].
    + rewrite list_lookup_insert_eq in Hj by assumption. now injection Hj as <-.
    + rewrite list_insert_ge in Hj by lia. eauto.
  - rewrite list_lookup_insert_ne in Hj by assumption. eauto.
Qed.

Lemma towerAddDisk_descending (g g' : Game.t) (ti : nat) (tw : Tower.t) (d : Disk) :
  allDescending (Game.towers g) ->
  Game.towers g !! ti = Some tw ->
  Tower.canAddDisk tw d = true ->
  Game.towerAddDisk ti d g = Ok g' ->
  allDescending (Game.towers g').
Proof.
  intros Hinv Htw Hcan. unfold Game.towerAddDisk. rewrite Htw. simpl.
  intros [= <-]. simpl. apply allDescending_insert; [assumption|].
  simpl. apply strictlyDescending_snoc; [eauto|]. now apply canAddDisk_spec.
Qed.

Lemma towerRemoveDisk_descending (g g' : Game.t) (ti : nat) (r : option Disk) :
  allDescending (Game.towers g) ->
  Game.towerRemoveDisk ti g = Ok (r, g') ->
  allDescending (Game.towers g').
Proof.
  intros Hinv. unfold Game.towerRemoveDisk.
  destruct (Game.towers g !! ti) as [tw|] eqn:Htw; simpl; [|discriminate].
  unfold Tower.removeDisk.
  destruct (length (Tower.disks tw) =? 0)%nat.
  - intros [= <- <-]. assumption.
  - destruct (last (Tower.disks tw)); intros [= <- <-]; [|assumption].
    simpl. apply allDescending_insert; [assumption|].
    simpl. apply strictlyDescending_removelast. eauto.
Qed.

(** What leaves the towers alone. *)
Lemma towers_saveBestScore (g : Game.t) :
  Game.towers (Game.saveBestScore g) = Game.towers g.
Proof.
  unfold Game.saveBestScore.
  destruct (Game.gameMode g); try reflexivity.
  destruct (Game.bestScore g); [|reflexivity].
  now destruct (_ || _).
Qed.

Lemma towers_gameOver (victory : bool) (g : Game.t) :
  Game.towers (Game.gameOver victory g) = Game.towers g.
Proof.
  unfold Game.gameOver. destruct victory; [|reflexivity].
  now rewrite towers_saveBestScore.
Qed.

Lemma towers_checkWinCondition (g g' : Game.t) :
  Game.checkWinCondition g = Ok g' -> Game.towers g' = Game.towers g.
Proof.
  unfold Game.checkWinCondition.
  destruct (Game.towers g !! 2%nat) as [goal|]; simpl; [|discriminate].
  destruct (Tower.isComplete goal (Game.numDisks g)); intros [= <-];
    rewrite ?towers_saveBestScore; reflexivity.
Qed.

Lemma towers_tick (g : Game.t) : Game.towers (Game.tick g) = Game.towers g.
Proof.
  unfold Game.tick. destruct (Game.timerInterval g) as [[|]|]; try reflexivity.
  unfold Game.countdownTick.
  repeat match goal with
         | |- context [if ?c then _ else _] => destruct c
         end;
    rewrite ?towers_gameOver; reflexivity.
Qed.

Lemma towers_trySelectDisk (hit : option nat) (g : Game.t) :
  Game.towers (Game.trySelectDisk hit g) = Game.towers g.
Proof.
  unfold Game.trySelectDisk.
  destruct (Game.draggingDisk g); [reflexivity|].
  destruct (Game.timerInterval g), (Game.gameMode g), hit as [ti|];
    try reflexivity; simpl;
    match goal with
    | |- context [match ?o with Some _ => _ | None => _ end] => now destruct o
    end.
Qed.

Lemma towers_onMouseDown (hit : option nat) (g : Game.t) :
  Game.towers (Game.onMouseDown hit g) = Game.towers g.
Proof.
  unfold Game.onMouseDown. destruct (Game.isGameOver g); [reflexivity|].
  apply towers_trySelectDisk.
Qed.

Lemma executeAutoMove_descending (i j : nat) (g g' : Game.t) :
  allDescending (Game.towers g) ->
  Game.executeAutoMove i j g = Ok g' ->
  allDescending (Game.towers g').
Proof.
  intros Hinv. unfold Game.executeAutoMove.
  destruct (Game.towers g !! i) as [tf|] eqn:Hf; simpl; [|discriminate].
  destruct (Tower.getTopDisk tf) as [d|] eqn:Htop; [|now intros [= <-]].
  destruct (Game.towers g !! j) as [tt|] eqn:Ht; simpl; [|discriminate].
  destruct (Tower.canAddDisk tt d) eqn:Hc; [|now intros [= <-]].
  destruct (executeAutoMove_accepted g i j tf tt d Hf Ht Htop Hc)
    as (Hij & g'' & E & Htw & _).
  unfold Game.executeAutoMove in E. rewrite Hf in E. simpl in E.
  rewrite Htop, Ht in E. simpl in E. rewrite Hc in E. rewrite E.
  intros [= <-]. rewrite Htw.
  apply allDescending_insert.
  - apply allDescending_insert; [assumption|]. simpl.
    apply strictlyDescending_removelast. eauto.
  - simpl. apply strictlyDescending_snoc; [eauto|]. now apply canAddDisk_spec.
Qed.

Lemma dropDisk_descending (dist : nat -> Q) (g g' : Game.t) :
  allDescending (Game.towers g) ->
  Game.dropDisk dist g = Ok g' ->
  allDescending (Game.towers g').
Proof.
  intros Hinv. unfold Game.dropDisk.
  destruct (Game.draggingDisk g) as [disk|]; [|now intros [= <-]].
  destruct (Game.findClosestTower dist g) as [ci|].
  - destruct (Game.towers g !! ci) as [closest|] eqn:Hclosest; simpl;
      [|discriminate].
    destruct (bool_decide (Game.currentTower g !! index disk = Some ci)) eqn:Hsame;
      simpl.
    + destruct (Game.currentTower g !! index disk); simpl; [|discriminate].
      now intros [= <-].
    + destruct (Tower.canAddDisk closest disk) eqn:Hcan.
      * destruct (Game.currentTower g !! index disk) as [src|] eqn:Hsrc; simpl;
          [|discriminate].
        apply bool_decide_eq_false in Hsame.
        assert (Hne : src <> ci) by congruence.
        destruct (Game.towerRemoveDisk src g) as [[r g1]| |] eqn:Hrm; simpl;
          try discriminate.
        pose proof (towerRemoveDisk_descending _ _ _ _ Hinv Hrm) as Hinv1.
        assert (Hc1 : Game.towers g1 !! ci = Some closest).
        { unfold Game.towerRemoveDisk in Hrm.
          destruct (Game.towers g !! src) as [tw|]; simpl in Hrm; [|discriminate].
          destruct (Tower.removeDisk tw) as [[d|] tw'];
            injection Hrm as <- <-; [|assumption].
          simpl. now rewrite list_lookup_insert_ne by assumption. }
        destruct (Game.towerAddDisk ci disk g1) as [g2| |] eqn:Hadd; simpl;
          try discriminate.
        pose proof (towerAddDisk_descending _ _ _ _ _ Hinv1 Hc1 Hcan Hadd) as Hinv2.
        destruct (Game.checkWinCondition _) as [g3| |] eqn:Hwin; simpl;
          try discriminate.
        intros [= <-]. apply towers_checkWinCondition in Hwin.
        simpl in *. now rewrite Hwin.
      * destruct (Game.currentTower g !! index disk); simpl; [|discriminate].
        now intros [= <-].
  - destruct (Game.currentTower g !! index disk); simpl; [|discriminate].
    now intros [= <-].
Qed.

(** The loop of [createPuzzleConfiguration] only ever puts a disk on a
    tower that [canAddDisk] would let it on. *)
Lemma puzzleLoop_descending (fuel : nat) (rnd : nat -> Q) :
  forall (k : nat) (avail : list Disk) (g g' : Game.t),
    allDescending (Game.towers g) ->
    Game.puzzleLoop fuel rnd k avail g = Ok g' ->
    allDescending (Game.towers g').
Proof.
  induction fuel as [|fuel IH]; intros k avail g g' Hinv; simpl.
  - destruct (length avail =? 0)%nat; [now intros [= <-] | discriminate].
  - destruct (length avail =? 0)%nat; [now intros [= <-]|].
    destruct (nthZ (Game.towers g) (Game.randomIndex (rnd k) 3))
      as [tower|] eqn:Htower; simpl; [|discriminate].
    match goal with
    | |- context [List.filter ?p avail] => set (valid := List.filter p avail)
    end.
    destruct (0 <? length valid)%nat; [|now apply IH].
    destruct (nthZ valid _) as [selected|] eqn:Hsel; simpl; [|discriminate].
    destruct (Game.towerAddDisk _ selected g) as [g1| |] eqn:Hadd; simpl;
      try discriminate.
    apply IH. eapply towerAddDisk_descending; eauto.
    + unfold nthZ in Htower.
      destruct (Game.randomIndex (rnd k) 3 <? 0); [discriminate | exact Htower].
    + unfold nthZ in Hsel. destruct (_ <? 0) in Hsel; [discriminate|].
      apply list_elem_of_lookup_2, list_elem_of_In in Hsel.
      subst valid. apply filter_In in Hsel as [_ Hp].
      unfold Tower.canAddDisk.
      destruct (length (Tower.disks tower) =? 0)%nat; [reflexivity | exact Hp].
Qed.

(** ** Creating the disks *)

Lemma strictlyDescending_canonicalStack (n : Z) :
  strictlyDescending (canonicalStack n).
Proof.
  intros i a b Ha Hb. unfold canonicalStack in *.
  rewrite list_lookup_fmap in Ha, Hb.
  destruct (seq 0 (Z.to_nat n) !! i) as [x|] eqn:Hx; [|discriminate].
  destruct (seq 0 (Z.to_nat n) !! S i) as [y|] eqn:Hy; [|discriminate].
  apply lookup_seq in Hx as [-> _]. apply lookup_seq in Hy as [-> _].
  simpl in Ha, Hb. injection Ha as <-. injection Hb as <-. simpl. lia.
Qed.

Lemma foldl_newDisk (l : list nat) (g : Game.t) :
  Game.towers (foldl Game.newDisk g l) = Game.towers g /\
  Game.disks (foldl Game.newDisk g l)
  = Game.disks g ++ map (fun i : nat => mkDisk (Game.numDisks g - Z.of_nat i) i) l /\
  Game.numDisks (foldl Game.newDisk g l) = Game.numDisks g /\
  Game.gameMode (foldl Game.newDisk g l) = Game.gameMode g.
Proof.
  revert g. induction l as [|x l IH]; intros g; simpl.
  - now rewrite app_nil_r.
  - destruct (IH (Game.newDisk g x)) as (Ht & Hd & Hn & Hm).
    rewrite Ht, Hd, Hn, Hm. simpl. now rewrite <- app_assoc.
Qed.

Lemma stackOnFirst_not_Ok (l : list Disk) (r : Result Game.t) :
  (forall g, r <> Ok g) -> forall g, Game.stackOnFirst l r <> Ok g.
Proof.
  revert r. induction l as [|d l IH]; intros r Hr; simpl; [assumption|].
  apply IH. destruct r; simpl; [now destruct (Hr a) | discriminate..].
Qed.

Lemma stackOnFirst_Ok (l : list Disk) :
  forall (g : Game.t) (tw : Tower.t),
    Game.towers g !! 0%nat = Some tw ->
    exists g',
      Game.stackOnFirst l (Ok g) = Ok g' /\
      Game.towers g'
      = <[0%nat := Tower.mk (Tower.id tw) (Tower.disks tw ++ l)]> (Game.towers g) /\
      Game.numDisks g' = Game.numDisks g.
Proof.
  induction l as [|d l IH]; intros g tw Htw; simpl.
  - exists g. rewrite app_nil_r. split; [reflexivity|]. split; [|reflexivity].
    destruct tw. symmetry. now apply list_insert_id.
  - unfold Game.towerAddDisk at 1. rewrite Htw. simpl.
    match goal with
    | |- context [Game.stackOnFirst l (Ok ?g1)] =>
        destruct (IH g1 (Tower.addDisk tw d)) as (g' & E & Ht & Hn)
    end.
    { simpl. apply list_lookup_insert_eq. eapply lookup_lt_Some; eauto. }
    exists g'. split; [exact E|]. split; [|exact Hn].
    rewrite Ht. simpl. rewrite list_insert_insert_eq. now rewrite <- app_assoc.
Qed.

Lemma stackOnFirst_no_tower (l : list Disk) (g g' : Game.t) :
  Game.towers g !! 0%nat = None ->
  Game.stackOnFirst l (Ok g) = Ok g' -> g' = g.
Proof.
  intros Hnone. destruct l as [|d l]; simpl; [now intros [= <-]|].
  unfold Game.towerAddDisk at 1. rewrite Hnone. simpl. intros H.
  now apply stackOnFirst_not_Ok in H.
Qed.

Lemma createDisks_descending (fuel : nat) (rnd : nat -> Q) (g g' : Game.t) :
  allDescending (Game.towers g) ->
  (forall tw, Game.towers g !! 0%nat = Some tw -> Tower.disks tw = []) ->
  Game.disks g = [] ->
  Game.createDisks fuel rnd g = Ok g' ->
  allDescending (Game.towers g').
Proof.
  intros Hinv Hempty Hdisks. unfold Game.createDisks.
  destruct (foldl_newDisk (seq 0 (Z.to_nat (Game.numDisks g))) g)
    as (Ht & Hd & Hn & Hm).
  set (g1 := foldl Game.newDisk g _) in *.
  assert (Hstack : Game.stackOnFirst (Game.disks g1) (Ok g1) = Ok g' ->
                   allDescending (Game.towers g')).
  { intros H. destruct (Game.towers g1 !! 0%nat) as [tw|] eqn:Htw.
    - destruct (stackOnFirst_Ok (Game.disks g1) g1 tw Htw) as (g2 & E & Htw2 & _).
      rewrite E in H. injection H as <-. rewrite Htw2, Ht.
      apply allDescending_insert; [assumption|]. simpl.
      rewrite (Hempty tw) by congruence. rewrite Hd, Hdisks. simpl.
      apply strictlyDescending_canonicalStack.
    - apply stackOnFirst_no_tower in H; [|assumption]. subst g'. now rewrite Ht. }
  destruct (Game.gameMode g1); try exact Hstack.
  unfold Game.createPuzzleConfiguration. apply puzzleLoop_descending.
  now rewrite Ht.
Qed.

(** In every mode but puzzle [createDisks] builds the canonical start. *)
Lemma createDisks_canonical (fuel : nat) (rnd : nat -> Q) (g : Game.t) (tw : Tower.t) :
  Game.gameMode g <> puzzle ->
  Game.disks g = [] ->
  Game.towers g !! 0%nat = Some tw ->
  exists g',
    Game.createDisks fuel rnd g = Ok g' /\
    Game.towers g'
    = <[0%nat := Tower.mk (Tower.id tw)
                   (Tower.disks tw ++ canonicalStack (Game.numDisks g))]>
        (Game.towers g) /\
    Game.numDisks g' = Game.numDisks g.
Proof.
  intros Hmode Hdisks Htw. unfold Game.createDisks.
  destruct (foldl_newDisk (seq 0 (Z.to_nat (Game.numDisks g))) g)
    as (Ht & Hd & Hn & Hm).
  set (g1 := foldl Game.newDisk g _) in *.
  destruct (stackOnFirst_Ok (Game.disks g1) g1 tw) as (g' & E & Htw' & Hn').
  { now rewrite Ht. }
  exists g'. rewrite Hd, Hdisks, Ht in Htw'. simpl in Htw'.
  rewrite Hn in Hn'.
  destruct (Game.gameMode g1) eqn:Hg1; try (split; [exact E | now split]).
  congruence.
Qed.

Lemma clearDisks_empties (g : Game.t) (i : nat) (tw : Tower.t) :
  Game.towers (Game.clearDisks g) !! i = Some tw -> Tower.disks tw = [].
Proof.
  simpl. rewrite list_lookup_fmap.
  destruct (Game.towers g !! i); simpl; [|discriminate].
  now intros [= <-].
Qed.

Lemma allDescending_empty (ts : list Tower.t) :
  (forall i tw, ts !! i = Some tw -> Tower.disks tw = []) -> allDescending ts.
Proof.
  intros H i tw Htw. rewrite (H i tw Htw). apply strictlyDescending_nil.
Qed.

Lemma setupGameMode_keeps (g : Game.t) :
  Game.towers (Game.setupGameMode g) = Game.towers g /\
  Game.disks (Game.setupGameMode g) = Game.disks g.
Proof. unfold Game.setupGameMode. now destruct (Game.gameMode g). Qed.

Lemma resetGame_descending (fuel : nat) (rnd : nat -> Q) (g g' : Game.t) :
  Game.resetGame fuel rnd g = Ok g' -> allDescending (Game.towers g').
Proof.
  unfold Game.resetGame.
  match goal with
  | |- context [Game.createDisks fuel rnd ?x] => set (g1 := x)
  end.
  destruct (Game.createDisks fuel rnd g1) as [g2| |] eqn:E; simpl;
    try discriminate.
  intros [= <-]. simpl.
  assert (Hempty : forall i tw, Game.towers g1 !! i = Some tw -> Tower.disks tw = []).
  { subst g1. intros i tw. rewrite (proj1 (setupGameMode_keeps _)).
    apply clearDisks_empties. }
  eapply createDisks_descending; [| |  |exact E].
  - now apply allDescending_empty.
  - apply Hempty.
  - subst g1. now rewrite (proj2 (setupGameMode_keeps _)).
Qed.

Lemma resetForSolution_descending (fuel : nat) (rnd : nat -> Q) (g g' : Game.t) :
  Game.resetForSolution fuel rnd g = Ok g' -> allDescending (Game.towers g').
Proof.
  unfold Game.resetForSolution. intros E.
  eapply createDisks_descending; [| | |exact E].
  - apply allDescending_empty. intros i tw. apply clearDisks_empties.
  - intros tw. apply clearDisks_empties.
  - reflexivity.
Qed.

Lemma showSolution_descending (stack fuel : nat) (rnd : nat -> Q) (g g' : Game.t) :
  allDescending (Game.towers g) ->
  Game.showSolution stack fuel rnd g = Ok g' ->
  allDescending (Game.towers g').
Proof.
  intros Hinv. unfold Game.showSolution.
  destruct (Game.isGameOver g); [now intros [= <-]|].
  destruct (Game.resetForSolution fuel rnd _) as [g1| |] eqn:E; simpl;
    try discriminate.
  destruct (Game.generateHanoiSolution stack _ 0 2 1 []) as [steps| |]; simpl;
    try discriminate.
  intros [= <-]. simpl. eapply resetForSolution_descending; eauto.
Qed.

Lemma solutionTick_descending (g g' : Game.t) :
  allDescending (Game.towers g) ->
  Game.solutionTick g = Ok g' ->
  allDescending (Game.towers g').
Proof.
  intros Hinv. unfold Game.solutionTick.
  destruct (Game.solutionInterval g) as [[|s rest]|];
    try (now intros [= <-]).
  destruct (Game.executeAutoMove _ _ g) as [g1| |] eqn:E; simpl;
    try discriminate.
  intros [= <-]. simpl. eapply executeAutoMove_descending; eauto.
Qed.

Lemma onDifficultyChange_descending
    (n : Z) (fuel : nat) (rnd : nat -> Q) (g g' : Game.t) :
  Game.onDifficultyChange n fuel rnd g = Ok g' -> allDescending (Game.towers g').
Proof. unfold Game.onDifficultyChange. apply resetGame_descending. Qed.

Lemma onGameModeChange_descending
    (m : GameMode) (fuel : nat) (rnd : nat -> Q) (g g' : Game.t) :
  Game.onGameModeChange m fuel rnd g = Ok g' -> allDescending (Game.towers g').
Proof. unfold Game.onGameModeChange. apply resetGame_descending. Qed.

Lemma onMouseUp_descending (dist : nat -> Q) (g g' : Game.t) :
  allDescending (Game.towers g) ->
  Game.onMouseUp dist g = Ok g' ->
  allDescending (Game.towers g').
Proof.
  intros Hinv. unfold Game.onMouseUp. destruct (Game.isGameOver g).
  - now intros [= <-].
  - now apply dropDisk_descending.
Qed.

Lemma step_descending (g g' : Game.t) :
  step g g' -> allDescending (Game.towers g) -> allDescending (Game.towers g').
Proof.
  intros Hstep Hinv. destruct Hstep as
    [fuel rnd g g' E | n fuel rnd g g' E | m fuel rnd g g' E | hit g
    | dist g g' E | dist g g' E | fuel rnd g g' E | stack fuel rnd g g' E
    | g g' E | i j g g' E | g].
  - exact (resetGame_descending _ _ _ _ E).
  - exact (onDifficultyChange_descending _ _ _ _ _ E).
  - exact (onGameModeChange_descending _ _ _ _ _ E).
  - rewrite towers_onMouseDown. exact Hinv.
  - exact (onMouseUp_descending _ _ _ Hinv E).
  - exact (dropDisk_descending _ _ _ Hinv E).
  - exact (resetForSolution_descending _ _ _ _ E).
  - exact (showSolution_descending _ _ _ _ _ Hinv E).
  - exact (solutionTick_descending _ _ Hinv E).
  - exact (executeAutoMove_descending _ _ _ _ Hinv E).
  - rewrite towers_tick. exact Hinv.
Qed.

(** C1: in every game reached from the constructor by calls of the
    game's entry points -- [resetGame] in each of the four modes,
    including the puzzle distribution, difficulty and mode changes,
    picking and dropping disks, [showSolution] and the moves its
    interval plays, timer ticks -- every tower's disks are strictly
    decreasing in size from index 0 upwards. *)
Theorem towers_always_descending (g : Game.t) :
  reachable g ->
  forall (i : nat) (tw : Tower.t),
    Game.towers g !! i = Some tw -> strictlyDescending (Tower.disks tw).
Proof.
  intros Hreach. change (allDescending (Game.towers g)).
  induction Hreach as [best | g g' _ IH Hstep].
  - apply allDescending_empty. intros i tw H.
    destruct i as [|[|[|i]]]; simpl in H; try discriminate;
      now injection H as <-.
  - eapply step_descending; eauto.
Qed.

(** A 3-disk game after its first manual move: disks 3 and 2 on tower
    0, disk 1 on tower 2. *)
Lemma towers_always_descending_witness :
  reachable game3_dragged /\
  strictlyDescending [mkDisk 3 0; mkDisk 2 1] /\
  strictlyDescending [mkDisk 1 2].
Proof.
  assert (Hreach : reachable game3_dragged).
  { apply reachable_step with (Game.onMouseDown (Some 0%nat) game3).
    - apply reachable_step with game3.
      + apply reachable_step with (Game.createTowers (Game.new None)).
        * apply reachable_new.
        * apply step_onDifficultyChange with 3 0%nat (fun _ : nat => 0%Q).
          vm_compute. reflexivity.
      + apply step_onMouseDown.
    - apply step_onMouseUp with (releasedOver 2). vm_compute. reflexivity. }
  split; [exact Hreach|]. split.
  - apply (towers_always_descending game3_dragged Hreach 0
             (Tower.mk 0 [mkDisk 3 0; mkDisk 2 1])).
    vm_compute. reflexivity.
  - apply (towers_always_descending game3_dragged Hreach 2
             (Tower.mk 2 [mkDisk 1 2])).
    vm_compute. reflexivity.
Defined.

(** ** Playing the generated solution *)

Lemma playback_app (s1 s2 : list Move) (g g1 : Game.t) :
  Game.playback s1 g = Ok g1 ->
  Game.playback (s1 ++ s2) g = Game.playback s2 g1.
Proof.
  unfold Game.playback. intros H. now rewrite foldl_app, H.
Qed.

Lemma playback_single (s : Move) (g : Game.t) :
  Game.playback [s] g = Game.executeAutoMove (fromTower s) (toTower s) g.
Proof. reflexivity. Qed.

(** In a strictly descending stack every disk above the bottom one is
    smaller than it. *)
Lemma strictlyDescending_cons (d : Disk) (l : list Disk) :
  strictlyDescending (d :: l) ->
  strictlyDescending l /\ forall x, x ∈ l -> size x < size d.
Proof.
  intros H. split.
  - intros i a b Ha Hb. exact (H (S i) a b Ha Hb).
  - intros x Hx. apply list_elem_of_lookup in Hx as [i Hi].
    pose proof (strictlyDescending_upper (d :: l) (S i) d x H eq_refl Hi).
    lia.
Qed.

Lemma canAddDisk_fitsOn (i : nat) (base l : list Disk) (x : Disk) :
  fitsOn base l -> x ∈ l -> Tower.canAddDisk (Tower.mk i base) x = true.
Proof.
  intros Hfit Hx. apply canAddDisk_spec. simpl.
  destruct (last base) as [top|] eqn:E; [|exact I]. eauto.
Qed.

(** The recursion of [generateHanoiSolution], played: a block [l] of
    disks on top of tower [a] ends up on top of tower [b], tower [c]
    helping, provided every disk of the block may go on what lies under
    it on each of the three towers. *)
Lemma playback_moves_block (l : list Disk) :
  forall (stack a b c : nat) (g : Game.t) (ia ib ic : nat)
         (ba bb bc : list Disk) (steps : list Move),
    l <> [] -> (length l <= stack)%nat ->
    a <> b -> a <> c -> b <> c ->
    Game.towers g !! a = Some (Tower.mk ia (ba ++ l)) ->
    Game.towers g !! b = Some (Tower.mk ib bb) ->
    Game.towers g !! c = Some (Tower.mk ic bc) ->
    strictlyDescending l ->
    fitsOn ba l -> fitsOn bb l -> fitsOn bc l ->
    exists sol g',
      Game.generateHanoiSolution stack (Z.of_nat (length l)) a b c steps
      = Ok (steps ++ sol) /\
      Game.playback sol g = Ok g' /\
      Game.towers g' !! a = Some (Tower.mk ia ba) /\
      Game.towers g' !! b = Some (Tower.mk ib (bb ++ l)) /\
      (forall k, k <> a -> k <> b -> Game.towers g' !! k = Game.towers g !! k) /\
      Game.moves g' = (Game.moves g + length sol)%nat.
Proof.
  induction l as [|d l IH];
    intros stack a b c g ia ib ic ba bb bc steps Hne Hstack Hab Hac Hbc
           Ha Hb Hc Hdesc Fa Fb Fc; [congruence|].
  destruct stack as [|stack]; [simpl in Hstack; lia|].
  destruct (strictlyDescending_cons d l Hdesc) as [Hdesc' Hsmall].
  assert (Hd : d ∈ d :: l) by apply list_elem_of_here.
  cbn [Game.generateHanoiSolution].
  destruct (decide (l = [])) as [->|Hl].
  - (* a single disk *)
    simpl length. change (Z.of_nat 1 =? 1) with true. cbv iota.
    exists [mkMove a b].
    destruct (executeAutoMove_accepted g a b _ _ d Ha Hb
                (getTopDisk_snoc ia ba d) (canAddDisk_fitsOn ib bb _ d Fb Hd))
      as (_ & g' & E & Htw & Hm & _).
    exists g'. rewrite playback_single. simpl fromTower. simpl toTower.
    pose proof (lookup_lt_Some _ _ _ Ha) as La.
    pose proof (lookup_lt_Some _ _ _ Hb) as Lb.
    split; [reflexivity|]. split; [exact E|]. rewrite Htw. simpl Tower.disks.
    rewrite removelast_last. repeat split.
    + rewrite list_lookup_insert_ne by congruence.
      now apply list_lookup_insert_eq.
    + apply list_lookup_insert_eq. now rewrite length_insert.
    + intros k Hka Hkb. now rewrite !list_lookup_insert_ne by congruence.
    + simpl. lia.
  - (* the disks above [d] go to [c], [d] goes to [b], they follow *)
    assert (Hlen : Z.of_nat (length (d :: l)) - 1 = Z.of_nat (length l)).
    { simpl length. lia. }
    assert (Hn1 : (Z.of_nat (length (d :: l)) =? 1) = false).
    { apply Z.eqb_neq. destruct l; [congruence|]. simpl length. lia. }
    rewrite Hn1, Hlen.
    assert (Fsub : forall base, fitsOn base (d :: l) -> fitsOn base l).
    { intros base F top x Ht Hx. apply (F top x Ht).
      now apply list_elem_of_further. }
    assert (Fd : forall base, fitsOn (base ++ [d]) l).
    { intros base top x Ht Hx. rewrite last_snoc in Ht. injection Ht as <-.
      auto. }
    simpl in Hstack.
    destruct (IH stack a c b g ia ic ib (ba ++ [d]) bc bb steps)
      as (s1 & g1 & E1 & P1 & A1 & C1 & K1 & M1); auto; try lia.
    { now rewrite <- app_assoc. }
    rewrite E1. cbn [mbind Result_bind].
    assert (B1 : Game.towers g1 !! b = Some (Tower.mk ib bb)).
    { rewrite K1 by congruence. exact Hb. }
    destruct (executeAutoMove_accepted g1 a b _ _ d A1 B1
                (getTopDisk_snoc ia ba d) (canAddDisk_fitsOn ib bb _ d Fb Hd))
      as (_ & g2 & E2 & T2 & M2 & _).
    simpl Tower.disks in T2. rewrite removelast_last in T2.
    pose proof (lookup_lt_Some _ _ _ A1) as La.
    pose proof (lookup_lt_Some _ _ _ B1) as Lb.
    assert (A2 : Game.towers g2 !! a = Some (Tower.mk ia ba)).
    { rewrite T2. rewrite list_lookup_insert_ne by congruence.
      now apply list_lookup_insert_eq. }
    assert (B2 : Game.towers g2 !! b = Some (Tower.mk ib (bb ++ [d]))).
    { rewrite T2. apply list_lookup_insert_eq. now rewrite length_insert. }
    assert (K2 : forall k, k <> a -> k <> b ->
                           Game.towers g2 !! k = Game.towers g1 !! k).
    { intros k Hka Hkb. rewrite T2.
      now rewrite !list_lookup_insert_ne by congruence. }
    assert (C2 : Game.towers g2 !! c = Some (Tower.mk ic (bc ++ l))).
    { rewrite K2 by congruence. exact C1. }
    destruct (IH stack c b a g2 ic ib ia bc (bb ++ [d]) ba
                ((steps ++ s1) ++ [mkMove a b]))
      as (s3 & g3 & E3 & P3 & C3 & B3 & K3 & M3); auto; try lia.
    rewrite E3.
    exists (s1 ++ [mkMove a b] ++ s3), g3.
    split; [f_equal; now rewrite <- !app_assoc|].
    split.
    { rewrite (playback_app s1 _ g g1 P1).
      change ([mkMove a b] ++ s3) with ([mkMove a b] ++ s3).
      rewrite (playback_app [mkMove a b] s3 g1 g2); [exact P3|].
      rewrite playback_single. exact E2. }
    split; [rewrite K3 by congruence; exact A2|].
    split; [rewrite B3; now rewrite <- app_assoc|].
    split.
    + intros k Hka Hkb. destruct (decide (k = c)) as [->|Hkc].
      * now rewrite C3, Hc.
      * rewrite K3, K2, K1 by congruence. reflexivity.
    + rewrite M3, M2, M1, !length_app. simpl. lia.
Qed.

Lemma canonicalStack_lookup (n : Z) (i : nat) (d : Disk) :
  canonicalStack n !! i = Some d -> size d = n - Z.of_nat i.
Proof.
  unfold canonicalStack. rewrite list_lookup_fmap.
  destruct (seq 0 (Z.to_nat n) !! i) as [x|] eqn:Hx; [|discriminate].
  apply lookup_seq in Hx as [-> _]. now intros [= <-].
Qed.

Lemma canonicalStack_length (n : Z) :
  0 <= n -> Z.of_nat (length (canonicalStack n)) = n.
Proof.
  intros Hn. unfold canonicalStack. rewrite length_map, length_seq. lia.
Qed.

Lemma fitsOn_nil (l : list Disk) : fitsOn [] l.
Proof. intros top x H. discriminate. Qed.

(** C3: for [numDisks] from 1 to 7, from a game whose towers hold the
    canonical start, [generateHanoiSolution(numDisks, 0, 2, 1, [])]
    returns and playing its moves in order with [executeAutoMove] ends
    with all disks on tower 2, where [isComplete(numDisks)] is true, and
    with one counted move per step; for [numDisks = 3] the moves are
    0→2, 0→1, 2→1, 0→2, 1→0, 1→2, 0→2 and tower 2 ends with sizes
    3, 2, 1 from the bottom. *)
Theorem solution_playback_solves (numDisks : Z) (stack : nat) (g : Game.t) :
  1 <= numDisks <= 7 ->
  numDisks <= Z.of_nat stack ->
  canonicalLayout numDisks g ->
  exists steps g' goal,
    Game.generateHanoiSolution stack numDisks 0 2 1 [] = Ok steps /\
    Game.playback steps g = Ok g' /\
    Game.towers g' !! 2%nat = Some goal /\
    Tower.disks goal = canonicalStack numDisks /\
    Tower.isComplete goal numDisks = true /\
    map Tower.disks (Game.towers g') = [[]; []; canonicalStack numDisks] /\
    Game.moves g' = (Game.moves g + length steps)%nat /\
    (numDisks = 3 ->
     steps = [mkMove 0 2; mkMove 0 1; mkMove 2 1; mkMove 0 2;
              mkMove 1 0; mkMove 1 2; mkMove 0 2] /\
     sizes (Tower.disks goal) = [3; 2; 1]).
Proof.
  intros Hn Hstack Hcanon. unfold canonicalLayout in Hcanon.
  destruct (Game.towers g) as [|[i0 d0] [|[i1 d1] [|[i2 d2] [|t3 ts]]]] eqn:Htw;
    try discriminate.
  simpl in Hcanon. injection Hcanon as -> -> ->.
  assert (Hlen : Z.of_nat (length (canonicalStack numDisks)) = numDisks).
  { apply canonicalStack_length. lia. }
  destruct (playback_moves_block (canonicalStack numDisks) stack 0 2 1 g
              i0 i2 i1 [] [] [] [])
    as (sol & g' & E & P & A & B & K & M);
    try (rewrite Htw; reflexivity);
    try apply fitsOn_nil; try lia.
  { intros Hnil. rewrite Hnil in Hlen. simpl in Hlen. lia. }
  { apply strictlyDescending_canonicalStack. }
  rewrite Hlen in E. simpl in E, B.
  exists sol, g', (Tower.mk i2 (canonicalStack numDisks)).
  split; [exact E|]. split; [exact P|]. split; [exact B|].
  split; [reflexivity|].
  split.
  { apply isComplete_exact. split; [exact Hlen|].
    intros i d. apply canonicalStack_lookup. }
  split.
  { pose proof (K 1%nat ltac:(lia) ltac:(lia)) as K1.
    pose proof (K 3%nat ltac:(lia) ltac:(lia)) as K3.
    rewrite Htw in K1, K3. simpl in K1, K3.
    destruct (Game.towers g') as [|t0 [|t1 [|t2 [|t3 ts]]]];
      simpl in A, B, K1, K3; try discriminate.
    injection A as ->. injection B as ->. injection K1 as ->. reflexivity. }
  split; [exact M|].
  intros ->. split; [|reflexivity].
  destruct stack as [|[|[|stack]]]; try (simpl in Hstack; lia).
  simpl in E. now injection E as <-.
Qed.

(** Four disks, with room on the stack for four nested calls, from the
    canonical start that [createDisks] builds. *)
Lemma solution_playback_solves_witness :
  exists steps g' goal,
    Game.generateHanoiSolution 4 4 0 2 1 [] = Ok steps /\
    Game.playback steps
      (returned (initialGame 4 normal)
         (Game.resetGame 0 (fun _ => 0%Q) (initialGame 4 normal))) = Ok g' /\
    Game.towers g' !! 2%nat = Some goal /\
    Tower.disks goal = canonicalStack 4 /\
    Tower.isComplete goal 4 = true /\
    map Tower.disks (Game.towers g') = [[]; []; canonicalStack 4] /\
    Game.moves g'
    = (Game.moves
         (returned (initialGame 4 normal)
            (Game.resetGame 0 (fun _ => 0%Q) (initialGame 4 normal)))
       + length steps)%nat /\
    (4 = 3 ->
     steps = [mkMove 0 2; mkMove 0 1; mkMove 2 1; mkMove 0 2;
              mkMove 1 0; mkMove 1 2; mkMove 0 2] /\
     sizes (Tower.disks goal) = [3; 2; 1]).
Proof.
  apply (solution_playback_solves 4 4
           (returned (initialGame 4 normal)
              (Game.resetGame 0 (fun _ => 0%Q) (initialGame 4 normal)))).
  - lia.
  - lia.
  - vm_compute. reflexivity.
Defined.

(** ** The puzzle distribution *)

(** [Math.floor(Math.random() * n)] is an index below [n]. *)
Lemma randomIndex_range (u : Q) (n : Z) :
  (0 <= u)%Q -> (u < 1)%Q -> 0 < n -> 0 <= Game.randomIndex u n < n.
Proof.
  intros H0 H1 Hn. unfold Game.randomIndex.
  assert (Hpos : (0 < inject_Z n)%Q).
  { change 0%Q with (inject_Z 0). now rewrite <- Zlt_Qlt. }
  split.
  - change 0 with (Qfloor 0). apply Qfloor_resp_le.
    apply Qmult_le_0_compat; [assumption | now apply Qlt_le_weak].
  - rewrite Zlt_Qlt.
    apply Qle_lt_trans with (u * inject_Z n)%Q; [apply Qfloor_le|].
    apply Qlt_le_trans with (1 * inject_Z n)%Q;
      [now apply Qmult_lt_compat_r|].
    rewrite Qmult_1_l. apply Qle_refl.
Qed.

(** A tower that turns down every available disk offers no valid disk. *)
Lemma no_valid_disk (tower : Tower.t) (avail : list Disk) :
  (forall d, d ∈ avail -> Tower.canAddDisk tower d = false) ->
  List.filter
    (fun disk =>
       (length (Tower.disks tower) =? 0)%nat
       || match Tower.getTopDisk tower with
          | Some topDisk => size disk <? size topDisk
          | None => false
          end)
    avail = [].
Proof.
  intros H. induction avail as [|d avail IH]; [reflexivity|].
  simpl. pose proof (H d (list_elem_of_here _ _)) as Hd.
  unfold Tower.canAddDisk in Hd.
  destruct (length (Tower.disks tower) =? 0)%nat; [discriminate|].
  simpl. rewrite Hd. apply IH. intros x Hx. apply H.
  now apply list_elem_of_further.
Qed.

(** As long as every tower the oracle picks turns down every available
    disk, the loop goes round without placing anything. *)
Lemma puzzleLoop_spins (fuel : nat) (rnd : nat -> Q) :
  forall (k : nat) (avail : list Disk) (g : Game.t),
    avail <> [] ->
    (forall j, (k <= j)%nat ->
       exists tower,
         nthZ (Game.towers g) (Game.randomIndex (rnd j) 3) = Some tower /\
         forall d, d ∈ avail -> Tower.canAddDisk tower d = false) ->
    Game.puzzleLoop fuel rnd k avail g = StillRunning.
Proof.
  induction fuel as [|fuel IH]; intros k avail g Hne Hpick;
    destruct avail as [|d0 avail0] eqn:Hav; try congruence; rewrite <- Hav in *;
    assert (Hlen : (length avail =? 0)%nat = false)
      by (rewrite Hav; reflexivity);
    simpl; rewrite Hlen; [reflexivity|].
  destruct (Hpick k (le_n _)) as (tower & Htower & Hrej).
  rewrite Htower. cbn [deref mbind Result_bind].
  rewrite (no_valid_disk tower avail Hrej). simpl.
  apply IH; [congruence|]. intros j Hj. apply Hpick. lia.
Qed.

(** One round of the loop. *)
Lemma puzzleLoop_S (fuel : nat) (rnd : nat -> Q) (k : nat)
    (avail : list Disk) (g : Game.t) :
  Game.puzzleLoop (S fuel) rnd k avail g
  = if (length avail =? 0)%nat then Ok g
    else
      tower ← deref (nthZ (Game.towers g) (Game.randomIndex (rnd k) 3));
      let validDisks :=
        List.filter
          (fun disk =>
             (length (Tower.disks tower) =? 0)%nat
             || match Tower.getTopDisk tower with
                | Some topDisk => size disk <? size topDisk
                | None => false
                end)
          avail in
      if (0 <? length validDisks)%nat then
        selectedDisk ←
          deref (nthZ validDisks
                   (Game.randomIndex (rnd (S k)) (Z.of_nat (length validDisks))));
        g' ← Game.towerAddDisk (Z.to_nat (Game.randomIndex (rnd k) 3)) selectedDisk g;
        Game.puzzleLoop fuel rnd (S (S k))
          (List.filter (fun disk => negb (Disk_eqb disk selectedDisk)) avail) g'
      else Game.puzzleLoop fuel rnd (S k) avail g.
Proof. reflexivity. Qed.

(** C4 fails on the code: with four disks, let the first three rounds
    put disk 1 on tower 0, disk 2 on tower 1 and disk 3 on tower 2
    ([Math.random] returning 0, 3/4, 1/3, 2/3, 2/3, 1/2).  No tower can
    take disk 4 any more, so whatever [Math.random] returns from then
    on, [resetGame] is still inside the loop of
    [createPuzzleConfiguration] after any number of rounds. *)
Theorem puzzle_distribution_can_hang (fuel : nat) (rest : nat -> Q) :
  (forall k, (0 <= rest k)%Q /\ (rest k < 1)%Q) ->
  Game.resetGame fuel (prefixed [0; 3 # 4; 1 # 3; 2 # 3; 2 # 3; 1 # 2]%Q rest)
    (initialGame 4 puzzle)
  = StillRunning.
Proof.
  intros Hrest. cbv -[Game.puzzleLoop].
  destruct fuel as [|fuel]; [reflexivity|].
  rewrite puzzleLoop_S. cbv -[Game.puzzleLoop].
  destruct fuel as [|fuel]; [reflexivity|].
  rewrite puzzleLoop_S. cbv -[Game.puzzleLoop].
  destruct fuel as [|fuel]; [reflexivity|].
  rewrite puzzleLoop_S. cbv -[Game.puzzleLoop].
  rewrite puzzleLoop_spins; [reflexivity | discriminate |].
  intros j Hj. do 6 (destruct j as [|j]; [lia|]).
  cbv beta iota. cbn [Game.towers].
  destruct (Hrest (j - 0)%nat) as [H0 H1].
  pose proof (randomIndex_range _ 3 H0 H1 ltac:(lia)) as Hidx.
  change (rest _) with (rest (j - 0)%nat).
  assert (Hcase : Game.randomIndex (rest (j - 0)%nat) 3 = 0
                  \/ Game.randomIndex (rest (j - 0)%nat) 3 = 1
                  \/ Game.randomIndex (rest (j - 0)%nat) 3 = 2) by lia.
  destruct Hcase as [-> | [-> | ->]]; eexists; (split; [reflexivity|]);
    intros d Hd; apply list_elem_of_singleton in Hd as ->; reflexivity.
Qed.

(** Whatever comes after the six values, e.g. zeros for ever. *)
Lemma puzzle_distribution_can_hang_witness :
  Game.resetGame 1000
    (prefixed [0; 3 # 4; 1 # 3; 2 # 3; 2 # 3; 1 # 2]%Q (fun _ => 0%Q))
    (initialGame 4 puzzle)
  = StillRunning.
Proof.
  apply (puzzle_distribution_can_hang 1000 (fun _ => 0%Q)).
  intros k. split; [apply Qle_refl | reflexivity].
Defined.

(** Even with three disks, where some tower can always take a disk, an
    oracle that keeps picking a tower that cannot keeps the loop going:
    disk 1 goes on tower 0, and tower 0 is picked ever after. *)
Lemma puzzle_distribution_unfair_oracle (fuel : nat) :
  Game.resetGame fuel (prefixed [0; 2 # 3]%Q (fun _ => 0%Q)) (initialGame 3 puzzle)
  = StillRunning.
Proof.
  cbv -[Game.puzzleLoop].
  destruct fuel as [|fuel]; [reflexivity|].
  rewrite puzzleLoop_S. cbv -[Game.puzzleLoop].
  rewrite puzzleLoop_spins; [reflexivity | discriminate |].
  intros j Hj. do 2 (destruct j as [|j]; [lia|]).
  eexists. split; [reflexivity|].
  intros d Hd.
  repeat (apply elem_of_cons in Hd as [->|Hd]; [reflexivity|]).
  now apply elem_of_nil in Hd.
Qed.

(** ** Resetting for the solution *)

(** In modes normal, contrarreloj and desafio, [resetForSolution] on a
    game with its three towers returns with the canonical start, the
    move counter at 0 and no disk being dragged. *)
Lemma resetForSolution_canonical (fuel : nat) (rnd : nat -> Q) (g : Game.t) :
  Game.gameMode g <> puzzle ->
  length (Game.towers g) = 3%nat ->
  exists g',
    Game.resetForSolution fuel rnd g = Ok g' /\
    canonicalLayout (Game.numDisks g) g'.
Proof.
  intros Hmode Hlen. unfold Game.resetForSolution.
  destruct (Game.towers g) as [|t0 [|t1 [|t2 [|t3 ts]]]] eqn:Htw;
    try discriminate.
  match goal with
  | |- context [Game.createDisks fuel rnd ?x] =>
      destruct (createDisks_canonical fuel rnd x (Tower.mk (Tower.id t0) []))
        as (g' & E & Htw' & _)
  end.
  - exact Hmode.
  - reflexivity.
  - simpl. now rewrite Htw.
  - exists g'. split; [exact E|]. unfold canonicalLayout. rewrite Htw'.
    simpl. now rewrite Htw.
Qed.

(** C6 fails on the code in mode puzzle: [resetForSolution] calls
    [createDisks], which scatters the disks again.  With three disks and
    [Math.random] returning 1/2, 0, 1/2, 0, 1/2, 0, [showSolution]
    returns with all disks on tower 1; the seven steps it has scheduled
    for the canonical start then move only two disks and leave disk 3
    on tower 1. *)
Theorem showSolution_puzzle_not_canonical :
  let rnd := prefixed [1 # 2; 0; 1 # 2; 0; 1 # 2; 0]%Q (fun _ => 0%Q) in
  let g := returned (initialGame 3 puzzle)
             (Game.resetGame 9 (fun _ => 0%Q) (initialGame 3 puzzle)) in
  exists g' steps g'',
    Game.showSolution 3 9 rnd g = Ok g' /\
    map (fun tw => sizes (Tower.disks tw)) (Game.towers g') = [[]; [3; 2; 1]; []] /\
    ~ canonicalLayout 3 g' /\
    Game.solutionInterval g' = Some steps /\
    length steps = 7%nat /\
    Game.playback steps g' = Ok g'' /\
    map (fun tw => sizes (Tower.disks tw)) (Game.towers g'') = [[]; [3]; [2; 1]] /\
    Game.moves g'' = 3%nat.
Proof.
  intros rnd g.
  eexists. eexists. eexists.
  split; [vm_compute; reflexivity|].
  split; [vm_compute; reflexivity|].
  split; [intros H; vm_compute in H; discriminate|].
  split; [vm_compute; reflexivity|].
  split; [reflexivity|].
  split; [vm_compute; reflexivity|].
  split; vm_compute; reflexivity.
Qed.

(** ** The interval of [showSolution] *)

Lemma executeAutoMove_set_solutionInterval
    (i j : nat) (v : option (list Move)) (g : Game.t) :
  Game.executeAutoMove i j (Game.set_solutionInterval v g)
  = match Game.executeAutoMove i j g with
    | Ok g' => Ok (Game.set_solutionInterval v g')
    | Throw e => Throw e
    | StillRunning => StillRunning
    end.
Proof.
  unfold Game.executeAutoMove. simpl.
  destruct (Game.towers g !! i) as [tf|] eqn:Hf; simpl; [|reflexivity].
  destruct (Tower.getTopDisk tf) as [d|]; [|reflexivity].
  destruct (Game.towers g !! j) as [tt|] eqn:Ht; simpl; [|reflexivity].
  destruct (Tower.canAddDisk tt d); [|reflexivity].
  unfold Game.towerRemoveDisk. simpl. rewrite Hf. simpl.
  destruct (Tower.removeDisk tf) as [[r|] tf']; simpl.
  - unfold Game.towerAddDisk. simpl.
    destruct (<[i:=tf']> (Game.towers g) !! j); reflexivity.
  - unfold Game.towerAddDisk. simpl. rewrite Ht. reflexivity.
Qed.

Lemma playback_cons (s : Move) (rest : list Move) (g : Game.t) :
  Game.playback (s :: rest) g
  = g1 ← Game.executeAutoMove (fromTower s) (toTower s) g; Game.playback rest g1.
Proof.
  unfold Game.playback. simpl.
  destruct (Game.executeAutoMove (fromTower s) (toTower s) g) as [g1|e|];
    simpl; [reflexivity| |]; induction rest; simpl; auto.
Qed.

Lemma playback_set_solutionInterval (v : option (list Move)) (steps : list Move) :
  forall (g g' : Game.t),
    Game.playback steps g = Ok g' ->
    Game.playback steps (Game.set_solutionInterval v g)
    = Ok (Game.set_solutionInterval v g').
Proof.
  induction steps as [|s rest IH]; intros g g'.
  - unfold Game.playback. simpl. now intros [= <-].
  - rewrite !playback_cons, executeAutoMove_set_solutionInterval.
    destruct (Game.executeAutoMove (fromTower s) (toTower s) g) as [g1| |];
      simpl; try discriminate.
    apply IH.
Qed.

(** The interval armed by [showSolution] plays its steps exactly as
    [playback] does, one step per firing. *)
Lemma solutionTicks_playback (steps : list Move) :
  forall (g g' : Game.t),
    Game.solutionInterval g = Some steps ->
    Game.playback steps g = Ok g' ->
    Game.solutionTicks (length steps) g
    = Ok (Game.set_solutionInterval (Some []) g').
Proof.
  induction steps as [|s rest IH]; intros g g' Hsol.
  - unfold Game.playback. simpl. intros [= <-].
    destruct g. simpl in *. now subst.
  - rewrite playback_cons. simpl. unfold Game.solutionTick. rewrite Hsol.
    destruct (Game.executeAutoMove (fromTower s) (toTower s) g) as [g1| |];
      simpl; try discriminate.
    intros Hplay.
    apply (playback_set_solutionInterval (Some rest)) in Hplay.
    now rewrite (IH (Game.set_solutionInterval (Some rest) g1)
                   (Game.set_solutionInterval (Some rest) g') eq_refl Hplay).
Qed.

(** * Further properties *)

(** ** Towers as stacks *)

(** Pushing a disk and popping it again gives the disk and the tower
    back; the pushed disk is the top disk; and popping the top disk and
    pushing it back restores the tower. *)
Theorem tower_push_pop (tw : Tower.t) (d : Disk) :
  Tower.removeDisk (Tower.addDisk tw d) = (Some d, tw) /\
  Tower.getTopDisk (Tower.addDisk tw d) = Some d /\
  (forall top, Tower.getTopDisk tw = Some top ->
     Tower.removeDisk tw
     = (Some top, Tower.mk (Tower.id tw) (removelast (Tower.disks tw))) /\
     Tower.addDisk (snd (Tower.removeDisk tw)) top = tw) /\
  (Tower.getTopDisk tw = None ->
     Tower.disks tw = [] /\ Tower.removeDisk tw = (None, tw)).
Proof.
  destruct tw as [i ds]. split; [|split; [|split]].
  - unfold Tower.removeDisk, Tower.addDisk. simpl.
    rewrite length_app, last_snoc, removelast_last. simpl.
    now replace (length ds + 1 =? 0)%nat with false
      by (symmetry; apply Nat.eqb_neq; lia).
  - apply getTopDisk_snoc.
  - intros top Htop.
    destruct (getTopDisk_Some_inv _ _ Htop) as [Hds Hrm].
    split; [exact Hrm|]. rewrite Hrm. unfold Tower.addDisk. simpl in *.
    now rewrite <- Hds.
  - intros Hnone. rewrite getTopDisk_last in Hnone. simpl in Hnone.
    apply last_None in Hnone. subst ds. split; reflexivity.
Qed.

(** A tower that [isComplete(n)] accepts holds exactly the sizes
    [n, n-1, ..., 1] from the bottom up, and then takes no further disk
    of a positive size. *)
Theorem isComplete_sizes_and_full (tw : Tower.t) (n : Z) :
  (Tower.isComplete tw n = true <->
   0 <= n /\ sizes (Tower.disks tw) = sizes (canonicalStack n)) /\
  (Tower.isComplete tw n = true ->
   forall d, 1 <= n -> 1 <= size d -> Tower.canAddDisk tw d = false).
Proof.
  assert (Hiff : Tower.isComplete tw n = true <->
                 0 <= n /\ sizes (Tower.disks tw) = sizes (canonicalStack n)).
  { rewrite isComplete_exact. split.
    - intros [Hlen Hsz]. split; [lia|].
      apply list_eq. intros i. unfold sizes. rewrite !list_lookup_fmap.
      destruct (Tower.disks tw !! i) as [d|] eqn:Hd.
      + pose proof (lookup_lt_Some _ _ _ Hd) as Hi.
        destruct (canonicalStack n !! i) as [c|] eqn:Hc.
        * simpl. f_equal. rewrite (Hsz i d Hd).
          symmetry. now apply canonicalStack_lookup.
        * apply lookup_ge_None in Hc.
          pose proof (canonicalStack_length n ltac:(lia)). lia.
      + apply lookup_ge_None in Hd.
        destruct (canonicalStack n !! i) as [c|] eqn:Hc; [|reflexivity].
        apply lookup_lt_Some in Hc.
        pose proof (canonicalStack_length n ltac:(lia)). lia.
    - intros [Hn Heq]. split.
      + apply (f_equal (@length Z)) in Heq. unfold sizes in Heq.
        rewrite !length_map in Heq. rewrite Heq.
        now apply canonicalStack_length.
      + intros i d Hd.
        assert (Hs : sizes (Tower.disks tw) !! i = Some (size d)).
        { unfold sizes. now rewrite list_lookup_fmap, Hd. }
        rewrite Heq in Hs. unfold sizes in Hs. rewrite list_lookup_fmap in Hs.
        destruct (canonicalStack n !! i) as [c|] eqn:Hc; [|discriminate].
        simpl in Hs. injection Hs as <-. now apply canonicalStack_lookup. }
  split; [exact Hiff|].
  intros Hc d Hn Hd. apply isComplete_exact in Hc as [Hlen Hsz].
  destruct (Tower.canAddDisk tw d) eqn:Hcan; [|reflexivity].
  apply canAddDisk_spec in Hcan. rewrite last_lookup in Hcan.
  destruct (Tower.disks tw !! pred (length (Tower.disks tw))) as [top|] eqn:Htop.
  - apply Hsz in Htop. lia.
  - apply lookup_ge_None in Htop. lia.
Qed.

(** ** The nearest tower *)

Lemma closestScan_first (dist : nat -> Q) (n : nat) :
  match Game.closestScan dist (seq 0 n) with
  | (Some c, Some m) =>
      (c < n)%nat /\ m = dist c /\
      (forall i, (i < n)%nat -> (dist c <= dist i)%Q) /\
      (forall i, (i < c)%nat -> (dist c < dist i)%Q)
  | (None, None) => n = 0%nat
  | _ => False
  end.
Proof.
  induction n as [|n IH]; [reflexivity|].
  rewrite seq_S. unfold Game.closestScan in *. rewrite foldl_app. simpl.
  destruct (foldl _ _ (seq 0 n)) as [[c|] [m|]]; simpl; try contradiction.
  - destruct IH as (Hc & -> & Hmin & Hfirst).
    destruct (Game.Qltb (dist n) (dist c)) eqn:E.
    + apply Qltb_lt in E. split; [lia|]. split; [reflexivity|]. split.
      * intros i Hi. destruct (decide (i = n)) as [->|Hne]; [apply Qle_refl|].
        apply Qle_trans with (dist c); [now apply Qlt_le_weak|].
        apply Hmin. lia.
      * intros i Hi. apply Qlt_le_trans with (dist c); [exact E|].
        apply Hmin. lia.
    + split; [lia|]. split; [reflexivity|]. split; [|exact Hfirst].
      intros i Hi. destruct (decide (i = n)) as [->|Hne]; [|apply Hmin; lia].
      destruct (Qlt_le_dec (dist n) (dist c)) as [Hlt|Hle]; [|assumption].
      apply Qltb_lt in Hlt. congruence.
  - subst n. split; [lia|]. split; [reflexivity|]. split.
    + intros i Hi. replace i with 0%nat by lia. apply Qle_refl.
    + intros i Hi. lia.
Qed.

(** [findClosestTower] answers with a tower of the game that is nearer
    than 8, no farther than any other tower and strictly nearer than
    every tower before it (of two equally near towers the first wins);
    it answers [null] exactly when no tower is nearer than 8. *)
Theorem findClosestTower_nearest_first (dist : nat -> Q) (g : Game.t) :
  match Game.findClosestTower dist g with
  | Some c =>
      (c < length (Game.towers g))%nat /\ (dist c < 8)%Q /\
      (forall i, (i < length (Game.towers g))%nat -> (dist c <= dist i)%Q) /\
      (forall i, (i < c)%nat -> (dist c < dist i)%Q)
  | None => forall i, (i < length (Game.towers g))%nat -> (8 <= dist i)%Q
  end.
Proof.
  unfold Game.findClosestTower.
  pose proof (closestScan_first dist (length (Game.towers g))) as H.
  destruct (Game.closestScan dist (seq 0 (length (Game.towers g))))
    as [[c|] [m|]]; try contradiction.
  - destruct H as (Hc & -> & Hmin & Hfirst).
    destruct (Game.Qltb (dist c) 8) eqn:E.
    + apply Qltb_lt in E. auto.
    + intros i Hi. apply Qle_trans with (dist c); [|auto].
      destruct (Qlt_le_dec (dist c) 8) as [Hlt|Hle]; [|assumption].
      apply Qltb_lt in Hlt. congruence.
  - intros i Hi. lia.
Qed.

(** ** The solution generator at its edges *)

(** Below 1 the recursion has no base case: for [n < 1] the call never
    returns, it exhausts the call stack however deep that is, and
    [steps] is not handed back. *)
Theorem generateHanoiSolution_below_one
    (stack : nat) (n : Z) (a b c : nat) (steps : list Move) :
  n < 1 ->
  Game.generateHanoiSolution stack n a b c steps = Throw RangeError.
Proof.
  revert n a b c steps.
  induction stack as [|stack IH]; intros n a b c steps Hn; [reflexivity|].
  simpl. destruct (Z.eqb_spec n 1) as [->|_]; [lia|].
  now rewrite IH by lia.
Qed.

(** [generateHanoiSolution(0, ...)] with room for a thousand calls. *)
Lemma generateHanoiSolution_below_one_witness :
  Game.generateHanoiSolution 1000 0 0 2 1 [] = Throw RangeError.
Proof. apply (generateHanoiSolution_below_one 1000 0 0 2 1 []). lia. Defined.

(** A step between two different towers out of [a], [b] and [c]. *)
Lemma generateHanoiSolution_steps_between (stack : nat) :
  forall (n : Z) (a b c : nat) (steps steps' : list Move),
    a <> b -> a <> c -> b <> c ->
    Game.generateHanoiSolution stack n a b c steps = Ok steps' ->
    exists sol,
      steps' = steps ++ sol /\
      Forall (fun s =>
                fromTower s <> toTower s /\
                (fromTower s = a \/ fromTower s = b \/ fromTower s = c) /\
                (toTower s = a \/ toTower s = b \/ toTower s = c))
             sol.
Proof.
  induction stack as [|stack IH]; intros n a b c steps steps' Hab Hac Hbc;
    [discriminate|].
  simpl. destruct (n =? 1).
  - intros [= <-]. exists [mkMove a b]. split; [reflexivity|].
    constructor; [|constructor]. simpl. auto.
  - destruct (Game.generateHanoiSolution stack (n - 1) a c b steps)
      as [s1| |] eqn:E1; simpl; try discriminate.
    intros E2.
    apply IH in E1 as (sol1 & -> & F1); auto.
    apply IH in E2 as (sol2 & -> & F2); auto.
    exists (sol1 ++ [mkMove a b] ++ sol2). split; [now rewrite <- !app_assoc|].
    apply Forall_app. split.
    + eapply Forall_impl; [exact F1|]. simpl. intros s (H1 & H2 & H3). tauto.
    + constructor; [simpl; auto|].
      eapply Forall_impl; [exact F2|]. simpl. intros s (H1 & H2 & H3). tauto.
Qed.

(** Whatever [n], when [generateHanoiSolution] returns, on three
    different towers, it has kept the steps it was given, put its own
    after them, and each of its steps goes from one of the three towers
    to another of them. *)
Theorem generateHanoiSolution_appends_legal_steps
    (stack : nat) (n : Z) (a b c : nat) (steps steps' : list Move) :
  a <> b -> a <> c -> b <> c ->
  Game.generateHanoiSolution stack n a b c steps = Ok steps' ->
  exists sol,
    steps' = steps ++ sol /\
    Forall (fun s =>
              fromTower s <> toTower s /\
              (fromTower s = a \/ fromTower s = b \/ fromTower s = c) /\
              (toTower s = a \/ toTower s = b \/ toTower s = c))
           sol.
Proof. apply generateHanoiSolution_steps_between. Qed.

(** Two disks from tower 0 to tower 2, after a step already in [steps]. *)
Lemma generateHanoiSolution_appends_legal_steps_witness :
  exists sol,
    [mkMove 1 0; mkMove 0 1; mkMove 0 2; mkMove 1 2] = [mkMove 1 0] ++ sol /\
    Forall (fun s =>
              fromTower s <> toTower s /\
              (fromTower s = 0%nat \/ fromTower s = 2%nat \/ fromTower s = 1%nat) /\
              (toTower s = 0%nat \/ toTower s = 2%nat \/ toTower s = 1%nat))
           sol.
Proof.
  apply (generateHanoiSolution_appends_legal_steps 2 2 0 2 1
           [mkMove 1 0] [mkMove 1 0; mkMove 0 1; mkMove 0 2; mkMove 1 2]);
    try lia.
  reflexivity.
Defined.

(** ** What the helpers leave alone *)

Lemma sameSettings_refl (g : Game.t) : sameSettings g g.
Proof. repeat split. Qed.

Lemma sameSettings_trans (g1 g2 g3 : Game.t) :
  sameSettings g1 g2 -> sameSettings g2 g3 -> sameSettings g1 g3.
Proof.
  unfold sameSettings. intros H12 H23.
  destruct H12 as (?&?&?&?&?&?&?&?&?&?&?), H23 as (?&?&?&?&?&?&?&?&?&?&?).
  repeat split; congruence.
Qed.

Lemma towerAddDisk_settings (ti : nat) (d : Disk) (g g' : Game.t) :
  Game.towerAddDisk ti d g = Ok g' -> sameSettings g g'.
Proof.
  unfold Game.towerAddDisk.
  destruct (Game.towers g !! ti); simpl; [|discriminate].
  intros [= <-]. repeat split.
Qed.

Lemma towerRemoveDisk_settings (ti : nat) (g g' : Game.t) (r : option Disk) :
  Game.towerRemoveDisk ti g = Ok (r, g') -> sameSettings g g'.
Proof.
  unfold Game.towerRemoveDisk.
  destruct (Game.towers g !! ti) as [tw|]; simpl; [|discriminate].
  destruct (Tower.removeDisk tw) as [[d|] tw']; intros [= <- <-]; repeat split.
Qed.

Lemma puzzleLoop_settings (fuel : nat) (rnd : nat -> Q) :
  forall (k : nat) (avail : list Disk) (g g' : Game.t),
    Game.puzzleLoop fuel rnd k avail g = Ok g' -> sameSettings g g'.
Proof.
  induction fuel as [|fuel IH]; intros k avail g g'; simpl.
  - destruct (length avail =? 0)%nat; [|discriminate].
    intros [= <-]. apply sameSettings_refl.
  - destruct (length avail =? 0)%nat.
    { intros [= <-]. apply sameSettings_refl. }
    destruct (nthZ (Game.towers g) _) as [tower|]; simpl; [|discriminate].
    match goal with
    | |- context [List.filter ?p avail] => set (valid := List.filter p avail)
    end.
    destruct (0 <? length valid)%nat; [|apply IH].
    destruct (nthZ valid _) as [selected|]; simpl; [|discriminate].
    destruct (Game.towerAddDisk _ selected g) as [g1| |] eqn:Hadd; simpl;
      try discriminate.
    intros H. apply IH in H. apply towerAddDisk_settings in Hadd.
    eapply sameSettings_trans; eauto.
Qed.

Lemma stackOnFirst_settings (l : list Disk) :
  forall (g g' : Game.t),
    Game.stackOnFirst l (Ok g) = Ok g' -> sameSettings g g'.
Proof.
  induction l as [|d l IH]; intros g g'; simpl.
  - intros [= <-]. apply sameSettings_refl.
  - destruct (Game.towerAddDisk 0 d g) as [g1| |] eqn:Hadd.
    + intros H. apply IH in H. apply towerAddDisk_settings in Hadd.
      eapply sameSettings_trans; eauto.
    + intros H. now apply stackOnFirst_not_Ok in H.
    + intros H. now apply stackOnFirst_not_Ok in H.
Qed.

Lemma foldl_newDisk_settings (l : list nat) (g : Game.t) :
  Game.numDisks (foldl Game.newDisk g l) = Game.numDisks g /\
  Game.moves (foldl Game.newDisk g l) = Game.moves g /\
  Game.timer (foldl Game.newDisk g l) = Game.timer g /\
  Game.timerInterval (foldl Game.newDisk g l) = Game.timerInterval g /\
  Game.solutionInterval (foldl Game.newDisk g l) = Game.solutionInterval g /\
  Game.draggingDisk (foldl Game.newDisk g l) = Game.draggingDisk g /\
  Game.isGameOver (foldl Game.newDisk g l) = Game.isGameOver g /\
  Game.gameMode (foldl Game.newDisk g l) = Game.gameMode g /\
  Game.timeLimit (foldl Game.newDisk g l) = Game.timeLimit g /\
  Game.bestScore (foldl Game.newDisk g l) = Game.bestScore g.
Proof.
  revert g. induction l as [|x l IH]; intros g; simpl; [repeat split|].
  destruct (IH (Game.newDisk g x)) as (?&?&?&?&?&?&?&?&?&?).
  repeat split; simpl in *; congruence.
Qed.

(** [createDisks], started without disks, makes the disks of the
    canonical stack and changes nothing else but the towers. *)
Lemma createDisks_settings (fuel : nat) (rnd : nat -> Q) (g g' : Game.t) :
  Game.disks g = [] ->
  Game.createDisks fuel rnd g = Ok g' ->
  Game.disks g' = canonicalStack (Game.numDisks g) /\
  Game.numDisks g' = Game.numDisks g /\
  Game.moves g' = Game.moves g /\
  Game.timer g' = Game.timer g /\
  Game.timerInterval g' = Game.timerInterval g /\
  Game.solutionInterval g' = Game.solutionInterval g /\
  Game.draggingDisk g' = Game.draggingDisk g /\
  Game.isGameOver g' = Game.isGameOver g /\
  Game.gameMode g' = Game.gameMode g /\
  Game.timeLimit g' = Game.timeLimit g /\
  Game.bestScore g' = Game.bestScore g.
Proof.
  intros Hdisks. unfold Game.createDisks.
  destruct (foldl_newDisk (seq 0 (Z.to_nat (Game.numDisks g))) g)
    as (_ & Hd & _ & _).
  destruct (foldl_newDisk_settings (seq 0 (Z.to_nat (Game.numDisks g))) g)
    as (?&?&?&?&?&?&?&?&?&?).
  set (g1 := foldl Game.newDisk g _) in *.
  rewrite Hdisks in Hd. simpl in Hd.
  intros E.
  assert (Hs : sameSettings g1 g').
  { destruct (Game.gameMode g1).
    - now apply stackOnFirst_settings in E.
    - now apply stackOnFirst_settings in E.
    - now apply stackOnFirst_settings in E.
    - now apply puzzleLoop_settings in E. }
  destruct Hs as (?&?&?&?&?&?&?&?&?&?&?).
  unfold canonicalStack. repeat split; congruence.
Qed.

(** ** A new game *)

Lemma setupGameMode_mode (g : Game.t) :
  Game.gameMode (Game.setupGameMode g) = Game.gameMode g /\
  Game.numDisks (Game.setupGameMode g) = Game.numDisks g.
Proof.
  unfold Game.setupGameMode. destruct (Game.gameMode g) eqn:E; simpl; auto.
Qed.

(** What [resetGame] leaves behind, in every mode, when it returns. *)
Lemma resetGame_fields (fuel : nat) (rnd : nat -> Q) (g g' : Game.t) :
  Game.resetGame fuel rnd g = Ok g' ->
  Game.disks g' = canonicalStack (Game.numDisks g) /\
  Game.numDisks g' = Game.numDisks g /\
  Game.moves g' = 0%nat /\
  Game.isGameOver g' = false /\
  Game.draggingDisk g' = None /\
  Game.gameMode g' = Game.gameMode g /\
  Game.bestScore g' = Game.bestScore g /\
  Game.solutionInterval g' = Game.solutionInterval g /\
  match Game.gameMode g with
  | contrarreloj =>
      Game.timeLimit g' = Game.numDisks g * 20 /\
      Game.timer g' = Game.numDisks g * 20 /\
      Game.timerInterval g' = Some Countdown
  | _ =>
      Game.timeLimit g' = Game.timeLimit g /\
      Game.timer g' = 0 /\
      Game.timerInterval g' = None
  end.
Proof.
  unfold Game.resetGame.
  match goal with
  | |- context [Game.createDisks fuel rnd ?x] => set (g1 := x)
  end.
  destruct (Game.createDisks fuel rnd g1) as [g2| |] eqn:E; simpl;
    try discriminate.
  intros [= <-].
  apply createDisks_settings in E.
  2:{ subst g1. now rewrite (proj2 (setupGameMode_keeps _)). }
  destruct E as (Hd & Hn & Hm & Ht & Hti & Hs & Hdr & Hgo & Hmode & Htl & Hb).
  simpl. rewrite Hd, Hn, Hm, Ht, Hti, Hs, Hdr, Hgo, Hmode, Htl, Hb.
  subst g1. unfold Game.setupGameMode. simpl.
  destruct (Game.gameMode g) eqn:Hg; simpl; repeat split; exact Hg.
Qed.

(** In modes normal, contrarreloj and desafio, [resetGame] on a game
    with its three towers returns with the canonical start: all disks,
    sizes [numDisks .. 1], on tower 0 and nothing elsewhere, the move
    counter at 0, the game not over and no disk dragged; in mode
    contrarreloj the countdown is armed with 20 seconds per disk, in the
    other two the timer shows 0 and waits for the first pick. *)
Theorem resetGame_canonical_start (fuel : nat) (rnd : nat -> Q) (g : Game.t) :
  Game.gameMode g <> puzzle ->
  length (Game.towers g) = 3%nat ->
  exists g',
    Game.resetGame fuel rnd g = Ok g' /\
    canonicalLayout (Game.numDisks g) g' /\
    Game.disks g' = canonicalStack (Game.numDisks g) /\
    Game.moves g' = 0%nat /\
    Game.isGameOver g' = false /\
    Game.draggingDisk g' = None /\
    match Game.gameMode g with
    | contrarreloj =>
        Game.timer g' = Game.numDisks g * 20 /\
        Game.timerInterval g' = Some Countdown
    | _ => Game.timer g' = 0 /\ Game.timerInterval g' = None
    end.
Proof.
  intros Hmode Hlen.
  assert (Hex : exists g', Game.resetGame fuel rnd g = Ok g' /\
                           canonicalLayout (Game.numDisks g) g').
  { unfold Game.resetGame.
    destruct (Game.towers g) as [|t0 [|t1 [|t2 [|t3 ts]]]] eqn:Htw;
      try discriminate.
    match goal with
    | |- context [Game.createDisks fuel rnd ?x] =>
        destruct (createDisks_canonical fuel rnd x (Tower.mk (Tower.id t0) []))
          as (g1 & E & Htw1 & _)
    end.
    - now rewrite (proj1 (setupGameMode_mode _)).
    - now rewrite (proj2 (setupGameMode_keeps _)).
    - rewrite (proj1 (setupGameMode_keeps _)). simpl. now rewrite Htw.
    - rewrite E. simpl. eexists. split; [reflexivity|].
      unfold canonicalLayout. simpl. rewrite Htw1.
      rewrite (proj1 (setupGameMode_keeps _)), (proj2 (setupGameMode_mode _)).
      simpl. now rewrite Htw. }
  destruct Hex as (g' & E & Hcanon). exists g'.
  destruct (resetGame_fields fuel rnd g g' E)
    as (Hd & _ & Hm & Hgo & Hdr & _ & _ & _ & Htimer).
  repeat (split; [assumption|]).
  destruct (Game.gameMode g); tauto.
Qed.

(** A timed game of five disks. *)
Lemma resetGame_canonical_start_witness :
  exists g',
    Game.resetGame 0 (fun _ => 0%Q) (initialGame 5 contrarreloj) = Ok g' /\
    canonicalLayout 5 g' /\
    Game.disks g' = canonicalStack 5 /\
    Game.moves g' = 0%nat /\
    Game.isGameOver g' = false /\
    Game.draggingDisk g' = None /\
    Game.timer g' = 5 * 20 /\
    Game.timerInterval g' = Some Countdown.
Proof.
  apply (resetGame_canonical_start 0 (fun _ => 0%Q) (initialGame 5 contrarreloj)).
  - discriminate.
  - reflexivity.
Defined.

(** [resetGame] does not stop a solution that is being played: in every
    mode the steps not yet played stay scheduled, and the interval goes
    on applying them to the new game.  ([showSolution] itself clears the
    interval before it arms a new one.) *)
Theorem resetGame_keeps_solution_running
    (fuel : nat) (rnd : nat -> Q) (g g' : Game.t) :
  Game.resetGame fuel rnd g = Ok g' ->
  Game.solutionInterval g' = Game.solutionInterval g.
Proof.
  intros E. now destruct (resetGame_fields fuel rnd g g' E)
    as (_ & _ & _ & _ & _ & _ & _ & Hs & _).
Qed.

(** The reset button pressed two steps into the solution of a 3-disk
    game: five steps are still scheduled afterwards. *)
Lemma resetGame_keeps_solution_running_witness :
  let playing :=
    returned game3
      (g1 ← Game.showSolution 3 0 (fun _ => 0%Q) game3;
       Game.solutionTicks 2 g1) in
  Game.solutionInterval
    (returned playing (Game.resetGame 0 (fun _ => 0%Q) playing))
  = Game.solutionInterval playing /\
  Game.solutionInterval playing
  = Some [mkMove 2 1; mkMove 0 2; mkMove 1 0; mkMove 1 2; mkMove 0 2].
Proof.
  intros playing. split; [|vm_compute; reflexivity].
  apply (resetGame_keeps_solution_running 0 (fun _ => 0%Q) playing).
  vm_compute. reflexivity.
Defined.

(** ** Where the disks are *)

Lemma Disk_eqb_eq (a b : Disk) : Disk_eqb a b = true <-> a = b.
Proof.
  destruct a as [sa ia], b as [sb ib]. unfold Disk_eqb. simpl.
  rewrite andb_true_iff, Z.eqb_eq, Nat.eqb_eq. split.
  - now intros [-> ->].
  - now intros [= -> ->].
Qed.

(** Filtering one disk out of a list without repeats takes exactly that
    disk away. *)
Lemma filter_out_selected (selected : Disk) (l : list Disk) :
  NoDup l -> selected ∈ l ->
  l ≡ₚ selected :: List.filter (fun disk => negb (Disk_eqb disk selected)) l /\
  NoDup (List.filter (fun disk => negb (Disk_eqb disk selected)) l).
Proof.
  induction l as [|x l IH]; intros Hnd Hin; [now apply elem_of_nil in Hin|].
  apply NoDup_cons in Hnd as [Hx Hnd]. simpl.
  assert (Hkeep : forall y, y ∈ List.filter
                    (fun disk => negb (Disk_eqb disk selected)) l -> y ∈ l).
  { intros y Hy. apply list_elem_of_In in Hy. apply filter_In in Hy as [Hy _].
    now apply list_elem_of_In. }
  destruct (Disk_eqb x selected) eqn:E; simpl.
  - apply Disk_eqb_eq in E. subst x.
    assert (Hid : List.filter (fun disk => negb (Disk_eqb disk selected)) l = l).
    { clear IH Hin Hnd Hkeep. induction l as [|y l IHl]; [reflexivity|].
      simpl. destruct (Disk_eqb y selected) eqn:Ey.
      - apply Disk_eqb_eq in Ey. subst y. exfalso. apply Hx. constructor.
      - simpl. f_equal. apply IHl. intros H. apply Hx. now constructor. }
    rewrite Hid. now split.
  - apply elem_of_cons in Hin as [->|Hin].
    + assert (Disk_eqb x x = true) by now apply Disk_eqb_eq. congruence.
    + destruct (IH Hnd Hin) as [Hp Hn]. split.
      * rewrite Hp at 1. apply perm_swap.
      * apply NoDup_cons. split; [|exact Hn]. intros H. apply Hx. auto.
Qed.

Lemma insertBySize_perm (d : Disk) (l : list Disk) :
  Game.insertBySize d l ≡ₚ d :: l.
Proof.
  induction l as [|x l IH]; [reflexivity|]. simpl.
  destruct (size d <? size x); [|reflexivity].
  rewrite IH. apply perm_swap.
Qed.

(** The sort keeps the disks it is given. *)
Lemma sortBySizeDesc_perm (l : list Disk) : Game.sortBySizeDesc l ≡ₚ l.
Proof.
  induction l as [|x l IH]; [reflexivity|].
  unfold Game.sortBySizeDesc in *. simpl. now rewrite insertBySize_perm, IH.
Qed.

Lemma canonicalStack_NoDup (n : Z) : NoDup (canonicalStack n).
Proof.
  unfold canonicalStack.
  apply (NoDup_fmap_2_strong (fun i : nat => mkDisk (n - Z.of_nat i) i)).
  - intros x y _ _ H. now injection H.
  - apply NoDup_seq.
Qed.

(** Replacing the tower at index [i]: the disks before and after it stay. *)
Lemma disks_around (ts : list Tower.t) (i : nat) (tw : Tower.t) :
  ts !! i = Some tw ->
  exists before after,
    concat (map Tower.disks ts) = before ++ Tower.disks tw ++ after /\
    forall tw',
      concat (map Tower.disks (<[i := tw']> ts))
      = before ++ Tower.disks tw' ++ after.
Proof.
  intros Hi.
  exists (concat (map Tower.disks (take i ts))),
         (concat (map Tower.disks (drop (S i) ts))).
  split.
  - rewrite <- (take_drop_middle ts i tw Hi) at 1.
    now rewrite map_app, concat_app.
  - intros tw'. rewrite insert_take_drop by (eapply lookup_lt_Some; eauto).
    now rewrite map_app, concat_app.
Qed.

Lemma towerAddDisk_disksOnTowers (ti : nat) (d : Disk) (g g' : Game.t) :
  Game.towerAddDisk ti d g = Ok g' ->
  disksOnTowers g' ≡ₚ d :: disksOnTowers g.
Proof.
  unfold Game.towerAddDisk, disksOnTowers.
  destruct (Game.towers g !! ti) as [tw|] eqn:Htw; simpl; [|discriminate].
  intros [= <-]. simpl.
  destruct (disks_around _ _ _ Htw) as (before & after & -> & Hins).
  rewrite Hins. simpl. solve_Permutation.
Qed.

Lemma towerRemoveDisk_disksOnTowers (ti : nat) (g g' : Game.t) (r : option Disk) :
  Game.towerRemoveDisk ti g = Ok (r, g') ->
  match r with
  | Some d => disksOnTowers g ≡ₚ d :: disksOnTowers g'
  | None => g' = g
  end.
Proof.
  unfold Game.towerRemoveDisk, disksOnTowers.
  destruct (Game.towers g !! ti) as [tw|] eqn:Htw; simpl; [|discriminate].
  destruct (Tower.getTopDisk tw) as [d|] eqn:Htop.
  - destruct (getTopDisk_Some_inv _ _ Htop) as [Hds ->].
    intros [= <- <-]. simpl.
    destruct (disks_around _ _ _ Htw) as (before & after & -> & Hins).
    rewrite Hins, Hds. simpl. rewrite removelast_last. solve_Permutation.
  - rewrite getTopDisk_last in Htop. apply last_None in Htop.
    unfold Tower.removeDisk. rewrite Htop. simpl. now intros [= <- <-].
Qed.

(** The loop of [createPuzzleConfiguration] puts each available disk on
    a tower once: when it returns, the towers hold what they held plus
    the disks that were available. *)
Lemma puzzleLoop_disksOnTowers (fuel : nat) (rnd : nat -> Q) :
  forall (k : nat) (avail : list Disk) (g g' : Game.t),
    NoDup avail ->
    Game.puzzleLoop fuel rnd k avail g = Ok g' ->
    disksOnTowers g' ≡ₚ avail ++ disksOnTowers g.
Proof.
  induction fuel as [|fuel IH]; intros k avail g g' Hnd; simpl.
  - destruct avail; simpl; [now intros [= <-] | discriminate].
  - destruct avail as [|a0 avail0] eqn:Hav; [now intros [= <-]|].
    rewrite <- Hav in *.
    replace (length avail =? 0)%nat with false by now rewrite Hav.
    destruct (nthZ (Game.towers g) _) as [tower|]; simpl; [|discriminate].
    match goal with
    | |- context [List.filter ?p avail] => set (valid := List.filter p avail)
    end.
    destruct (0 <? length valid)%nat; [|now apply IH].
    destruct (nthZ valid _) as [selected|] eqn:Hsel; simpl; [|discriminate].
    destruct (Game.towerAddDisk _ selected g) as [g1| |] eqn:Hadd; simpl;
      try discriminate.
    assert (Hin : selected ∈ avail).
    { unfold nthZ in Hsel. destruct (_ <? 0) in Hsel; [discriminate|].
      apply list_elem_of_lookup_2, list_elem_of_In in Hsel.
      subst valid. apply filter_In in Hsel as [Hsel _].
      now apply list_elem_of_In. }
    destruct (filter_out_selected selected avail Hnd Hin) as [Hp Hn].
    intros H. apply IH in H; [|exact Hn].
    rewrite H, (towerAddDisk_disksOnTowers _ _ _ _ Hadd).
    rewrite Hp at 2. solve_Permutation.
Qed.

Lemma disksOnTowers_empty (g : Game.t) :
  (forall i tw, Game.towers g !! i = Some tw -> Tower.disks tw = []) ->
  disksOnTowers g = [].
Proof.
  unfold disksOnTowers. induction (Game.towers g) as [|tw ts IH]; intros H;
    [reflexivity|].
  simpl. rewrite (H 0%nat tw eq_refl). simpl. apply IH.
  intros i tw' Hi. exact (H (S i) tw' Hi).
Qed.

Lemma stackOnFirst_disksOnTowers (l : list Disk) :
  forall (g g' : Game.t),
    Game.stackOnFirst l (Ok g) = Ok g' ->
    disksOnTowers g' ≡ₚ l ++ disksOnTowers g.
Proof.
  induction l as [|d l IH]; intros g g'; simpl; [now intros [= <-]|].
  destruct (Game.towerAddDisk 0 d g) as [g1| |] eqn:Hadd.
  - intros H. apply IH in H.
    rewrite H, (towerAddDisk_disksOnTowers _ _ _ _ Hadd). solve_Permutation.
  - intros H. now apply stackOnFirst_not_Ok in H.
  - intros H. now apply stackOnFirst_not_Ok in H.
Qed.

Lemma createDisks_disksOnTowers (fuel : nat) (rnd : nat -> Q) (g g' : Game.t) :
  Game.disks g = [] ->
  (forall i tw, Game.towers g !! i = Some tw -> Tower.disks tw = []) ->
  Game.createDisks fuel rnd g = Ok g' ->
  disksOnTowers g' ≡ₚ canonicalStack (Game.numDisks g).
Proof.
  intros Hdisks Hempty. unfold Game.createDisks.
  destruct (foldl_newDisk (seq 0 (Z.to_nat (Game.numDisks g))) g)
    as (Ht & Hd & _ & _).
  set (g1 := foldl Game.newDisk g _) in *.
  rewrite Hdisks in Hd. simpl in Hd. fold (canonicalStack (Game.numDisks g)) in Hd.
  assert (H1 : disksOnTowers g1 = []).
  { apply disksOnTowers_empty. now rewrite Ht. }
  intros E.
  assert (Hp : disksOnTowers g' ≡ₚ Game.disks g1 ++ disksOnTowers g1).
  { destruct (Game.gameMode g1).
    - now apply stackOnFirst_disksOnTowers.
    - now apply stackOnFirst_disksOnTowers.
    - now apply stackOnFirst_disksOnTowers.
    - unfold Game.createPuzzleConfiguration in E.
      apply puzzleLoop_disksOnTowers in E.
      + now rewrite E, sortBySizeDesc_perm.
      + rewrite sortBySizeDesc_perm, Hd. apply canonicalStack_NoDup. }
  now rewrite Hp, H1, app_nil_r, Hd.
Qed.

Lemma resetGame_disksOnTowers (fuel : nat) (rnd : nat -> Q) (g g' : Game.t) :
  Game.resetGame fuel rnd g = Ok g' ->
  disksOnTowers g' ≡ₚ canonicalStack (Game.numDisks g).
Proof.
  unfold Game.resetGame.
  match goal with
  | |- context [Game.createDisks fuel rnd ?x] => set (g1 := x)
  end.
  destruct (Game.createDisks fuel rnd g1) as [g2| |] eqn:E1; simpl;
    try discriminate.
  intros [= <-]. unfold disksOnTowers. simpl.
  apply createDisks_disksOnTowers in E1.
  - subst g1. rewrite (proj2 (setupGameMode_mode _)) in E1. exact E1.
  - subst g1. now rewrite (proj2 (setupGameMode_keeps _)).
  - subst g1. intros i tw. rewrite (proj1 (setupGameMode_keeps _)).
    apply clearDisks_empties.
Qed.

(** Whenever [resetGame] returns, in any mode, the puzzle distribution
    included, the disks on the towers are exactly the [numDisks] disks it
    has created, each on one tower once, none left over, and every tower
    is strictly descending. *)
Theorem resetGame_places_every_disk_once
    (fuel : nat) (rnd : nat -> Q) (g g' : Game.t) :
  Game.resetGame fuel rnd g = Ok g' ->
  disksOnTowers g' ≡ₚ Game.disks g' /\
  Game.disks g' = canonicalStack (Game.numDisks g') /\
  NoDup (disksOnTowers g') /\
  allDescending (Game.towers g').
Proof.
  intros E.
  destruct (resetGame_fields fuel rnd g g' E) as (Hd & Hn & _).
  pose proof (resetGame_descending fuel rnd g g' E) as Hdesc.
  pose proof (resetGame_disksOnTowers fuel rnd g g' E) as Hp.
  rewrite Hd, Hn. split; [exact Hp|]. split; [reflexivity|].
  split; [|exact Hdesc]. rewrite Hp. apply canonicalStack_NoDup.
Qed.

(** Four disks scattered in mode puzzle: 4 and 1 on tower 0, 3 on tower
    1, 2 on tower 2. *)
Lemma resetGame_places_every_disk_once_witness :
  let g' :=
    returned (initialGame 4 puzzle)
      (Game.resetGame 9
         (prefixed [0; 0; 1 # 3; 0; 2 # 3; 0; 0; 0]%Q (fun _ => 0%Q))
         (initialGame 4 puzzle)) in
  map (fun tw => sizes (Tower.disks tw)) (Game.towers g') = [[4; 1]; [3]; [2]] /\
  disksOnTowers g' ≡ₚ Game.disks g' /\
  Game.disks g' = canonicalStack (Game.numDisks g') /\
  NoDup (disksOnTowers g') /\
  allDescending (Game.towers g').
Proof.
  intros g'. split; [vm_compute; reflexivity|].
  apply (resetGame_places_every_disk_once 9
           (prefixed [0; 0; 1 # 3; 0; 2 # 3; 0; 0; 0]%Q (fun _ => 0%Q))
           (initialGame 4 puzzle) g').
  vm_compute. reflexivity.
Defined.

(** ** An accepted drop *)

Lemma saveBestScore_keeps (g : Game.t) :
  Game.towers (Game.saveBestScore g) = Game.towers g /\
  Game.moves (Game.saveBestScore g) = Game.moves g /\
  Game.currentTower (Game.saveBestScore g) = Game.currentTower g /\
  Game.draggingDisk (Game.saveBestScore g) = Game.draggingDisk g /\
  Game.numDisks (Game.saveBestScore g) = Game.numDisks g /\
  Game.isGameOver (Game.saveBestScore g) = Game.isGameOver g /\
  Game.timerInterval (Game.saveBestScore g) = Game.timerInterval g /\
  Game.timer (Game.saveBestScore g) = Game.timer g /\
  Game.gameMode (Game.saveBestScore g) = Game.gameMode g.
Proof.
  unfold Game.saveBestScore.
  destruct (Game.gameMode g) eqn:Hm; try (repeat split; assumption).
  destruct (Game.bestScore g); [|repeat split; assumption].
  destruct (_ || _); repeat split; assumption.
Qed.

(** [checkWinCondition()] on a game that has its goal tower. *)
Lemma checkWinCondition_spec (g : Game.t) (goal : Tower.t) :
  Game.towers g !! 2%nat = Some goal ->
  exists g',
    Game.checkWinCondition g = Ok g' /\
    Game.towers g' = Game.towers g /\
    Game.moves g' = Game.moves g /\
    Game.currentTower g' = Game.currentTower g /\
    Game.draggingDisk g' = Game.draggingDisk g /\
    Game.numDisks g' = Game.numDisks g /\
    Game.isGameOver g'
    = Game.isGameOver g || Tower.isComplete goal (Game.numDisks g).
Proof.
  intros Hgoal. unfold Game.checkWinCondition. rewrite Hgoal. simpl.
  destruct (Tower.isComplete goal (Game.numDisks g)).
  - eexists. split; [reflexivity|]. unfold Game.gameOver.
    match goal with
    | |- context [Game.saveBestScore ?x] =>
        destruct (saveBestScore_keeps x) as (-> & -> & -> & -> & -> & -> & _)
    end.
    simpl. rewrite orb_true_r. repeat split.
  - exists g. rewrite orb_false_r. repeat split.
Qed.

Lemma dropDisk_accepts
    (g : Game.t) (dist : nat -> Q) (disk : Disk) (origin target : nat)
    (tsrc ttgt : Tower.t) :
  Game.draggingDisk g = Some disk ->
  Game.currentTower g !! index disk = Some origin ->
  Game.findClosestTower dist g = Some target ->
  target <> origin ->
  Game.towers g !! origin = Some tsrc ->
  Game.towers g !! target = Some ttgt ->
  Tower.canAddDisk ttgt disk = true ->
  (2 < length (Game.towers g))%nat ->
  exists g',
    Game.dropDisk dist g = Ok g' /\
    Game.towers g'
    = <[target := Tower.addDisk ttgt disk]>
        (<[origin := Tower.mk (Tower.id tsrc) (removelast (Tower.disks tsrc))]>
           (Game.towers g)) /\
    Game.moves g' = S (Game.moves g) /\
    Game.draggingDisk g' = None /\
    Game.currentTower g' !! index disk = Some target /\
    (forall goal,
       Game.towers g' !! 2%nat = Some goal ->
       Game.isGameOver g'
       = Game.isGameOver g || Tower.isComplete goal (Game.numDisks g)).
Proof.
  intros Hdrag Hcur Hclosest Hne Hsrc Htgt Hcan Hlen.
  unfold Game.dropDisk. rewrite Hdrag, Hclosest, Htgt, Hcur. simpl.
  rewrite bool_decide_eq_false_2 by congruence. rewrite Hcan. simpl.
  assert (Hrm : exists r g1,
             Game.towerRemoveDisk origin g = Ok (r, g1) /\
             Game.towers g1
             = <[origin := Tower.mk (Tower.id tsrc) (removelast (Tower.disks tsrc))]>
                 (Game.towers g) /\
             Game.moves g1 = Game.moves g /\
             Game.numDisks g1 = Game.numDisks g /\
             Game.isGameOver g1 = Game.isGameOver g).
  { unfold Game.towerRemoveDisk. rewrite Hsrc. simpl. unfold Tower.removeDisk.
    destruct (Tower.disks tsrc) as [|x xs] eqn:Hds.
    - simpl. exists None, g. split; [reflexivity|]. repeat split.
      symmetry. apply list_insert_id. rewrite Hsrc. f_equal.
      destruct tsrc. simpl in *. now subst.
    - change (length (x :: xs) =? 0)%nat with false. cbv iota.
      destruct (last (x :: xs)) as [top|] eqn:Hlast.
      + eexists _, _. split; [reflexivity|]. repeat split.
      + apply last_None in Hlast. discriminate. }
  destruct Hrm as (r & g1 & -> & Ht1 & Hm1 & Hn1 & Ho1). simpl.
  unfold Game.towerAddDisk. rewrite Ht1.
  rewrite list_lookup_insert_ne by congruence. rewrite Htgt. simpl.
  match goal with
  | |- context [Game.checkWinCondition ?x] => set (g2 := x)
  end.
  assert (Hlen2 : (2 < length (Game.towers g2))%nat).
  { subst g2. simpl. rewrite !length_insert. exact Hlen. }
  destruct (lookup_lt_is_Some_2 _ _ Hlen2) as [goal Hgoal].
  destruct (checkWinCondition_spec g2 goal Hgoal)
    as (g3 & -> & Ht3 & Hm3 & Hc3 & Hd3 & Hn3 & Ho3).
  simpl. exists (Game.set_draggingDisk None g3). split; [reflexivity|].
  simpl. rewrite Ht3, Hm3, Hc3. subst g2. simpl. rewrite Hm1.
  repeat split.
  - apply lookup_insert_eq.
  - intros goal' Hgoal'. rewrite Ho3. simpl. rewrite Ho1, Hn1.
    simpl in Hgoal. congruence.
Qed.

(** What [dropDisk] does when it accepts the drop, in a game with its
    three towers: the dragged disk has a tower, the nearest tower is
    another one and can take the disk.  The call returns, the disk's
    tower loses its top disk (the dragged disk, unless something else was put
    on it during the drag), the nearest tower gets the dragged disk on
    top, every other tower stays, the move counter goes up by one, the
    drag is over, and the game is over afterwards if it was before or if
    tower 2 is now complete. *)
Theorem dropDisk_accepted
    (g : Game.t) (dist : nat -> Q) (disk : Disk) (origin target : nat)
    (tsrc ttgt : Tower.t) :
  Game.draggingDisk g = Some disk ->
  Game.currentTower g !! index disk = Some origin ->
  Game.findClosestTower dist g = Some target ->
  target <> origin ->
  Game.towers g !! origin = Some tsrc ->
  Game.towers g !! target = Some ttgt ->
  Tower.canAddDisk ttgt disk = true ->
  (2 < length (Game.towers g))%nat ->
  exists g',
    Game.dropDisk dist g = Ok g' /\
    Game.towers g'
    = <[target := Tower.addDisk ttgt disk]>
        (<[origin := Tower.mk (Tower.id tsrc) (removelast (Tower.disks tsrc))]>
           (Game.towers g)) /\
    Game.moves g' = S (Game.moves g) /\
    Game.draggingDisk g' = None /\
    Game.currentTower g' !! index disk = Some target /\
    (forall goal,
       Game.towers g' !! 2%nat = Some goal ->
       Game.isGameOver g'
       = Game.isGameOver g || Tower.isComplete goal (Game.numDisks g)).
Proof. apply dropDisk_accepts. Qed.

(** The smallest disk of a fresh 3-disk game dropped over tower 2. *)
Lemma dropDisk_accepted_witness :
  let g := Game.onMouseDown (Some 0%nat) game3 in
  exists g',
    Game.dropDisk (releasedOver 2) g = Ok g' /\
    Game.towers g'
    = <[2%nat := Tower.addDisk (Tower.mk 2 []) (mkDisk 1 2)]>
        (<[0%nat := Tower.mk 0 (removelast (canonicalStack 3))]>
           (Game.towers g)) /\
    Game.moves g' = S (Game.moves g) /\
    Game.draggingDisk g' = None /\
    Game.currentTower g' !! 2%nat = Some 2%nat /\
    (forall goal,
       Game.towers g' !! 2%nat = Some goal ->
       Game.isGameOver g'
       = Game.isGameOver g || Tower.isComplete goal (Game.numDisks g)).
Proof.
  apply (dropDisk_accepted (Game.onMouseDown (Some 0%nat) game3)
           (releasedOver 2) (mkDisk 1 2) 0 2
           (Tower.mk 0 (canonicalStack 3)) (Tower.mk 2 []));
    try reflexivity.
  - discriminate.
  - simpl. lia.
Defined.

(** A drop that [dropDisk] turns down: the nearest tower is the disk's
    own or cannot take it. *)
Lemma dropDisk_rejects
    (g : Game.t) (dist : nat -> Q) (disk : Disk) (origin target : nat)
    (ttgt : Tower.t) :
  Game.draggingDisk g = Some disk ->
  Game.currentTower g !! index disk = Some origin ->
  Game.findClosestTower dist g = Some target ->
  Game.towers g !! target = Some ttgt ->
  target = origin \/ Tower.canAddDisk ttgt disk = false ->
  exists g',
    Game.dropDisk dist g = Ok g' /\
    Game.towers g' = Game.towers g /\
    Game.moves g' = Game.moves g.
Proof.
  intros Hdrag Hcur Hclosest Htgt Hcase.
  unfold Game.dropDisk. rewrite Hdrag, Hclosest, Htgt, Hcur. simpl.
  destruct Hcase as [->|Hcan].
  - rewrite bool_decide_eq_true_2 by reflexivity. simpl.
    eexists. split; [reflexivity|]. now simpl.
  - rewrite Hcan, andb_false_r. simpl.
    eexists. split; [reflexivity|]. now simpl.
Qed.



(** ** What a played solution leaves alone *)

(** One step of the automatic solution, played or skipped. *)
Lemma executeAutoMove_frame (i j : nat) (g g' : Game.t) :
  Game.executeAutoMove i j g = Ok g' ->
  disksOnTowers g' ≡ₚ disksOnTowers g /\
  (Game.moves g' = Game.moves g \/ Game.moves g' = S (Game.moves g)) /\
  Game.isGameOver g' = Game.isGameOver g /\
  Game.bestScore g' = Game.bestScore g /\
  Game.timerInterval g' = Game.timerInterval g /\
  Game.timer g' = Game.timer g /\
  Game.numDisks g' = Game.numDisks g /\
  Game.draggingDisk g' = Game.draggingDisk g /\
  Game.solutionInterval g' = Game.solutionInterval g.
Proof.
  unfold Game.executeAutoMove.
  destruct (Game.towers g !! i) as [tf|] eqn:Hf; simpl; [|discriminate].
  destruct (Tower.getTopDisk tf) as [d|] eqn:Htop;
    [|intros [= <-]; repeat split; auto].
  destruct (Game.towers g !! j) as [tt|] eqn:Ht; simpl; [|discriminate].
  destruct (Tower.canAddDisk tt d) eqn:Hc;
    [|intros [= <-]; repeat split; auto].
  destruct (Game.towerRemoveDisk i g) as [[r g1]| |] eqn:Hrm; simpl;
    try discriminate.
  destruct (Game.towerAddDisk j d g1) as [g2| |] eqn:Hadd; simpl;
    try discriminate.
  intros [= <-].
  pose proof (towerRemoveDisk_settings _ _ _ _ Hrm) as S1.
  pose proof (towerAddDisk_settings _ _ _ _ Hadd) as S2.
  destruct (sameSettings_trans _ _ _ S1 S2) as (?&?&?&?&?&?&?&?&?&?&?).
  pose proof (towerRemoveDisk_disksOnTowers _ _ _ _ Hrm) as P1.
  pose proof (towerAddDisk_disksOnTowers _ _ _ _ Hadd) as P2.
  assert (Hr : r = Some d).
  { unfold Game.towerRemoveDisk in Hrm. rewrite Hf in Hrm. simpl in Hrm.
    rewrite (proj2 (getTopDisk_Some_inv _ _ Htop)) in Hrm. now injection Hrm. }
  subst r. unfold disksOnTowers in *. simpl.
  split; [now rewrite P2, P1|]. repeat split; auto.
Qed.




Lemma dropDisk_returns
    (dist : nat -> Q) (g : Game.t) (disk : Disk) (origin : nat) :
  Game.draggingDisk g = Some disk ->
  Game.currentTower g !! index disk = Some origin ->
  (origin < length (Game.towers g))%nat ->
  (2 < length (Game.towers g))%nat ->
  exists g', Game.dropDisk dist g = Ok g'.
Proof.
  intros Hdrag Hcur Horigin Hlen.
  destruct (lookup_lt_is_Some_2 _ _ Horigin) as [tsrc Hsrc].
  destruct (Game.findClosestTower dist g) as [target|] eqn:Hclosest.
  - pose proof (findClosestTower_spec dist g) as Hspec.
    rewrite Hclosest in Hspec. destruct Hspec as (Hlt & _).
    destruct (lookup_lt_is_Some_2 _ _ Hlt) as [ttgt Htgt].
    destruct (decide (target = origin)) as [Heq|Hne].
    + destruct (dropDisk_rejects g dist disk origin target ttgt)
        as (g' & E & _); auto. eauto.
    + destruct (Tower.canAddDisk ttgt disk) eqn:Hcan.
      * destruct (dropDisk_accepts g dist disk origin target tsrc ttgt)
          as (g' & E & _); auto. eauto.
      * destruct (dropDisk_rejects g dist disk origin target ttgt)
          as (g' & E & _); auto. eauto.
  - unfold Game.dropDisk. rewrite Hdrag, Hclosest, Hcur. simpl. eauto.
Qed.

Lemma dropDisk_conserves
    (dist : nat -> Q) (g g' : Game.t) (disk : Disk) (origin : nat) (tsrc : Tower.t) :
  Game.draggingDisk g = Some disk ->
  Game.currentTower g !! index disk = Some origin ->
  Game.towers g !! origin = Some tsrc ->
  Tower.getTopDisk tsrc = Some disk ->
  Game.dropDisk dist g = Ok g' ->
  disksOnTowers g' ≡ₚ disksOnTowers g /\
  Game.numDisks g' = Game.numDisks g /\
  Game.draggingDisk g' = None.
Proof.
  intros Hdrag Hcur Hsrc Htop. unfold Game.dropDisk. rewrite Hdrag, Hcur.
  destruct (Game.findClosestTower dist g) as [ci|]; simpl;
    [|intros [= <-]; repeat split; reflexivity].
  destruct (Game.towers g !! ci) as [closest|] eqn:Hclosest; simpl;
    [|discriminate].
  destruct (negb _ && Tower.canAddDisk closest disk); simpl;
    [|intros [= <-]; repeat split; reflexivity].
  destruct (Game.towerRemoveDisk origin g) as [[r g1]| |] eqn:Hrm; simpl;
    try discriminate.
  destruct (Game.towerAddDisk ci disk g1) as [g2| |] eqn:Hadd; simpl;
    try discriminate.
  destruct (Game.checkWinCondition _) as [g3| |] eqn:Hwin; simpl;
    try discriminate.
  intros [= <-].
  pose proof (towerRemoveDisk_settings _ _ _ _ Hrm) as S1.
  pose proof (towerAddDisk_settings _ _ _ _ Hadd) as S2.
  destruct (sameSettings_trans _ _ _ S1 S2) as (Hn&_).
  pose proof (towerRemoveDisk_disksOnTowers _ _ _ _ Hrm) as P1.
  pose proof (towerAddDisk_disksOnTowers _ _ _ _ Hadd) as P2.
  assert (Hr : r = Some disk).
  { unfold Game.towerRemoveDisk in Hrm. rewrite Hsrc in Hrm. simpl in Hrm.
    rewrite (proj2 (getTopDisk_Some_inv _ _ Htop)) in Hrm. now injection Hrm. }
  subst r.
  assert (Hgoal : exists goal, Game.towers
            (Game.emit PlayMoveSound
               (Game.updateUI (Game.set_moves (S (Game.moves g2)) g2))) !! 2%nat
            = Some goal).
  { unfold Game.checkWinCondition in Hwin.
    destruct (Game.towers _ !! 2%nat) as [goal|]; [eauto | discriminate]. }
  destruct Hgoal as [goal Hgoal].
  destruct (checkWinCondition_spec _ goal Hgoal)
    as (g3' & E3 & Ht3 & _ & _ & _ & Hn3 & _).
  rewrite E3 in Hwin. injection Hwin as ->.
  unfold disksOnTowers in *. simpl. rewrite Ht3. simpl.
  split; [now rewrite P2, P1|]. split; [|reflexivity].
  rewrite Hn3. simpl. exact Hn.
Qed.

(** In a game with its three towers, if the dragged disk has a tower
    and is the top disk of that tower, every drop, accepted or not,
    returns, neither loses nor doubles a disk, keeps the number of disks
    and ends the drag. *)
Theorem dropDisk_keeps_the_disks
    (dist : nat -> Q) (g : Game.t) (disk : Disk) (origin : nat) (tsrc : Tower.t) :
  Game.draggingDisk g = Some disk ->
  Game.currentTower g !! index disk = Some origin ->
  Game.towers g !! origin = Some tsrc ->
  Tower.getTopDisk tsrc = Some disk ->
  (2 < length (Game.towers g))%nat ->
  exists g',
    Game.dropDisk dist g = Ok g' /\
    disksOnTowers g' ≡ₚ disksOnTowers g /\
    Game.numDisks g' = Game.numDisks g /\
    Game.draggingDisk g' = None.
Proof.
  intros Hdrag Hcur Hsrc Htop Hlen.
  destruct (dropDisk_returns dist g disk origin Hdrag Hcur) as [g' E];
    [eapply lookup_lt_Some; eauto | exact Hlen |].
  exists g'. split; [exact E|].
  exact (dropDisk_conserves dist g g' disk origin tsrc Hdrag Hcur Hsrc Htop E).
Qed.

(** The smallest disk of a fresh 3-disk game dropped over tower 2. *)
Lemma dropDisk_keeps_the_disks_witness :
  let g := Game.onMouseDown (Some 0%nat) game3 in
  exists g',
    Game.dropDisk (releasedOver 2) g = Ok g' /\
    disksOnTowers g' ≡ₚ disksOnTowers g /\
    Game.numDisks g' = Game.numDisks g /\
    Game.draggingDisk g' = None.
Proof.
  apply (dropDisk_keeps_the_disks (releasedOver 2)
           (Game.onMouseDown (Some 0%nat) game3)
           (mkDisk 1 2) 0 (Tower.mk 0 (canonicalStack 3))).
  - reflexivity.
  - reflexivity.
  - reflexivity.
  - reflexivity.
  - simpl. lia.
Defined.

(** ** The end of a game *)

Lemma scoreNoWorse_refl (a : Score) : scoreNoWorse a a.
Proof. right. split; [reflexivity|]. right. split; [reflexivity|lia]. Qed.

(** [gameOver(true)] ends the game and stops the timer without touching
    towers or counter; in mode normal the best score kept afterwards is
    either the old one or the score of this game, and it is no worse
    than either (more disks, then fewer moves, then less time); in the
    other modes, and on [gameOver(false)], the best score stays as it
    was. *)
Theorem gameOver_keeps_the_better_score (g : Game.t) :
  Game.isGameOver (Game.gameOver true g) = true /\
  Game.timerInterval (Game.gameOver true g) = None /\
  Game.towers (Game.gameOver true g) = Game.towers g /\
  Game.moves (Game.gameOver true g) = Game.moves g /\
  match Game.gameMode g with
  | normal =>
      exists best,
        Game.bestScore (Game.gameOver true g) = Some best /\
        (Game.bestScore g = Some best \/
         best = mkScore (Game.numDisks g) (Game.moves g) (Game.timer g)) /\
        scoreNoWorse best (mkScore (Game.numDisks g) (Game.moves g) (Game.timer g)) /\
        (forall old, Game.bestScore g = Some old -> scoreNoWorse best old)
  | _ => Game.bestScore (Game.gameOver true g) = Game.bestScore g
  end /\
  Game.bestScore (Game.gameOver false g) = Game.bestScore g /\
  Game.isGameOver (Game.gameOver false g) = true.
Proof.
  unfold Game.gameOver.
  match goal with
  | |- context [Game.saveBestScore ?x] =>
      destruct (saveBestScore_keeps x) as (Ht & Hm & _ & _ & _ & Ho & Hti & _);
      rewrite Ht, Hm, Ho, Hti; set (g1 := x)
  end.
  simpl. repeat (split; [reflexivity|]).
  split; [|split; reflexivity].
  unfold Game.saveBestScore. subst g1. simpl.
  destruct (Game.gameMode g); try reflexivity.
  destruct (Game.bestScore g) as [old|] eqn:Hold.
  - destruct (_ || _) eqn:Hcond; simpl.
    + eexists. split; [reflexivity|]. split; [now right|].
      split; [apply scoreNoWorse_refl|].
      intros old' [= <-]. unfold scoreNoWorse. simpl.
      apply orb_true_iff in Hcond as [H|H]; [left; lia|].
      apply andb_true_iff in H as [H1 H2]. right. split; [lia|].
      apply orb_true_iff in H2 as [H2|H2]; [left; now apply Nat.ltb_lt|].
      apply andb_true_iff in H2 as [H2 H3]. right.
      apply Nat.eqb_eq in H2. split; [congruence|lia].
    + exists old. split; [exact Hold|]. split; [now left|].
      split; [|intros old' [= <-]; apply scoreNoWorse_refl].
      unfold scoreNoWorse. simpl.
      apply orb_false_iff in Hcond as [H1 H2].
      apply Z.ltb_ge in H1.
      destruct (Z.eqb_spec (scoreDisks old) (Game.numDisks g)) as [He|Hne];
        [|left; lia].
      right. split; [exact He|]. simpl in H2.
      apply orb_false_iff in H2 as [H2 H3].
      apply Nat.ltb_ge in H2.
      destruct (Nat.eqb_spec (scoreMoves old) (Game.moves g)) as [Hm'|Hm'];
        [|left; lia].
      right. split; [exact Hm'|]. simpl in H3. lia.
  - eexists. split; [reflexivity|]. split; [now right|].
    split; [apply scoreNoWorse_refl | discriminate].
Qed.

(** ** The countdown *)

Lemma tick_countdown (g : Game.t) :
  Game.timerInterval g = Some Countdown ->
  Game.towers (Game.tick g) = Game.towers g /\
  Game.bestScore (Game.tick g) = Game.bestScore g /\
  Game.moves (Game.tick g) = Game.moves g /\
  if 1 <? Game.timer g then
    Game.timer (Game.tick g) = Game.timer g - 1 /\
    Game.timerInterval (Game.tick g) = Some Countdown /\
    Game.isGameOver (Game.tick g) = Game.isGameOver g
  else
    Game.timer (Game.tick g) = 0 /\
    Game.timerInterval (Game.tick g) = None /\
    Game.isGameOver (Game.tick g) = true.
Proof.
  intros Hti. unfold Game.tick. rewrite Hti. unfold Game.countdownTick. simpl.
  destruct (Z.ltb_spec 1 (Game.timer g)) as [H1|H1].
  - replace (Game.timer g - 1 <=? 0) with false
      by (symmetry; apply Z.leb_gt; lia).
    destruct ((Game.timer g - 1 <=? 10) && (0 <? Game.timer g - 1)); simpl;
      replace (Game.timer g - 1 <=? 0) with false
        by (symmetry; apply Z.leb_gt; lia);
      simpl; repeat split; assumption.
  - replace (0 <? Game.timer g - 1) with false
      by (symmetry; apply Z.ltb_ge; lia).
    rewrite andb_false_r. simpl.
    replace (Game.timer g - 1 <=? 0) with true
      by (symmetry; apply Z.leb_le; lia).
    simpl. repeat split.
Qed.

Lemma tick_stopped (g : Game.t) :
  Game.timerInterval g = None -> Game.tick g = g.
Proof. intros H. unfold Game.tick. now rewrite H. Qed.

Lemma ticks_S (n : nat) (g : Game.t) : ticks (S n) g = Game.tick (ticks n g).
Proof. reflexivity. Qed.

(** A countdown that shows [t > 0] seconds: it goes down by one per
    tick and the game goes on for the first [t - 1] ticks; the [t]-th
    tick stops the timer at 0 and ends the game; later ticks change
    nothing.  The ticks never touch towers, move counter or best
    score. *)
Lemma countdown_ticks (t : nat) (g : Game.t) :
  Game.timerInterval g = Some Countdown ->
  Game.timer g = Z.of_nat t ->
  (0 < t)%nat ->
  forall k,
    Game.towers (ticks k g) = Game.towers g /\
    Game.bestScore (ticks k g) = Game.bestScore g /\
    Game.moves (ticks k g) = Game.moves g /\
    if (k <? t)%nat then
      Game.timer (ticks k g) = Game.timer g - Z.of_nat k /\
      Game.timerInterval (ticks k g) = Some Countdown /\
      Game.isGameOver (ticks k g) = Game.isGameOver g
    else
      Game.timer (ticks k g) = 0 /\
      Game.timerInterval (ticks k g) = None /\
      Game.isGameOver (ticks k g) = true.
Proof.
  intros Hti Ht Hpos k. induction k as [|k IH].
  - replace (0 <? t)%nat with true by (symmetry; apply Nat.ltb_lt; lia).
    simpl. repeat split; [lia | exact Hti].
  - rewrite ticks_S. destruct IH as (Htw & Hb & Hm & IH).
    destruct (Nat.ltb_spec k t) as [Hk|Hk].
    + destruct IH as (Htimer & Hint & Hover).
      destruct (tick_countdown (ticks k g) Hint) as (Htw' & Hb' & Hm' & Hstep).
      rewrite Htw', Hb', Hm'. repeat (split; [assumption|]).
      destruct (Z.ltb_spec 1 (Game.timer (ticks k g))) as [H1|H1].
      * replace (S k <? t)%nat with true by (symmetry; apply Nat.ltb_lt; lia).
        destruct Hstep as (-> & -> & ->). repeat split; [lia|assumption].
      * replace (S k <? t)%nat with false by (symmetry; apply Nat.ltb_ge; lia).
        exact Hstep.
    + destruct IH as (Htimer & Hint & Hover).
      rewrite (tick_stopped _ Hint).
      replace (S k <? t)%nat with false by (symmetry; apply Nat.ltb_ge; lia).
      repeat split; assumption.
Qed.

(** A timed game: after [resetGame] in mode contrarreloj with
    [numDisks > 0] the countdown starts at [20 * numDisks]; while fewer
    ticks than that have gone by the game is on and the timer shows what
    is left; the tick that brings it to 0 ends the game, without a best
    score; and from then on picking, dropping and the solution button do
    nothing. *)
Theorem timed_game_times_out (fuel : nat) (rnd : nat -> Q) (g g' : Game.t) :
  Game.gameMode g = contrarreloj ->
  0 < Game.numDisks g ->
  Game.resetGame fuel rnd g = Ok g' ->
  Game.timeLimit g' = Game.numDisks g * 20 /\
  (forall k,
     Z.of_nat k < Game.numDisks g * 20 ->
     Game.isGameOver (ticks k g') = false /\
     Game.timer (ticks k g') = Game.numDisks g * 20 - Z.of_nat k) /\
  (forall k,
     Game.numDisks g * 20 <= Z.of_nat k ->
     let lost := ticks k g' in
     Game.isGameOver lost = true /\
     Game.timer lost = 0 /\
     Game.timerInterval lost = None /\
     Game.towers lost = Game.towers g' /\
     Game.bestScore lost = Game.bestScore g /\
     (forall hit, Game.onMouseDown hit lost = lost) /\
     (forall dist, Game.onMouseUp dist lost = Ok lost) /\
     (forall stack fuel' rnd', Game.showSolution stack fuel' rnd' lost = Ok lost)).
Proof.
  intros Hmode Hn E.
  destruct (resetGame_fields fuel rnd g g' E)
    as (_ & _ & _ & Hover & _ & _ & Hbest & _ & Htimer).
  rewrite Hmode in Htimer. destruct Htimer as (Hlimit & Htimer & Hint).
  split; [exact Hlimit|].
  assert (Ht : Game.timer g' = Z.of_nat (Z.to_nat (Game.numDisks g * 20))) by lia.
  assert (Hpos : (0 < Z.to_nat (Game.numDisks g * 20))%nat) by lia.
  pose proof (countdown_ticks _ g' Hint Ht Hpos) as Hticks.
  split.
  - intros k Hk. destruct (Hticks k) as (_ & _ & _ & H).
    replace (k <? Z.to_nat (Game.numDisks g * 20))%nat with true in H
      by (symmetry; apply Nat.ltb_lt; lia).
    destruct H as (-> & _ & ->). split; [exact Hover | lia].
  - intros k Hk lost. destruct (Hticks k) as (Htw & Hb & _ & H).
    replace (k <? Z.to_nat (Game.numDisks g * 20))%nat with false in H
      by (symmetry; apply Nat.ltb_ge; lia).
    destruct H as (Hz & Hi & Ho). subst lost.
    repeat split; try assumption; try congruence.
    + intros hit. unfold Game.onMouseDown. now rewrite Ho.
    + intros dist. unfold Game.onMouseUp. now rewrite Ho.
    + intros stack fuel' rnd'. unfold Game.showSolution. now rewrite Ho.
Qed.

(** Four disks: 80 seconds. *)
Lemma timed_game_times_out_witness :
  let g' :=
    returned (initialGame 4 contrarreloj)
      (Game.resetGame 0 (fun _ => 0%Q) (initialGame 4 contrarreloj)) in
  Game.timeLimit g' = 80 /\
  Game.isGameOver (ticks 79 g') = false /\
  Game.timer (ticks 79 g') = 1 /\
  Game.isGameOver (ticks 80 g') = true.
Proof.
  intros g'.
  destruct (timed_game_times_out 0 (fun _ => 0%Q)
              (initialGame 4 contrarreloj) g')
    as (Hlimit & Hon & Hoff).
  - reflexivity.
  - simpl. lia.
  - vm_compute. reflexivity.
  - split; [exact Hlimit|].
    destruct (Hon 79%nat) as [H1 H2]; [simpl; lia|].
    split; [exact H1|]. split; [exact H2|].
    destruct (Hoff 80%nat) as [H3 _]; [simpl; lia|]. exact H3.
Defined.

(** ** Shuffled towers *)

Lemma insert_perm {A : Type} (l : list A) (i : nat) (x y : A) :
  l !! i = Some x -> <[i := y]> l ≡ₚ y :: delete i l.
Proof.
  revert i. induction l as [|a l IH]; intros [|i] H; simpl in *;
    try discriminate.
  - reflexivity.
  - rewrite (IH i H). apply perm_swap.
Qed.

Lemma swapPositions_perm {A : Type} (positions : list A) (i : nat) (j : Z) :
  swapPositions positions i j ≡ₚ positions.
Proof.
  unfold swapPositions.
  destruct (positions !! i) as [a|] eqn:Hi; [|reflexivity].
  destruct (nthZ positions j) as [b|] eqn:Hj; [|reflexivity].
  unfold nthZ in Hj. destruct (j <? 0); [discriminate|].
  set (j' := Z.to_nat j) in *.
  destruct (decide (i = j')) as [<-|Hne].
  - rewrite list_insert_insert_eq. rewrite Hi in Hj. injection Hj as <-.
    now rewrite list_insert_id.
  - assert (H1 : <[i := b]> positions !! j' = Some b).
    { now rewrite list_lookup_insert_ne. }
    rewrite (insert_perm _ j' b a H1).
    pose proof (delete_Permutation _ _ _ H1) as P1.
    pose proof (insert_perm positions i a b Hi) as P2.
    assert (P3 : b :: delete j' (<[i := b]> positions) ≡ₚ b :: delete i positions).
    { etransitivity; [symmetry; exact P1 | exact P2]. }
    apply Permutation_cons_inv in P3.
    rewrite P3. symmetry. now apply delete_Permutation.
Qed.

Lemma shufflePositions_perm {A : Type} (i : nat) (rnd : nat -> Q) :
  forall (k : nat) (positions : list A),
    shufflePositions i rnd k positions ≡ₚ positions.
Proof.
  induction i as [|i IH]; intros k positions; [reflexivity|].
  simpl. rewrite IH. apply swapPositions_perm.
Qed.

(** The six orders of the three places, and values of [Math.random]
    that lead to each. *)
Lemma rearrangeTowers_orders :
  rearrangeTowers (prefixed [2 # 3; 1 # 2]%Q (fun _ => 0%Q))
  = [mkVector3 (-10) 0 0; mkVector3 0 0 0; mkVector3 10 0 0] /\
  rearrangeTowers (prefixed [1 # 3; 1 # 2]%Q (fun _ => 0%Q))
  = [mkVector3 (-10) 0 0; mkVector3 10 0 0; mkVector3 0 0 0] /\
  rearrangeTowers (prefixed [2 # 3; 0]%Q (fun _ => 0%Q))
  = [mkVector3 0 0 0; mkVector3 (-10) 0 0; mkVector3 10 0 0] /\
  rearrangeTowers (prefixed [0; 0]%Q (fun _ => 0%Q))
  = [mkVector3 0 0 0; mkVector3 10 0 0; mkVector3 (-10) 0 0] /\
  rearrangeTowers (prefixed [1 # 3; 0]%Q (fun _ => 0%Q))
  = [mkVector3 10 0 0; mkVector3 (-10) 0 0; mkVector3 0 0 0] /\
  rearrangeTowers (prefixed [0; 1 # 2]%Q (fun _ => 0%Q))
  = [mkVector3 10 0 0; mkVector3 0 0 0; mkVector3 (-10) 0 0].
Proof. repeat split; vm_compute; reflexivity. Qed.

Lemma prefixed_two_in_range (u v : Q) :
  (0 <= u)%Q -> (u < 1)%Q -> (0 <= v)%Q -> (v < 1)%Q ->
  forall k, (0 <= prefixed [u; v] (fun _ => 0%Q) k)%Q /\
            (prefixed [u; v] (fun _ => 0%Q) k < 1)%Q.
Proof.
  intros Hu0 Hu1 Hv0 Hv1 [|[|k]]; simpl; auto.
  split; [apply Qle_refl | reflexivity].
Qed.

(** [rearrangeTowers] hands the towers the three places
    (-10, 0, 0), (0, 0, 0) and (10, 0, 0) in some order, each place to
    one tower, whatever [Math.random] returns; and every one of the six
    orders comes out for suitable values of [Math.random]. *)
Theorem rearrangeTowers_permutes :
  (forall rnd,
     rearrangeTowers rnd
     ≡ₚ [mkVector3 (-10) 0 0; mkVector3 0 0 0; mkVector3 10 0 0]) /\
  (forall order,
     order ≡ₚ [mkVector3 (-10) 0 0; mkVector3 0 0 0; mkVector3 10 0 0] ->
     exists rnd,
       (forall k, (0 <= rnd k)%Q /\ (rnd k < 1)%Q) /\
       rearrangeTowers rnd = order).
Proof.
  split.
  - intros rnd. unfold rearrangeTowers. apply shufflePositions_perm.
  - intros order Hperm.
    destruct rearrangeTowers_orders as (H1 & H2 & H3 & H4 & H5 & H6).
    assert (Hlen := Permutation_length Hperm).
    destruct order as [|x [|y [|z [|w order]]]]; try discriminate.
    assert (Hin : forall v, v ∈ [x; y; z] ->
              v = mkVector3 (-10) 0 0 \/ v = mkVector3 0 0 0 \/ v = mkVector3 10 0 0).
    { intros v Hv. rewrite Hperm in Hv.
      repeat (apply elem_of_cons in Hv as [Hv|Hv]; [auto|]).
      now apply elem_of_nil in Hv. }
    assert (Hnd : NoDup [x; y; z]).
    { rewrite Hperm.
      repeat (constructor;
              [intros H;
               repeat (apply elem_of_cons in H as [H|H]; [discriminate|]);
               now apply elem_of_nil in H|]).
      constructor. }
    apply NoDup_cons in Hnd as [Hx Hnd]. apply NoDup_cons in Hnd as [Hy _].
    destruct (Hin x (list_elem_of_here _ _)) as [-> | [-> | ->]];
      destruct (Hin y (list_elem_of_further _ _ _ (list_elem_of_here _ _)))
        as [-> | [-> | ->]];
      destruct (Hin z (list_elem_of_further _ _ _
                         (list_elem_of_further _ _ _ (list_elem_of_here _ _))))
        as [-> | [-> | ->]];
      try (exfalso;
           first [ apply Hx; apply list_elem_of_here
                 | apply Hx; apply list_elem_of_further, list_elem_of_here
                 | apply Hy; apply list_elem_of_here ]);
      [ exists (prefixed [2 # 3; 1 # 2]%Q (fun _ => 0%Q))
      | exists (prefixed [1 # 3; 1 # 2]%Q (fun _ => 0%Q))
      | exists (prefixed [2 # 3; 0]%Q (fun _ => 0%Q))
      | exists (prefixed [0; 0]%Q (fun _ => 0%Q))
      | exists (prefixed [1 # 3; 0]%Q (fun _ => 0%Q))
      | exists (prefixed [0; 1 # 2]%Q (fun _ => 0%Q)) ];
      (split;
       [apply prefixed_two_in_range; (reflexivity || discriminate)
       | assumption]).
Qed.

(** ** Sizes in a running game *)

Lemma canonicalStack_range (n : Z) (d : Disk) :
  d ∈ canonicalStack n -> 1 <= size d <= n.
Proof.
  intros Hd. apply list_elem_of_lookup in Hd as [i Hi].
  pose proof (lookup_lt_Some _ _ _ Hi) as Hlt.
  unfold canonicalStack in Hlt. rewrite length_map, length_seq in Hlt.
  apply canonicalStack_lookup in Hi. lia.
Qed.

Lemma on_tower_disksOnTowers (g : Game.t) (i : nat) (tw : Tower.t) (d : Disk) :
  Game.towers g !! i = Some tw -> d ∈ Tower.disks tw -> d ∈ disksOnTowers g.
Proof.
  intros Htw Hd. unfold disksOnTowers.
  destruct (disks_around _ _ _ Htw) as (before & after & -> & _).
  apply elem_of_app. right. apply elem_of_app. now left.
Qed.

Lemma sizesInRange_fresh (g : Game.t) (n : Z) :
  disksOnTowers g ≡ₚ canonicalStack n ->
  Game.numDisks g = n ->
  Game.draggingDisk g = None ->
  sizesInRange g.
Proof.
  intros Hp Hn Hd. split.
  - intros d Hin. rewrite Hp in Hin. rewrite Hn. now apply canonicalStack_range.
  - intros d H. congruence.
Qed.

Lemma sizesInRange_moved (g g' : Game.t) :
  sizesInRange g ->
  disksOnTowers g' ≡ₚ disksOnTowers g ->
  Game.numDisks g' = Game.numDisks g ->
  Game.draggingDisk g' = Game.draggingDisk g \/ Game.draggingDisk g' = None ->
  sizesInRange g'.
Proof.
  intros [Ht Hd] Hp Hn Hdrag. split.
  - intros d Hin. rewrite Hp in Hin. rewrite Hn. auto.
  - intros d H. rewrite Hn. destruct Hdrag as [Hdrag|Hdrag]; [|congruence].
    rewrite Hdrag in H. auto.
Qed.

Lemma resetGame_sizesInRange (fuel : nat) (rnd : nat -> Q) (g g' : Game.t) :
  Game.resetGame fuel rnd g = Ok g' -> sizesInRange g'.
Proof.
  intros E.
  destruct (resetGame_fields fuel rnd g g' E) as (_ & Hn & _ & _ & Hd & _).
  apply sizesInRange_fresh with (Game.numDisks g); auto.
  now apply resetGame_disksOnTowers in E.
Qed.

Lemma onDifficultyChange_sizesInRange
    (n : Z) (fuel : nat) (rnd : nat -> Q) (g g' : Game.t) :
  Game.onDifficultyChange n fuel rnd g = Ok g' -> sizesInRange g'.
Proof. unfold Game.onDifficultyChange. apply resetGame_sizesInRange. Qed.

Lemma onGameModeChange_sizesInRange
    (m : GameMode) (fuel : nat) (rnd : nat -> Q) (g g' : Game.t) :
  Game.onGameModeChange m fuel rnd g = Ok g' -> sizesInRange g'.
Proof. unfold Game.onGameModeChange. apply resetGame_sizesInRange. Qed.

Lemma resetForSolution_sizesInRange (fuel : nat) (rnd : nat -> Q) (g g' : Game.t) :
  Game.resetForSolution fuel rnd g = Ok g' -> sizesInRange g'.
Proof.
  unfold Game.resetForSolution. intros E.
  pose proof E as E'. apply createDisks_settings in E'; [|reflexivity].
  destruct E' as (_ & Hn & _ & _ & _ & _ & Hd & _).
  apply createDisks_disksOnTowers in E;
    [|reflexivity | intros i tw; apply clearDisks_empties].
  apply sizesInRange_fresh with (Game.numDisks g'); auto.
  now rewrite Hn.
Qed.

Lemma showSolution_sizesInRange
    (stack fuel : nat) (rnd : nat -> Q) (g g' : Game.t) :
  sizesInRange g ->
  Game.showSolution stack fuel rnd g = Ok g' -> sizesInRange g'.
Proof.
  intros Hinv. unfold Game.showSolution.
  destruct (Game.isGameOver g); [now intros [= <-]|].
  destruct (Game.resetForSolution fuel rnd _) as [g1| |] eqn:E; simpl;
    try discriminate.
  destruct (Game.generateHanoiSolution stack _ 0 2 1 []) as [steps| |]; simpl;
    try discriminate.
  intros [= <-]. apply resetForSolution_sizesInRange in E.
  destruct E as [Ht Hd]. split; [exact Ht | exact Hd].
Qed.

Lemma onMouseDown_sizesInRange (hit : option nat) (g : Game.t) :
  sizesInRange g -> sizesInRange (Game.onMouseDown hit g).
Proof.
  intros [Ht Hd]. unfold Game.onMouseDown.
  destruct (Game.isGameOver g); [now split|].
  unfold Game.trySelectDisk.
  destruct (Game.draggingDisk g) as [d0|] eqn:Hdrag; [split; [exact Ht|];
    now rewrite Hdrag|].
  match goal with
  | |- sizesInRange (match hit with Some _ => _ | None => ?x end) =>
      assert (Hx : disksOnTowers x = disksOnTowers g /\
                   Game.numDisks x = Game.numDisks g /\
                   Game.draggingDisk x = None /\
                   Game.towers x = Game.towers g)
        by (destruct (Game.timerInterval g), (Game.gameMode g);
            repeat split; assumption);
      set (g1 := x) in *
  end.
  destruct Hx as (Hp & Hn & Hdr & Htw).
  assert (H1 : sizesInRange g1).
  { split; [now rewrite Hp, Hn | intros d H; congruence]. }
  destruct hit as [ti|]; [|exact H1].
  destruct (Game.towers g1 !! ti) as [tw|] eqn:Hti; simpl; [|exact H1].
  destruct (Tower.getTopDisk tw) as [d|] eqn:Htop; [|exact H1].
  split; [exact (proj1 H1)|]. simpl. intros d' [= <-].
  apply (proj1 H1). eapply on_tower_disksOnTowers; [exact Hti|].
  rewrite (proj1 (getTopDisk_Some_inv _ _ Htop)).
  apply elem_of_app. right. apply list_elem_of_here.
Qed.

Lemma dropDisk_sizesInRange (dist : nat -> Q) (g g' : Game.t) :
  sizesInRange g -> Game.dropDisk dist g = Ok g' -> sizesInRange g'.
Proof.
  intros [Ht Hd]. unfold Game.dropDisk.
  destruct (Game.draggingDisk g) as [disk|] eqn:Hdrag;
    [|intros [= <-]; split; [exact Ht | now rewrite Hdrag]].
  assert (Hkeep : forall x, Game.towers x = Game.towers g ->
                            Game.numDisks x = Game.numDisks g ->
                            sizesInRange (Game.set_draggingDisk None x)).
  { intros x Htw Hn. split; [|discriminate]. unfold disksOnTowers. simpl.
    rewrite Htw, Hn. exact Ht. }
  destruct (Game.findClosestTower dist g) as [ci|]; simpl.
  2:{ destruct (Game.currentTower g !! index disk); simpl; [|discriminate].
      intros [= <-]. now apply Hkeep. }
  destruct (Game.towers g !! ci) as [closest|] eqn:Hclosest; simpl;
    [|discriminate].
  destruct (negb _ && Tower.canAddDisk closest disk); simpl.
  2:{ destruct (Game.currentTower g !! index disk); simpl; [|discriminate].
      intros [= <-]. now apply Hkeep. }
  destruct (Game.currentTower g !! index disk) as [src|]; simpl; [|discriminate].
  destruct (Game.towerRemoveDisk src g) as [[r g1]| |] eqn:Hrm; simpl;
    try discriminate.
  destruct (Game.towerAddDisk ci disk g1) as [g2| |] eqn:Hadd; simpl;
    try discriminate.
  destruct (Game.checkWinCondition _) as [g3| |] eqn:Hwin; simpl;
    try discriminate.
  intros [= <-].
  pose proof (towerRemoveDisk_settings _ _ _ _ Hrm) as S1.
  pose proof (towerAddDisk_settings _ _ _ _ Hadd) as S2.
  destruct (sameSettings_trans _ _ _ S1 S2) as (Hn&_).
  pose proof (towerRemoveDisk_disksOnTowers _ _ _ _ Hrm) as P1.
  pose proof (towerAddDisk_disksOnTowers _ _ _ _ Hadd) as P2.
  assert (Hgoal : exists goal, Game.towers
            (Game.emit PlayMoveSound
               (Game.updateUI (Game.set_moves (S (Game.moves g2)) g2))) !! 2%nat
            = Some goal).
  { unfold Game.checkWinCondition in Hwin.
    destruct (Game.towers _ !! 2%nat) as [goal|]; [eauto | discriminate]. }
  destruct Hgoal as [goal Hgoal].
  destruct (checkWinCondition_spec _ goal Hgoal)
    as (g3' & E3 & Ht3 & _ & _ & _ & Hn3 & _).
  rewrite E3 in Hwin. injection Hwin as ->.
  split; [|discriminate]. unfold disksOnTowers in *. simpl.
  rewrite Ht3, Hn3. simpl. rewrite Hn. intros d Hin. rewrite P2 in Hin.
  apply elem_of_cons in Hin as [->|Hin]; [now apply Hd|].
  apply Ht. destruct r as [top|].
  - rewrite P1. now apply list_elem_of_further.
  - now subst g1.
Qed.

Lemma executeAutoMove_sizesInRange (i j : nat) (g g' : Game.t) :
  sizesInRange g -> Game.executeAutoMove i j g = Ok g' -> sizesInRange g'.
Proof.
  intros Hinv E.
  apply executeAutoMove_frame in E as (P & _ & _ & _ & _ & _ & Hn & Hd & _).
  apply sizesInRange_moved with g; auto.
Qed.

Lemma solutionTick_sizesInRange (g g' : Game.t) :
  sizesInRange g -> Game.solutionTick g = Ok g' -> sizesInRange g'.
Proof.
  intros Hinv. unfold Game.solutionTick.
  destruct (Game.solutionInterval g) as [[|s rest]|];
    try (intros [= <-]; exact Hinv).
  destruct (Game.executeAutoMove _ _ g) as [g1| |] eqn:E; simpl;
    try discriminate.
  intros [= <-]. now apply executeAutoMove_sizesInRange in E.
Qed.

Lemma tick_sizesInRange (g : Game.t) :
  sizesInRange g -> sizesInRange (Game.tick g).
Proof.
  intros Hinv.
  assert (H : Game.towers (Game.tick g) = Game.towers g /\
              Game.numDisks (Game.tick g) = Game.numDisks g /\
              Game.draggingDisk (Game.tick g) = Game.draggingDisk g).
  { unfold Game.tick. destruct (Game.timerInterval g) as [[|]|];
      try (repeat split; reflexivity).
    unfold Game.countdownTick.
    repeat match goal with
           | |- context [if ?c then _ else _] => destruct c
           end; repeat split; reflexivity. }
  destruct H as (Htw & Hn & Hd).
  apply sizesInRange_moved with g; auto.
  unfold disksOnTowers. now rewrite Htw.
Qed.

Lemma step_sizesInRange (g g' : Game.t) :
  step g g' -> sizesInRange g -> sizesInRange g'.
Proof.
  intros Hstep Hinv. destruct Hstep as
    [fuel rnd g g' E | n fuel rnd g g' E | m fuel rnd g g' E | hit g
    | dist g g' E | dist g g' E | fuel rnd g g' E | stack fuel rnd g g' E
    | g g' E | i j g g' E | g].
  - exact (resetGame_sizesInRange _ _ _ _ E).
  - exact (onDifficultyChange_sizesInRange _ _ _ _ _ E).
  - exact (onGameModeChange_sizesInRange _ _ _ _ _ E).
  - now apply onMouseDown_sizesInRange.
  - unfold Game.onMouseUp in E. destruct (Game.isGameOver g).
    + injection E as <-. exact Hinv.
    + exact (dropDisk_sizesInRange _ _ _ Hinv E).
  - exact (dropDisk_sizesInRange _ _ _ Hinv E).
  - exact (resetForSolution_sizesInRange _ _ _ _ E).
  - exact (showSolution_sizesInRange _ _ _ _ _ Hinv E).
  - exact (solutionTick_sizesInRange _ _ Hinv E).
  - exact (executeAutoMove_sizesInRange _ _ _ _ Hinv E).
  - now apply tick_sizesInRange.
Qed.

Lemma reachable_invariants (g : Game.t) :
  reachable g -> allDescending (Game.towers g) /\ sizesInRange g.
Proof.
  induction 1 as [best | g g' _ [IH1 IH2] Hstep].
  - split.
    + apply allDescending_empty. intros i tw H.
      destruct i as [|[|[|i]]]; simpl in H; try discriminate;
        now injection H as <-.
    + split; [|discriminate]. intros d Hd. now apply elem_of_nil in Hd.
  - split; [eapply step_descending | eapply step_sizesInRange]; eauto.
Qed.

(** In every game reached through the entry points, every disk on a
    tower and the dragged disk have a size within [1 .. numDisks], and
    so the win check on the goal tower is passed exactly when that tower
    holds [numDisks] disks. *)
Theorem reachable_win_check (g : Game.t) :
  reachable g ->
  sizesInRange g /\
  forall goal,
    Game.towers g !! 2%nat = Some goal ->
    (Tower.isComplete goal (Game.numDisks g) = true <->
     Z.of_nat (length (Tower.disks goal)) = Game.numDisks g).
Proof.
  intros Hreach. destruct (reachable_invariants g Hreach) as [Hdesc Hrange].
  split; [exact Hrange|]. intros goal Hgoal.
  rewrite isComplete_exact. split; [now intros [H _]|].
  intros Hlen. split; [exact Hlen|]. intros i d Hd.
  specialize (Hdesc 2%nat goal Hgoal).
  assert (Hin : forall x, x ∈ Tower.disks goal -> 1 <= size x <= Game.numDisks g).
  { intros x Hx. apply (proj1 Hrange).
    eapply on_tower_disksOnTowers; eauto. }
  assert (Hlow : Z.of_nat (length (Tower.disks goal)) - Z.of_nat i <= size d).
  { eapply strictlyDescending_lower; eauto. intros x Hx. apply Hin in Hx. lia. }
  destruct (Tower.disks goal !! 0%nat) as [a|] eqn:Ha.
  - pose proof (strictlyDescending_upper _ _ _ _ Hdesc Ha Hd) as Hup.
    assert (size a <= Game.numDisks g).
    { apply Hin. eapply list_elem_of_lookup_2; eauto. }
    lia.
  - apply lookup_ge_None in Ha. apply lookup_lt_Some in Hd. lia.
Qed.

(** After the first manual move of a 3-disk game tower 2 holds one disk
    and the game is not won. *)
Lemma reachable_win_check_witness :
  sizesInRange game3_dragged /\
  forall goal,
    Game.towers game3_dragged !! 2%nat = Some goal ->
    (Tower.isComplete goal (Game.numDisks game3_dragged) = true <->
     Z.of_nat (length (Tower.disks goal)) = Game.numDisks game3_dragged).
Proof.
  apply (reachable_win_check game3_dragged).
  apply reachable_step with (Game.onMouseDown (Some 0%nat) game3).
  - apply reachable_step with game3.
    + apply reachable_step with (Game.createTowers (Game.new None)).
      * apply reachable_new.
      * apply step_onDifficultyChange with 3 0%nat (fun _ : nat => 0%Q).
        vm_compute. reflexivity.
    + apply step_onMouseDown.
  - apply step_onMouseUp with (releasedOver 2). vm_compute. reflexivity.
Defined.

(** ** Displayed times *)

Section FormatTime.
Import Ascii String.

Lemma length_fillString (n : nat) (c : ascii) :
  String.length (Utils.fillString n c) = n.
Proof. induction n as [|n IH]; simpl; [reflexivity | now rewrite IH]. Qed.

Lemma length_append (a b : string) :
  String.length (append a b) = (String.length a + String.length b)%nat.
Proof. induction a as [|c a IH]; simpl; [reflexivity | now rewrite IH]. Qed.

Lemma length_padStart (n : nat) (c : ascii) (s : string) :
  String.length (Utils.padStart n c s) = Nat.max n (String.length s).
Proof.
  unfold Utils.padStart. rewrite length_append, length_fillString. lia.
Qed.

Lemma to_int_nonneg (n : Z) :
  0 <= n -> exists u, Z.to_int n = Decimal.Pos u /\ u <> Decimal.Nil.
Proof.
  intros Hn. destruct n as [|p|p]; [| |lia].
  - exists (Decimal.D0 Decimal.Nil). split; [reflexivity | discriminate].
  - exists (Pos.to_uint p). split; [reflexivity|].
    intros E. pose proof (DecimalPos.Unsigned.of_to p) as H.
    rewrite E in H. discriminate.
Qed.

Lemma toString_nonneg (n : Z) :
  0 <= n ->
  exists u, Utils.toString n = DecimalString.NilEmpty.string_of_uint u /\
            u <> Decimal.Nil /\ Z.of_uint u = n.
Proof.
  intros Hn. destruct (to_int_nonneg n Hn) as (u & E & Hu).
  exists u. unfold Utils.toString. rewrite E. split; [|split; [exact Hu|]].
  - now destruct u.
  - pose proof (DecimalZ.of_to n) as H. now rewrite E in H.
Qed.

Lemma string_of_uint_empty (u : Decimal.uint) :
  String.length (DecimalString.NilEmpty.string_of_uint u) = 0%nat ->
  u = Decimal.Nil.
Proof. destruct u; simpl; congruence. Qed.

Lemma toString_short (n : Z) :
  0 <= n -> (String.length (Utils.toString n) <= 2)%nat -> n < 100.
Proof.
  intros Hn Hlen. destruct (toString_nonneg n Hn) as (u & E & _ & <-).
  rewrite E in Hlen. clear E Hn.
  destruct u as [|u|u|u|u|u|u|u|u|u|u]; [reflexivity|..];
    (destruct u as [|u|u|u|u|u|u|u|u|u|u]; [reflexivity|..];
     (assert (u = Decimal.Nil) as ->
        by (apply string_of_uint_empty; simpl in Hlen; lia);
      reflexivity)).
Qed.

Lemma toString_two_digits (n : Z) :
  0 <= n < 100 -> (String.length (Utils.toString n) <= 2)%nat.
Proof.
  intros Hn.
  assert (H : forallb (fun k => Nat.leb
                (String.length (Utils.toString (Z.of_nat k))) 2)
                (seq 0 100) = true) by (vm_compute; reflexivity).
  rewrite forallb_forall in H. specialize (H (Z.to_nat n)).
  rewrite Z2Nat.id in H by lia. apply Nat.leb_le, H, in_seq. lia.
Qed.

Lemma uint_of_string_filled (k : nat) (u : Decimal.uint) :
  DecimalString.NilEmpty.uint_of_string
    (append (Utils.fillString k "0") (DecimalString.NilEmpty.string_of_uint u))
  = Some (Nat.iter k Decimal.D0 u).
Proof.
  induction k as [|k IH]; simpl.
  - apply DecimalString.NilEmpty.usu.
  - now rewrite IH.
Qed.

Lemma of_uint_filled (k : nat) (u : Decimal.uint) :
  Z.of_uint (Nat.iter k Decimal.D0 u) = Z.of_uint u.
Proof. induction k as [|k IH]; simpl; [reflexivity | exact IH]. Qed.

Lemma readNumber_padded (k : nat) (u : Decimal.uint) :
  u <> Decimal.Nil ->
  Utils.readNumber
    (append (Utils.fillString k "0") (DecimalString.NilEmpty.string_of_uint u))
  = Some (Z.of_uint u).
Proof.
  intros Hu. unfold Utils.readNumber. destruct k as [|k].
  - change (option_map Z.of_int
              (DecimalString.NilZero.int_of_string
                 (DecimalString.NilEmpty.string_of_uint u))
            = Some (Z.of_uint u)).
    assert (E : DecimalString.NilZero.int_of_string
                  (DecimalString.NilEmpty.string_of_uint u)
                = Some (Decimal.Pos u)).
    { pose proof (DecimalString.NilZero.isi (Decimal.Pos u)) as H.
      destruct u; [congruence | apply H; discriminate ..]. }
    now rewrite E.
  - change (option_map Z.of_int
              (option_map Decimal.Pos
                 (DecimalString.NilEmpty.uint_of_string
                    (append (Utils.fillString (S k) "0")
                       (DecimalString.NilEmpty.string_of_uint u))))
            = Some (Z.of_uint u)).
    rewrite uint_of_string_filled. cbn [option_map]. f_equal.
    apply (of_uint_filled (S k)).
Qed.

Lemma splitAtColon_digits (u : Decimal.uint) (b : string) :
  Utils.splitAtColon
    (append (DecimalString.NilEmpty.string_of_uint u) (String ":" b))
  = Some (DecimalString.NilEmpty.string_of_uint u, b).
Proof. induction u; simpl; [reflexivity | now rewrite IHu ..]. Qed.

Lemma splitAtColon_padded (k : nat) (u : Decimal.uint) (b : string) :
  Utils.splitAtColon
    (append (append (Utils.fillString k "0")
                    (DecimalString.NilEmpty.string_of_uint u))
            (String ":" b))
  = Some (append (Utils.fillString k "0")
                 (DecimalString.NilEmpty.string_of_uint u), b).
Proof.
  induction k as [|k IH]; simpl.
  - apply splitAtColon_digits.
  - now rewrite IH.
Qed.

(** A displayed time reads back as the time it was made from: for every
    time of zero or more seconds (an exact integer of JavaScript), the
    text before the colon times 60 plus the text after it is the number
    of seconds given. *)
Theorem formatTime_reads_back (s : Z) :
  0 <= s < 2 ^ 53 -> Utils.readTime (Utils.formatTime s) = Some s.
Proof.
  intros [Hs _]. unfold Utils.formatTime, Utils.readTime. cbv zeta.
  assert (Hm : 0 <= s / 60) by (apply Z.div_pos; lia).
  assert (Hr : 0 <= Z.rem s 60) by (apply Z.rem_nonneg; lia).
  destruct (toString_nonneg _ Hm) as (um & Em & Hum & Vm).
  destruct (toString_nonneg _ Hr) as (ur & Er & Hur & Vr).
  rewrite Em, Er. unfold Utils.padStart.
  rewrite splitAtColon_padded, !readNumber_padded by assumption.
  rewrite Vm, Vr. f_equal. rewrite Z.rem_mod_nonneg by lia.
  pose proof (Z.div_mod s 60). lia.
Qed.

(** One hour, 25 minutes and 7 seconds. *)
Lemma formatTime_reads_back_witness :
  Utils.readTime (Utils.formatTime 5107) = Some 5107.
Proof. apply (formatTime_reads_back 5107). lia. Defined.

(** The display has the five characters of the form mm:ss exactly for
    the times below 100 minutes; from 6000 seconds on it is longer. *)
Theorem formatTime_five_characters (s : Z) :
  0 <= s < 2 ^ 53 ->
  (String.length (Utils.formatTime s) = 5%nat <-> s < 6000).
Proof.
  intros [Hs _]. unfold Utils.formatTime. cbv zeta.
  rewrite length_append. simpl String.length. rewrite !length_padStart.
  assert (Hm : 0 <= s / 60) by (apply Z.div_pos; lia).
  assert (Hr : 0 <= Z.rem s 60 < 100).
  { rewrite Z.rem_mod_nonneg by lia. pose proof (Z.mod_pos_bound s 60). lia. }
  pose proof (toString_two_digits _ Hr) as Lr.
  split.
  - intros H. assert (s / 60 < 100) by (apply toString_short; lia).
    pose proof (Z.div_mod s 60). pose proof (Z.mod_pos_bound s 60). lia.
  - intros H. assert (Hlt : s / 60 < 100)
      by (apply Z.div_lt_upper_bound; lia).
    pose proof (toString_two_digits (s / 60) (conj Hm Hlt)). lia.
Qed.

(** 99 minutes and 59 seconds is the last time shown on five characters. *)
Lemma formatTime_five_characters_witness :
  String.length (Utils.formatTime 5999) = 5%nat <-> 5999 < 6000.
Proof. apply (formatTime_five_characters 5999). lia. Defined.

End FormatTime.
(** ** A dragged disk without a tower *)

Lemma reachable_game3 : reachable game3.
Proof.
  apply reachable_step with (Game.createTowers (Game.new None)).
  - apply reachable_new.
  - apply step_onDifficultyChange with 3 0%nat (fun _ : nat => 0%Q).
    vm_compute. reflexivity.
Qed.

Lemma reachable_returned (g : Game.t) (r : Result Game.t) :
  reachable g -> (forall g', r = Ok g' -> step g g') ->
  reachable (returned g r).
Proof.
  intros Hg Hstep. destruct r as [g'| |]; simpl; try exact Hg.
  apply reachable_step with g; auto.
Qed.

Lemma reachable_played (g : Game.t) : reachable g -> reachable (played g).
Proof.
  intros Hg. apply reachable_returned; [exact Hg|].
  intros g' E. now apply step_solutionTick.
Qed.

Lemma reachable_picked (ti : nat) (g : Game.t) :
  reachable g -> reachable (picked ti g).
Proof. intros Hg. apply reachable_step with g; [exact Hg | apply step_onMouseDown]. Qed.

Lemma reachable_released (dist : nat -> Q) (g : Game.t) :
  reachable g -> reachable (released dist g).
Proof.
  intros Hg. apply reachable_returned; [exact Hg|].
  intros g' E. now apply step_onMouseUp with dist.
Qed.

Lemma reachable_game3_solving : reachable game3_solving.
Proof.
  apply reachable_returned; [exact reachable_game3|].
  intros g' E. now apply step_showSolution with 3%nat 0%nat (fun _ : nat => 0%Q).
Qed.

Lemma dropDisk_no_tower_throws (g : Game.t) (dist : nat -> Q) (disk : Disk) :
  Game.draggingDisk g = Some disk ->
  Game.currentTower g !! index disk = None ->
  Game.dropDisk dist g = Throw TypeError.
Proof.
  intros Hdrag Hcur. unfold Game.dropDisk. rewrite Hdrag, Hcur.
  pose proof (findClosestTower_spec dist g) as Hspec.
  destruct (Game.findClosestTower dist g) as [ci|]; [|reflexivity].
  destruct Hspec as (Hlt & _).
  destruct (lookup_lt_is_Some_2 _ _ Hlt) as [closest ->]. simpl.
  now destruct (Tower.canAddDisk closest disk).
Qed.

(** A dragged disk can be without a tower, and then it cannot be put
    down.  Whenever [currentTower] of the dragged disk is [null], every
    release, near a tower or far from all, throws a [TypeError] and the
    drag does not end, while the towers lit up are just those that could
    take the disk.  Such a game comes about through the mouse and the
    solution button alone: released while the solution is played, a
    disk is put on a second tower and the disk played onto it in the
    meantime is taken off in its place; after two such drops disk 2
    lies on tower 2, has no tower, and is picked. *)
Theorem dropDisk_throws_without_current_tower :
  (forall (g : Game.t) (dist : nat -> Q) (disk : Disk),
     Game.draggingDisk g = Some disk ->
     Game.currentTower g !! index disk = None ->
     Game.dropDisk dist g = Throw TypeError /\
     highlightValidTowersForDragging g
     = Some (map (fun tw => Tower.canAddDisk tw disk) (Game.towers g))) /\
  reachable game3_disk_without_tower /\
  Game.isGameOver game3_disk_without_tower = false /\
  map (fun tw => sizes (Tower.disks tw)) (Game.towers game3_disk_without_tower)
  = [[3]; [3]; [2]] /\
  Game.draggingDisk game3_disk_without_tower = Some (mkDisk 2 1) /\
  Game.currentTower game3_disk_without_tower !! index (mkDisk 2 1) = None /\
  forall dist, Game.onMouseUp dist game3_disk_without_tower = Throw TypeError.
Proof.
  split.
  { intros g dist disk Hdrag Hcur.
    split; [exact (dropDisk_no_tower_throws g dist disk Hdrag Hcur)|].
    unfold highlightValidTowersForDragging. rewrite Hdrag, Hcur. f_equal.
    rewrite <- imap_const. apply imap_ext. intros i tw _.
    now rewrite bool_decide_eq_false_2 by discriminate. }
  split.
  { unfold game3_disk_without_tower.
    apply reachable_picked, reachable_released, reachable_played,
      reachable_picked, reachable_played, reachable_released,
      reachable_played, reachable_picked, reachable_played,
      reachable_played.
    exact reachable_game3_solving. }
  do 4 (split; [vm_compute; reflexivity|]).
  intros dist. unfold Game.onMouseUp.
  replace (Game.isGameOver game3_disk_without_tower) with false
    by (vm_compute; reflexivity).
  apply dropDisk_no_tower_throws with (mkDisk 2 1); vm_compute; reflexivity.
Qed.
